(** * JDAT notebooks: the numerical glue code of the NIRISS WFSS and NIRCam
      photometry notebooks, embedded shallowly and verified.

    Sources embedded here:
    - [notebooks/NIRCam/NIRCam_photometry/NIRCam_multiband_photometry.ipynb]
      ([fluxes2mags]);
    - [notebooks/NIRISS/NIRISS_WFSS_postpipeline/02_Cross_correlation_template.ipynb]
      ([read_hdf5], continuum masks, template preparation, peak location);
    - [notebooks/NIRISS/NIRISS_WFSS_postpipeline/03_Spatially_resolved_emission_line_map.ipynb]
      (the per-row loops).

    Conventions.  A cell's outcome is a [result]: it returns, raises a Python
    exception, or leaves the exact model.  Float arrays that
    are only moved around or compared are lists of primitive floats; the
    arithmetic of the spectral pipeline is carried out exactly over [Q], the
    usual idealisation of float64 for statements about least squares.  The
    two cells that locate the peak of the correlation are embedded twice:
    over [Q] with an exact parabola fit, for what happens to the window at
    the ends of the grid, and in module [Float64] on float64 arrays with the
    fit, the root finder and the mean of numpy as they are given.
    Functions of numpy, astropy, specutils and h5py are not part of the
    repository: they appear as section variables, or as exact models that are
    marked as such. *)

From Stdlib Require Import ZArith QArith Qabs Qminmax Lqa Lia List Floats Ascii String.
From stdpp Require Import base option list gmap strings.

Local Open Scope nat_scope.

(** ** Outcomes of a notebook cell *)

(** The Python exceptions that the embedded code can meet. *)
Inductive exn :=
| ValueError | TypeError | IndexError | KeyError
| LinAlgError (* [numpy.linalg.LinAlgError] *)
| InsufficientDataError (* the spec's name for an under-determined fit *).

(** A cell either returns, or raises, or leaves the exact model: a float
    division by zero (numpy answers [inf] or [nan] and warns) and a
    rank-deficient least-squares problem (numpy answers with a minimum-norm
    solution and warns) have no counterpart over [Q]. *)
Inductive result (A : Type) : Type :=
| Ok (a : A)
| Raise (e : exn)
| Inexact.
Arguments Ok {A} a.
Arguments Raise {A} e.
Arguments Inexact {A}.

Definition result_bind {A B} (f : A → result B) (r : result A) : result B :=
  match r with
  | Ok a => f a
  | Raise e => Raise e
  | Inexact => Inexact
  end.

#[global] Instance result_mbind : MBind result := @result_bind.
#[global] Instance result_mret : MRet result := @Ok.

(** What is left of an outcome once the kind of failure is forgotten. *)
Definition returned {A} (r : result A) : option A :=
  match r with Ok a => Some a | _ => None end.

(** [a[i]] on a list: [IndexError] out of range (no negative index is used
    with it here). *)
Definition index {A} (e : exn) (a : list A) (i : nat) : result A :=
  match a !! i with Some x => Ok x | None => Raise e end.

(** ** numpy broadcasting of one-dimensional arrays *)

(** [broadcast2 f a b]: the element-wise binary operation of numpy on two
    one-dimensional arrays.  Shapes [(n,)] and [(n,)] combine element by
    element, a length-one array is stretched, anything else raises
    [ValueError: operands could not be broadcast together]. *)
Definition broadcast2 {A B C} (f : A → B → C) (a : list A) (b : list B)
  : result (list C) :=
  if decide (length a = length b) then Ok (zip_with f a b)
  else match a, b with
       | [x], _ => Ok (f x <$> b)
       | _, [y] => Ok ((λ x, f x y) <$> a)
       | _, _ => Raise ValueError
       end.

(** [np.where(cond, a, b)] on three one-dimensional arrays. *)
Definition np_where {A} (cond : list bool) (a b : list A) : result (list A) :=
  ca ← broadcast2 pair cond a;
  broadcast2 (λ (ca : bool * A) (y : A), if ca.1 then ca.2 else y) ca b.

(** [np.where(cond, s, b)] with a scalar [s] in second position. *)
Definition np_where_scalar {A} (cond : list bool) (s : A) (b : list A)
  : result (list A) :=
  broadcast2 (λ (c : bool) (y : A), if c then s else y) cond b.

Lemma broadcast2_same_length {A B C} (f : A → B → C) a b :
  length a = length b → broadcast2 f a b = Ok (zip_with f a b).
Proof. intros H. unfold broadcast2. by rewrite decide_True. Qed.

Lemma np_where_scalar_same_length {A} (cond : list bool) (s : A) b :
  length cond = length b →
  np_where_scalar cond s b =
    Ok (zip_with (λ (c : bool) (y : A), if c then s else y) cond b).
Proof. apply broadcast2_same_length. Qed.

Lemma np_where_same_length {A} (cond : list bool) (a b : list A) :
  length cond = length a → length a = length b →
  np_where cond a b =
    Ok (zip_with (λ (ca : bool * A) (y : A), if ca.1 then ca.2 else y)
          (zip cond a) b).
Proof.
  intros H1 H2. unfold np_where.
  rewrite (broadcast2_same_length pair) by done. cbn [mbind result_mbind result_bind].
  apply broadcast2_same_length. rewrite length_zip_with. lia.
Qed.

(** ** NIRCam photometry: [fluxes2mags] *)

Section Fluxes2Mags.

(** [Quantity.to(u.ABmag)] and [np.log10] are library functions on float64;
    nothing below depends on what they compute. *)
Variable to_ABmag : float → float.
Variable log10 : float → float.

(** [flux < 0] *)
Definition nondet (flux : float) : bool := PrimFloat.ltb flux 0%float.

(** [(fluxerr <= 0) + (fluxerr == np.inf)]; [+] on boolean arrays is [or]. *)
Definition unobs (fluxerr : float) : bool :=
  PrimFloat.leb fluxerr 0%float || PrimFloat.eqb fluxerr infinity.

(** [2.5 * np.log10(1 + fluxerr/flux)] *)
Definition magerr_formula (fluxerr flux : float) : float :=
  PrimFloat.mul 2.5%float
    (log10 (PrimFloat.add 1%float (PrimFloat.div fluxerr flux))).

Definition fluxes2mags (flux fluxerr : list float)
  : result (list float * list float) :=
  let nondet_ := nondet <$> flux in
  let unobs_ := unobs <$> fluxerr in
  let mag := to_ABmag <$> flux in
  let magupperlimit := to_ABmag <$> fluxerr in
  mag ← np_where_scalar nondet_ 99%float mag;
  mag ← np_where_scalar unobs_ (-99)%float mag;
  magerr ← broadcast2 magerr_formula fluxerr flux;
  magerr ← np_where nondet_ magupperlimit magerr;
  magerr ← np_where_scalar unobs_ 0%float magerr;
  Ok (mag, magerr).

(** What one element of the two outputs is, read off the three rules. *)
Definition mag_of (flux fluxerr : float) : float :=
  if unobs fluxerr then (-99)%float
  else if nondet flux then 99%float else to_ABmag flux.

Definition magerr_of (flux fluxerr : float) : float :=
  if unobs fluxerr then 0%float
  else if nondet flux then to_ABmag fluxerr
  else magerr_formula fluxerr flux.

Lemma fluxes2mags_zip flux fluxerr :
  length flux = length fluxerr →
  fluxes2mags flux fluxerr =
    Ok (zip_with mag_of flux fluxerr, zip_with magerr_of flux fluxerr).
Proof.
  intros Hlen. unfold fluxes2mags.
  rewrite np_where_scalar_same_length by by rewrite !length_fmap.
  cbn [mbind result_mbind result_bind].
  rewrite np_where_scalar_same_length
    by (rewrite length_zip_with, !length_fmap; lia).
  cbn [mbind result_mbind result_bind].
  rewrite (broadcast2_same_length magerr_formula) by done.
  cbn [mbind result_mbind result_bind].
  rewrite np_where_same_length
    by (rewrite ?length_zip_with, !length_fmap; lia).
  cbn [mbind result_mbind result_bind].
  rewrite np_where_scalar_same_length
    by (rewrite !length_zip_with, !length_fmap; lia).
  cbn [mbind result_mbind result_bind].
  f_equal. f_equal.
  - revert fluxerr Hlen.
    induction flux as [|f flux IH]; intros [|e fluxerr] Hlen;
      simplify_eq/=; [done|].
    unfold mag_of at 1. rewrite <- (IH fluxerr) by done.
    destruct (unobs e), (nondet f); reflexivity.
  - revert fluxerr Hlen.
    induction flux as [|f flux IH]; intros [|e fluxerr] Hlen;
      simplify_eq/=; [done|].
    unfold magerr_of at 1. rewrite <- (IH fluxerr) by done.
    destruct (unobs e), (nondet f); reflexivity.
Qed.

(** C10. [fluxes2mags], element by element, on two columns of equal
    length.  An element with [fluxerr <= 0] or [fluxerr == inf] (not
    observed) gets the magnitude -99 and the error 0, whatever its flux:
    this rule wins over the others.  An observed element with [flux < 0]
    (not detected) gets the magnitude 99 and, as error, [fluxerr] converted
    to ABmag.  Every other element gets the converted flux as magnitude and
    the error [2.5 * log10 (1 + fluxerr / flux)].  The comparisons and the
    arithmetic are those of float64; a NaN flux or error compares false and
    falls under the last rule. *)
Theorem fluxes2mags_rules (flux fluxerr : list float) :
  length flux = length fluxerr →
  ∃ mag magerr,
    fluxes2mags flux fluxerr = Ok (mag, magerr) ∧
    length mag = length flux ∧ length magerr = length flux ∧
    ∀ i f e, flux !! i = Some f → fluxerr !! i = Some e →
      (PrimFloat.leb e 0%float = true ∨ PrimFloat.eqb e infinity = true →
         mag !! i = Some (-99)%float ∧ magerr !! i = Some 0%float) ∧
      (PrimFloat.leb e 0%float = false → PrimFloat.eqb e infinity = false →
         (PrimFloat.ltb f 0%float = true →
            mag !! i = Some 99%float ∧ magerr !! i = Some (to_ABmag e)) ∧
         (PrimFloat.ltb f 0%float = false →
            mag !! i = Some (to_ABmag f) ∧
            magerr !! i =
              Some (PrimFloat.mul 2.5%float
                      (log10 (PrimFloat.add 1%float (PrimFloat.div e f)))))).
Proof.
  intros Hlen. eexists _, _. split; [by apply fluxes2mags_zip|].
  rewrite !length_zip_with. split; [lia|]. split; [lia|].
  intros i f e Hf He. rewrite !lookup_zip_with, Hf, He.
  cbn [mbind option_bind].
  unfold mag_of, magerr_of, unobs, nondet, magerr_formula.
  split.
  - intros [->| ->]; [done|]. by rewrite orb_true_r.
  - intros -> ->. cbn [orb]. split; intros ->; done.
Qed.

End Fluxes2Mags.

(** Stand-ins for the two library functions, used where a closed instance is
    evaluated: [m = -2.5 * x] is not the ABmag conversion, only a function
    of the right type. *)
Definition to_ABmag_stand_in (x : float) : float := PrimFloat.mul (-2.5)%float x.
Definition log10_stand_in (x : float) : float := PrimFloat.sub x 1%float.

(** Four sources: one detected, one not detected, one not observed, and one
    that is neither observed nor detected. *)
Definition catalog_flux : list float :=
  [3%float; (-1)%float; 2%float; (-4)%float].
Definition catalog_fluxerr : list float :=
  [0.5%float; 0.25%float; infinity; (-1)%float].

Lemma fluxes2mags_rules_witness :
  length catalog_flux = length catalog_fluxerr ∧
  ∃ mag magerr,
    fluxes2mags to_ABmag_stand_in log10_stand_in catalog_flux catalog_fluxerr
    = Ok (mag, magerr) ∧
    (mag !! 0 = Some (to_ABmag_stand_in 3%float) ∧
     magerr !! 0 =
       Some (PrimFloat.mul 2.5%float
               (log10_stand_in
                  (PrimFloat.add 1%float (PrimFloat.div 0.5%float 3%float))))) ∧
    (mag !! 1 = Some 99%float ∧
     magerr !! 1 = Some (to_ABmag_stand_in 0.25%float)) ∧
    (mag !! 2 = Some (-99)%float ∧ magerr !! 2 = Some 0%float) ∧
    (mag !! 3 = Some (-99)%float ∧ magerr !! 3 = Some 0%float).
Proof.
  split; [reflexivity|].
  destruct (fluxes2mags_rules to_ABmag_stand_in log10_stand_in
              catalog_flux catalog_fluxerr eq_refl)
    as (mag & magerr & Hrun & _ & _ & Hrules).
  exists mag, magerr. split; [exact Hrun|].
  split; [|split; [|split]].
  - exact (proj2 (proj2 (Hrules 0 _ _ eq_refl eq_refl) eq_refl eq_refl) eq_refl).
  - exact (proj1 (proj2 (Hrules 1 _ _ eq_refl eq_refl) eq_refl eq_refl) eq_refl).
  - exact (proj1 (Hrules 2 _ _ eq_refl eq_refl) (or_intror eq_refl)).
  - exact (proj1 (Hrules 3 _ _ eq_refl eq_refl) (or_introl eq_refl)).
Defined.

Example fluxes2mags_example :
  fluxes2mags to_ABmag_stand_in log10_stand_in
    [3%float; (-1)%float; 2%float] [0.5%float; 0.25%float; infinity]
  = Ok ([(-7.5)%float; 99%float; (-99)%float],
          [magerr_formula log10_stand_in 0.5%float 3%float;
           (-0.625)%float; 0%float]).
Proof. vm_compute. reflexivity. Qed.

(** ** Python slices and loops *)

(** A slice bound of Python, normalised against the length: a negative bound
    counts from the end, and the result is clamped to [0, len]. *)
Definition slice_index (len : nat) (i : Z) : nat :=
  if (i <? 0)%Z then Z.to_nat (Z.max 0 (i + Z.of_nat len))
  else Z.to_nat (Z.min i (Z.of_nat len)).

(** [l[start:stop]] for a list or a one-dimensional numpy array. *)
Definition py_slice {A} (start stop : Z) (l : list A) : list A :=
  let s := slice_index (length l) start in
  let e := slice_index (length l) stop in
  take (e - s) (drop s l).

(** [for x in xs: s = body(s, x)], where a raising body ends the loop. *)
Fixpoint for_loop {S X} (body : S → X → result S) (xs : list X) (s : S)
  : result S :=
  match xs with
  | [] => Ok s
  | x :: xs => s' ← body s x; for_loop body xs s'
  end.

Lemma for_loop_app {S X} (body : S → X → result S) xs ys s :
  for_loop body (xs ++ ys) s = for_loop body xs s ≫= for_loop body ys.
Proof.
  revert s. induction xs as [|x xs IH]; intros s; cbn; [done|].
  destruct (body s x); cbn; auto.
Qed.

(** ** Notebook 02: [read_hdf5] *)

(** An HDF5 dataset as the function touches it: its attributes and its rows
    ([dataset[i]] is row [i] of a two-dimensional dataset). *)
Record dataset := Dataset {
  attrs : gmap string string;
  rows : list (list float)
}.

(** The value stored under each key of the returned dictionary. *)
Record template_sed := TemplateSed {
  wavelengths : list float;
  fluxes : list float
}.

(** [str.lower] on ASCII letters; bytes of other characters are kept. *)
Definition ascii_lower (c : ascii) : ascii :=
  let n := nat_of_ascii c in
  if (65 <=? n) && (n <=? 90) then ascii_of_nat (n + 32) else c.

Fixpoint lower (s : string) : string :=
  match s with
  | EmptyString => EmptyString
  | String c s => String (ascii_lower c) (lower s)
  end.

(** [s[0:-1]] *)
Definition drop_last_char (s : string) : string :=
  string_of_list_ascii (py_slice 0 (-1) (list_ascii_of_string s)).

(** The unit string that one iteration computes:
[[
    try: wave_units_string = dataset.attrs['wavelength_units']
    except KeyError: wave_units_string = 'micron'
    if wave_units_string.lower() in ['microns', 'angstroms', 'nanometers']:
        wave_units_string = wave_units_string[0:-1]
]] *)
Definition wave_units_string (d : dataset) : string :=
  let s := match attrs d !! "wavelength_units"%string with
           | Some s => s
           | None => "micron"%string
           end in
  if bool_decide (lower s ∈ ["microns"; "angstroms"; "nanometers"]%string)
  then drop_last_char s else s.

Section ReadHdf5.

(** Python's [int] on a key of the file; on [None] it raises [ValueError]. *)
Variable int : string → option Z.

(** One iteration of [for key in file_obj.keys()].  The unit string is
    computed and then dropped, as in the source; indexing a missing row and
    [int(key)] are the steps that can raise. *)
Definition read_hdf5_body (contents : gmap Z template_sed)
    (item : string * dataset) : result (gmap Z template_sed) :=
  let '(key, dataset) := item in
  let _unit := wave_units_string dataset in
  waves ← index IndexError (rows dataset) 0;
  fluxes ← index IndexError (rows dataset) 1;
  k ← match int key with Some k => Ok k | None => Raise ValueError end;
  Ok (<[k := TemplateSed waves fluxes]> contents).

(** The file is the list of its members in the order [keys()] yields them. *)
Definition read_hdf5 (file_obj : list (string * dataset))
  : result (gmap Z template_sed) :=
  for_loop read_hdf5_body file_obj ∅.

End ReadHdf5.

Example drop_last_char_microns : drop_last_char "Microns" = "Micron"%string.
Proof. reflexivity. Qed.

Lemma slice_index_nonneg (len : nat) (i : Z) :
  (0 <= i)%Z → slice_index len i = Z.to_nat i `min` len.
Proof. unfold slice_index. intros. destruct (Z.ltb_spec i 0); lia. Qed.

Lemma slice_index_neg (len : nat) (i : Z) :
  (i < 0)%Z → slice_index len i = len - Z.to_nat (- i).
Proof. unfold slice_index. intros. destruct (Z.ltb_spec i 0); lia. Qed.

Lemma py_slice_drop_last {A} (l : list A) (x : A) :
  py_slice 0 (-1) (l ++ [x]) = l.
Proof.
  unfold py_slice.
  rewrite (slice_index_nonneg _ 0), (slice_index_neg _ (-1)) by lia.
  rewrite length_app. cbn [length].
  replace (Z.to_nat 0 `min` (length l + 1)) with 0 by lia.
  replace (length l + 1 - Z.to_nat (- -1) - 0) with (length l) by lia.
  by rewrite drop_0, take_app_length.
Qed.

Lemma drop_last_char_snoc (s : string) (c : ascii) :
  drop_last_char (s +:+ String c EmptyString) = s.
Proof.
  unfold drop_last_char.
  assert (H : list_ascii_of_string (s +:+ String c EmptyString)
              = list_ascii_of_string s ++ [c]).
  { induction s as [|a s IH]; [done|].
    change (list_ascii_of_string (String a s +:+ String c EmptyString))
      with (a :: list_ascii_of_string (s +:+ String c EmptyString)).
    by rewrite IH. }
  rewrite H, py_slice_drop_last. apply string_of_list_ascii_of_string.
Qed.

Lemma string_snoc_inv (s : string) :
  s ≠ EmptyString → ∃ s' c, s = (s' +:+ String c EmptyString)%string.
Proof.
  induction s as [|a s IH]; [done|]. intros _.
  destruct s as [|b s].
  - by exists EmptyString, a.
  - destruct IH as (s' & c & ->); [done|]. by exists (String a s'), c.
Qed.

(** *** Words up to the case of their letters *)

(** [c] is the capital of the lower-case letter [l]: in ASCII the capitals
    [A] to [Z] are 32 places below [a] to [z]. *)
Definition capital_of (c l : ascii) : Prop :=
  97 ≤ nat_of_ascii l ≤ 122 ∧ nat_of_ascii l = nat_of_ascii c + 32.

(** [s] spells the word [t] when the case of the letters is ignored: the two
    have the same length, and every character of [s] is the character of
    [t] at its place or the capital of it. *)
Definition spells (s t : string) : Prop :=
  Forall2 (λ c l, c = l ∨ capital_of c l)
          (list_ascii_of_string s) (list_ascii_of_string t).

(** No character of [t] is a capital letter. *)
Definition no_capital (t : string) : Prop :=
  Forall (λ l, ¬ 65 ≤ nat_of_ascii l ≤ 90) (list_ascii_of_string t).

Lemma ascii_lower_eq (c l : ascii) :
  ¬ 65 ≤ nat_of_ascii l ≤ 90 →
  ascii_lower c = l ↔ c = l ∨ capital_of c l.
Proof.
  intros Hl. unfold ascii_lower, capital_of.
  pose proof (nat_ascii_bounded c) as Hc.
  destruct ((65 <=? nat_of_ascii c) && (nat_of_ascii c <=? 90)) eqn:E.
  - apply andb_true_iff in E as [E1%Nat.leb_le E2%Nat.leb_le]. split.
    + intros <-. right. rewrite nat_ascii_embedding by lia. lia.
    + intros [->|[_ H]]; [lia|].
      rewrite <- H. apply ascii_nat_embedding.
  - apply andb_false_iff in E. split.
    + intros ->. by left.
    + intros [->|[H1 H2]]; [done|].
      destruct E as [E%Nat.leb_gt|E%Nat.leb_gt]; lia.
Qed.

(** [str.lower] against a word without capitals. *)
Lemma lower_spells (s t : string) :
  no_capital t → lower s = t ↔ spells s t.
Proof.
  unfold no_capital, spells. revert t.
  induction s as [|c s IH]; intros [|l t] Ht; cbn [lower list_ascii_of_string].
  - split; [constructor|done].
  - split; [done|]. intros H. inversion H.
  - split; [done|]. intros H. inversion H.
  - apply Forall_cons in Ht as [Hl Ht]. split.
    + intros [= Hc Hs]. constructor.
      * by apply ascii_lower_eq.
      * by apply IH.
    + intros H. apply Forall2_cons in H as [Hc Hs].
      f_equal; [by apply ascii_lower_eq | by apply IH].
Qed.

(** The three plurals that the function looks for. *)
Definition plural_units : list string :=
  ["microns"; "angstroms"; "nanometers"]%string.

Lemma plural_units_no_capital (t : string) :
  t ∈ plural_units → no_capital t.
Proof.
  unfold plural_units. intros Ht.
  repeat (apply elem_of_cons in Ht as [->|Ht];
          [unfold no_capital; cbn; repeat constructor;
           intros [H1 H2]; vm_compute in H2; lia|]).
  by apply elem_of_nil in Ht.
Qed.

Lemma wave_units_string_plural (d : dataset) (s : string) :
  attrs d !! "wavelength_units"%string = Some s →
  ((∃ t, t ∈ plural_units ∧ spells s t) →
     ∃ c, s = (wave_units_string d +:+ String c EmptyString)%string) ∧
  (¬ (∃ t, t ∈ plural_units ∧ spells s t) → wave_units_string d = s).
Proof.
  intros Hs. unfold wave_units_string. rewrite Hs.
  assert (Hiff : lower s ∈ plural_units ↔ ∃ t, t ∈ plural_units ∧ spells s t).
  { split.
    - intros Hin. exists (lower s). split; [done|].
      apply lower_spells; [|done]. by apply plural_units_no_capital.
    - intros (t & Ht & Hsp).
      assert (lower s = t) as ->; [|done].
      apply lower_spells; [|done]. by apply plural_units_no_capital. }
  fold plural_units. split.
  - intros H. apply Hiff in H. rewrite bool_decide_eq_true_2 by done.
    destruct (string_snoc_inv s) as (s' & c & ->).
    { intros ->. cbn in H. unfold plural_units in H.
      repeat (apply elem_of_cons in H as [H|H]; [discriminate|]).
      by apply elem_of_nil in H. }
    exists c. by rewrite drop_last_char_snoc.
  - intros H. rewrite bool_decide_eq_false_2; [done|]. by rewrite Hiff.
Qed.

Section ReadHdf5Facts.

Variable int : string → option Z.

(** What [read_hdf5] stores for a dataset. *)
Definition sed_of (d : dataset) : option template_sed :=
  waves ← rows d !! 0; fluxes ← rows d !! 1; Some (TemplateSed waves fluxes).

(** Every key converts with [int], every dataset has its two rows. *)
Definition readable (file_obj : list (string * dataset)) : Prop :=
  ∀ key d, (key, d) ∈ file_obj → is_Some (int key) ∧ 2 ≤ length (rows d).

(** Different members of the file have different integer identifiers. *)
Definition distinct_ids (file_obj : list (string * dataset)) : Prop :=
  ∀ i j key d key' d',
    file_obj !! i = Some (key, d) → file_obj !! j = Some (key', d') →
    int key = int key' → i = j.

Lemma sed_of_readable (d : dataset) :
  2 ≤ length (rows d) →
  ∃ w f, rows d !! 0 = Some w ∧ rows d !! 1 = Some f ∧
         sed_of d = Some (TemplateSed w f).
Proof.
  unfold sed_of. destruct (rows d) as [|w [|f r]]; cbn; intros; try lia.
  by exists w, f.
Qed.

Lemma read_hdf5_lookup (file_obj : list (string * dataset)) :
  readable file_obj → distinct_ids file_obj →
  ∃ contents, read_hdf5 int file_obj = Ok contents ∧
    ∀ z e, contents !! z = Some e ↔
      ∃ key d, (key, d) ∈ file_obj ∧ int key = Some z ∧ sed_of d = Some e.
Proof.
  unfold read_hdf5.
  induction file_obj as [|[k d] file_obj IH] using rev_ind; intros Hr Hd.
  - exists ∅. split; [done|]. intros z e. rewrite lookup_empty. split; [done|].
    intros (? & ? & H & _). by apply elem_of_nil in H.
  - destruct IH as (contents & Hrun & Hlook).
    { intros key d' Hin. apply Hr. apply elem_of_app. by left. }
    { intros i j key d0 key' d' Hi Hj Heq.
      apply (Hd i j key d0 key' d'); [by apply lookup_app_l_Some..|done]. }
    destruct (Hr k d) as [[z0 Hz0] Hrows].
    { apply elem_of_app. right. by apply list_elem_of_singleton. }
    destruct (sed_of_readable d Hrows) as (w & f & Hw & Hf & Hsed).
    exists (<[z0 := TemplateSed w f]> contents). split.
    { rewrite for_loop_app, Hrun. cbn. unfold index. rewrite Hw, Hf. cbn.
      by rewrite Hz0. }
    intros z e. destruct (decide (z0 = z)) as [->|Hne].
    + rewrite lookup_insert_eq. split.
      * intros [= <-]. exists k, d. split_and!; [|done..].
        apply elem_of_app. right. by apply list_elem_of_singleton.
      * intros (key & d' & Hin & Hkey & He).
        apply elem_of_app in Hin as [Hin|Hin].
        -- apply list_elem_of_lookup in Hin as [i Hi].
           pose proof (lookup_lt_Some _ _ _ Hi) as Hlt.
           assert (i = length file_obj); [|lia].
           apply (Hd i (length file_obj) key d' k d).
           ++ by apply lookup_app_l_Some.
           ++ by rewrite list_lookup_middle.
           ++ congruence.
        -- apply list_elem_of_singleton in Hin as [= -> ->]. congruence.
    + rewrite lookup_insert_ne by done. rewrite Hlook. split.
      * intros (key & d' & Hin & ?). exists key, d'. split; [|done].
        apply elem_of_app. by left.
      * intros (key & d' & Hin & Hkey & He).
        apply elem_of_app in Hin as [Hin|Hin]; [by exists key, d'|].
        apply list_elem_of_singleton in Hin as [= -> ->]. congruence.
Qed.

Lemma read_hdf5_body_rows (s : gmap Z template_sed) (key : string)
    (d d' : dataset) :
  rows d = rows d' →
  read_hdf5_body int s (key, d) = read_hdf5_body int s (key, d').
Proof. intros H. unfold read_hdf5_body. by rewrite H. Qed.

(** Only the keys and the rows of the datasets are read. *)
Lemma read_hdf5_rows (file_obj file_obj' : list (string * dataset)) :
  Forall2 (λ m m', m.1 = m'.1 ∧ rows m.2 = rows m'.2) file_obj file_obj' →
  read_hdf5 int file_obj = read_hdf5 int file_obj'.
Proof.
  unfold read_hdf5. generalize (∅ : gmap Z template_sed).
  intros s H. revert s.
  induction H as [|[k d] [k' d'] l l' [Hk Hd] _ IH]; intros s; [done|].
  cbn [fst snd] in Hk, Hd. subst k'. cbn [for_loop].
  rewrite (read_hdf5_body_rows s k d d' Hd).
  destruct (read_hdf5_body int s (k, d')); cbn; auto.
Qed.

(** C9, as the code has it.  On a file whose keys all convert with [int],
    no two of them to the same integer, and whose datasets all have rows 0
    and 1, [read_hdf5] returns a dictionary that holds under [int(key)],
    for every key of the file, exactly row 0 of the dataset of that key as
    wavelengths and row 1 as fluxes, and that holds nothing else.  The unit
    string of an iteration is ['micron'] when the attribute is absent; an
    attribute that spells ['microns'], ['angstroms'] or ['nanometers'], in
    whatever case of its letters, loses its last character, and every
    other attribute is kept as it is.  The attributes play no part in the
    outcome: a file with the same keys and the same rows gives the same
    dictionary, with or without unit attributes. *)
Theorem read_hdf5_contents (file_obj : list (string * dataset)) :
  readable file_obj → distinct_ids file_obj →
  ∃ contents, read_hdf5 int file_obj = Ok contents ∧
    (∀ key d, (key, d) ∈ file_obj →
       ∃ z w f, int key = Some z ∧
         rows d !! 0 = Some w ∧ rows d !! 1 = Some f ∧
         contents !! z = Some (TemplateSed w f)) ∧
    (∀ z, is_Some (contents !! z) →
       ∃ key d, (key, d) ∈ file_obj ∧ int key = Some z) ∧
    (∀ d, attrs d !! "wavelength_units"%string = None →
       wave_units_string d = "micron"%string) ∧
    (∀ d s, attrs d !! "wavelength_units"%string = Some s →
       (spells s "microns" ∨ spells s "angstroms" ∨ spells s "nanometers" →
          ∃ c, s = (wave_units_string d +:+ String c EmptyString)%string) ∧
       (¬ (spells s "microns" ∨ spells s "angstroms" ∨ spells s "nanometers") →
          wave_units_string d = s)) ∧
    (∀ file_obj',
       Forall2 (λ m m', m.1 = m'.1 ∧ rows m.2 = rows m'.2) file_obj file_obj' →
       read_hdf5 int file_obj' = Ok contents).
Proof.
  intros Hr Hd.
  destruct (read_hdf5_lookup file_obj Hr Hd) as (contents & Hrun & Hlook).
  exists contents. split_and!; [done|..].
  - intros key d Hin. destruct (Hr key d Hin) as [[z Hz] Hrows].
    destruct (sed_of_readable d Hrows) as (w & f & Hw & Hf & Hsed).
    exists z, w, f. split_and!; try done. apply Hlook. by exists key, d.
  - intros z [e He]. apply Hlook in He as (key & d & ? & ? & _). by exists key, d.
  - intros d Hnone. unfold wave_units_string. rewrite Hnone. reflexivity.
  - intros d s Hs.
    destruct (wave_units_string_plural d s Hs) as [H1 H2]. split.
    + intros H. apply H1. unfold plural_units.
      destruct H as [H|[H|H]]; eexists; (split; [|exact H]).
      * apply list_elem_of_here.
      * apply list_elem_of_further, list_elem_of_here.
      * do 2 apply list_elem_of_further. apply list_elem_of_here.
    + intros H. apply H2. intros (t & Ht & Hsp). apply H.
      unfold plural_units in Ht. set_unfold in Ht.
      destruct Ht as [->|[->|[->|[]]]]; auto.
  - intros file_obj' H. by rewrite <- (read_hdf5_rows file_obj file_obj' H).
Qed.

End ReadHdf5Facts.

(** [int] on the plain decimal strings, with an optional sign: the part of
    Python's conversion that the template files use. *)
Fixpoint int_digits (s : string) (acc : Z) : option Z :=
  match s with
  | EmptyString => Some acc
  | String c s =>
      let n := nat_of_ascii c in
      if (48 <=? n) && (n <=? 57)
      then int_digits s (10 * acc + Z.of_nat (n - 48))%Z
      else None
  end.

Definition int_decimal (s : string) : option Z :=
  match s with
  | EmptyString => None
  | String "-" EmptyString | String "+" EmptyString => None
  | String "-" s' => Z.opp <$> int_digits s' 0
  | String "+" s' => int_digits s' 0
  | _ => int_digits s 0
  end.

(** A file with two templates: one without the unit attribute, one with a
    plural unit and a third row that is never read. *)
Definition sed_file_example : list (string * dataset) :=
  [ ("10709"%string,
     Dataset ∅ [[1.5%float; 2.5%float]; [10%float; 20%float]]);
    ("7"%string,
     Dataset {[ "wavelength_units"%string := "Microns"%string ]}
       [[0.5%float]; [3%float]; [0%float]]) ].

Example read_hdf5_example :
  read_hdf5 int_decimal sed_file_example =
    Ok (<[7%Z := TemplateSed [0.5%float] [3%float]]>
            (<[10709%Z := TemplateSed [1.5%float; 2.5%float] [10%float; 20%float]]> ∅)).
Proof. reflexivity. Qed.

Example wave_units_string_example :
  wave_units_string <$> sed_file_example.*2 = ["micron"; "Micron"]%string.
Proof. reflexivity. Qed.

Lemma read_hdf5_contents_witness :
  readable int_decimal sed_file_example ∧
  distinct_ids int_decimal sed_file_example ∧
  ∃ contents, read_hdf5 int_decimal sed_file_example = Ok contents ∧
    (∀ key d, (key, d) ∈ sed_file_example →
      ∃ z w f, int_decimal key = Some z ∧
        rows d !! 0 = Some w ∧ rows d !! 1 = Some f ∧
        contents !! z = Some (TemplateSed w f)) ∧
    wave_units_string <$> sed_file_example.*2 = ["micron"; "Micron"]%string.
Proof.
  assert (Hr : readable int_decimal sed_file_example).
  { intros key d Hin. unfold sed_file_example in Hin.
    repeat (apply elem_of_cons in Hin as [[= -> ->]|Hin];
            [split; [by eexists | cbn; lia]|]).
    by apply elem_of_nil in Hin. }
  assert (Hd : distinct_ids int_decimal sed_file_example).
  { intros [|[|i]] [|[|j]] key d key' d' Hi Hj Heq; simplify_eq/=; done. }
  split; [exact Hr|]. split; [exact Hd|].
  destruct (read_hdf5_contents int_decimal sed_file_example Hr Hd)
    as (contents & Hrun & Hall & _).
  exists contents. split; [exact Hrun|]. split; [exact Hall|]. reflexivity.
Defined.

(** ** Exact arithmetic: sums, polynomials, least squares *)

Section LeastSquares.

Local Open Scope Q_scope.

(** [x < y] on rationals, as a boolean. *)
Definition Qltb (x y : Q) : bool := negb (Qle_bool y x).

(** [np.sum] of [f] over an array. *)
Fixpoint qsum {A} (f : A → Q) (l : list A) : Q :=
  match l with
  | [] => 0
  | a :: l => f a + qsum f l
  end.

Fixpoint qpow (x : Q) (j : nat) : Q :=
  match j with O => 1 | S j => x * qpow x j end.

Definition sq (x : Q) : Q := x * x.

(** A fitted model of degree [deg] is the list of its [deg + 1] coefficients,
    constant term first; [peval] is the call [model(x)]. *)
Fixpoint peval (p : list Q) (x : Q) : Q :=
  match p with
  | [] => 0
  | a :: p => a + x * peval p x
  end.

(** The monomial form of [peval], with the powers shifted by [k]. *)
Fixpoint peval_from (k : nat) (p : list Q) (x : Q) : Q :=
  match p with
  | [] => 0
  | a :: p => a * qpow x k + peval_from (S k) p x
  end.

(** Sum of squared residuals of the model [p] on the samples [pts]. *)
Definition sse (pts : list (Q * Q)) (p : list Q) : Q :=
  qsum (λ pt, sq (pt.2 - peval p pt.1)) pts.

(** [p] is an ordinary least-squares polynomial of degree [deg] for [pts]. *)
Definition is_ols (deg : nat) (pts : list (Q * Q)) (p : list Q) : Prop :=
  length p = S deg ∧ ∀ q, length q = S deg → sse pts p <= sse pts q.

(** The normal equations: the residuals are orthogonal to every monomial. *)
Definition moment (pts : list (Q * Q)) (p : list Q) (j : nat) : Q :=
  qsum (λ pt, qpow pt.1 j * (pt.2 - peval p pt.1)) pts.

Definition normal_equations (deg : nat) (pts : list (Q * Q)) (p : list Q)
  : Prop :=
  ∀ j, (j <= deg)%nat → moment pts p j == 0.

(** Pairwise different abscissae. *)
Fixpoint Qdistinct (xs : list Q) : Prop :=
  match xs with
  | [] => True
  | x :: xs => Forall (λ y, ¬ x == y) xs ∧ Qdistinct xs
  end.

Lemma Qltb_lt (x y : Q) : Qltb x y = true ↔ x < y.
Proof.
  unfold Qltb. rewrite negb_true_iff. split.
  - intros H. apply Qnot_le_lt. intros Hle.
    apply Qle_bool_iff in Hle. congruence.
  - intros H. destruct (Qle_bool y x) eqn:E; [|done].
    apply Qle_bool_iff in E. lra.
Qed.

Lemma qsum_ext {A} (f g : A → Q) (l : list A) :
  (∀ a, a ∈ l → f a == g a) → qsum f l == qsum g l.
Proof.
  induction l as [|a l IH]; intros H; cbn [qsum peval peval_from qpow]; [reflexivity|].
  rewrite (H a), IH; [reflexivity| |left].
  intros b Hb. apply H. by right.
Qed.

Lemma qsum_plus {A} (f g : A → Q) (l : list A) :
  qsum (λ a, f a + g a) l == qsum f l + qsum g l.
Proof. induction l as [|a l IH]; cbn [qsum peval peval_from qpow]; [lra|]. rewrite IH. ring. Qed.

Lemma qsum_scale {A} (c : Q) (f : A → Q) (l : list A) :
  qsum (λ a, c * f a) l == c * qsum f l.
Proof. induction l as [|a l IH]; cbn [qsum peval peval_from qpow]; [lra|]. rewrite IH. ring. Qed.

Lemma qsum_nonneg {A} (f : A → Q) (l : list A) :
  (∀ a, 0 <= f a) → 0 <= qsum f l.
Proof.
  intros H. induction l as [|a l IH]; cbn [qsum peval peval_from qpow]; [lra|]. specialize (H a). lra.
Qed.

Lemma qsum_nonneg_zero {A} (f : A → Q) (l : list A) :
  (∀ a, 0 <= f a) → qsum f l <= 0 → ∀ a, a ∈ l → f a == 0.
Proof.
  intros Hf. induction l as [|b l IH]; cbn [qsum peval peval_from qpow]; intros Hle a Ha.
  - by apply elem_of_nil in Ha.
  - pose proof (Hf b). pose proof (qsum_nonneg f l Hf).
    apply elem_of_cons in Ha as [->|Ha]; [lra|]. apply IH; [lra|done].
Qed.

Lemma qsum_app {A} (f : A → Q) (l1 l2 : list A) :
  qsum f (l1 ++ l2) == qsum f l1 + qsum f l2.
Proof.
  induction l1 as [|a l IH]; cbn [qsum app]; [lra|]. rewrite IH. ring.
Qed.

Lemma qsum_reverse {A} (f : A → Q) (l : list A) :
  qsum f (reverse l) == qsum f l.
Proof.
  induction l as [|a l IH]; [reflexivity|].
  rewrite reverse_cons, qsum_app, IH. cbn [qsum]. ring.
Qed.

Lemma qsum_Forall2 {A} (R : relation A) (f : A → Q) (l l' : list A) :
  (∀ a a', R a a' → f a == f a') → Forall2 R l l' → qsum f l == qsum f l'.
Proof.
  intros Hf H. induction H as [|a a' l l' Ha _ IH]; cbn [qsum]; [reflexivity|].
  by rewrite (Hf a a'), IH.
Qed.

Lemma qsum_fmap {A B} (g : A → B) (f : B → Q) (l : list A) :
  qsum f (g <$> l) = qsum (λ a, f (g a)) l.
Proof. induction l as [|a l IH]; cbn [qsum fmap list_fmap]; [done|]. by rewrite IH. Qed.

Lemma sq_nonneg (x : Q) : 0 <= sq x.
Proof. unfold sq. nra. Qed.

Lemma sq_zero (x : Q) : sq x == 0 → x == 0.
Proof. unfold sq. intros H. nra. Qed.

(** *** Polynomials *)

Global Instance peval_proper (p : list Q) : Proper (Qeq ==> Qeq) (peval p).
Proof.
  intros x y Hxy. induction p as [|a p IH]; cbn [qsum peval peval_from qpow]; [reflexivity|].
  by rewrite IH, Hxy.
Qed.

Lemma peval_zip_minus (p q : list Q) (x : Q) :
  length p = length q →
  peval (zip_with Qminus p q) x == peval p x - peval q x.
Proof.
  revert q. induction p as [|a p IH]; intros [|b q] Hlen; simplify_eq; cbn [peval zip_with]; [lra|].
  rewrite IH by done. ring.
Qed.

Lemma peval_zip_plus (p q : list Q) (x : Q) :
  length p = length q →
  peval (zip_with Qplus p q) x == peval p x + peval q x.
Proof.
  revert q. induction p as [|a p IH]; intros [|b q] Hlen; simplify_eq; cbn [peval zip_with]; [lra|].
  rewrite IH by done. ring.
Qed.

Lemma peval_zip_mid (p q : list Q) (x : Q) :
  length p = length q →
  peval (zip_with (λ a b, (a + b) / 2) p q) x == (peval p x + peval q x) / 2.
Proof.
  revert q. induction p as [|a p IH]; intros [|b q] Hlen; simplify_eq; cbn [peval zip_with].
  - field.
  - rewrite IH by done. field.
Qed.

Lemma peval_zero (n : nat) (x : Q) : peval (replicate n 0) x == 0.
Proof.
  induction n as [|n IH]; cbn [replicate peval]; [reflexivity|].
  rewrite IH. ring.
Qed.

Lemma peval_from_spec (k : nat) (p : list Q) (x : Q) :
  peval_from k p x == qpow x k * peval p x.
Proof.
  revert k. induction p as [|a p IH]; intros k; cbn [qsum peval peval_from qpow]; [ring|].
  rewrite IH. cbn [qpow]. ring.
Qed.

Lemma cross_moments {A} (xf w : A → Q) (l : list A) (d : list Q) (k : nat) :
  (∀ j, (j < length d)%nat → qsum (λ a, qpow (xf a) (k + j) * w a) l == 0) →
  qsum (λ a, peval_from k d (xf a) * w a) l == 0.
Proof.
  revert k. induction d as [|c d IH]; intros k H; cbn [qsum peval peval_from qpow].
  - rewrite (qsum_ext _ (λ _, 0 * 0)) by (intros; ring).
    rewrite qsum_scale. ring.
  - rewrite (qsum_ext _ (λ a, c * (qpow (xf a) k * w a)
                              + peval_from (S k) d (xf a) * w a))
      by (intros; ring).
    rewrite qsum_plus, qsum_scale, IH.
    + specialize (H 0%nat). rewrite Nat.add_0_r in H.
      rewrite H by (cbn; lia). ring.
    + intros j Hj. specialize (H (S j)).
      replace (S k + j)%nat with (k + S j)%nat by lia. apply H. cbn. lia.
Qed.

(** Division of [p] by [X - r]: [p = (X - r) * pdiv p r + p(r)]. *)
Fixpoint pdiv (p : list Q) (r : Q) : list Q :=
  match p with
  | [] => []
  | a :: p' =>
      match p' with
      | [] => []
      | _ => peval p' r :: pdiv p' r
      end
  end.

Lemma pdiv_spec (p : list Q) (r x : Q) :
  peval p x == (x - r) * peval (pdiv p r) x + peval p r.
Proof.
  induction p as [|a p IH]; cbn [pdiv peval]; [ring|].
  destruct p as [|b p]; [cbn [peval]; ring|].
  cbn [peval] in *. rewrite IH. ring.
Qed.

Lemma pdiv_length (p : list Q) (r : Q) :
  length (pdiv p r) = pred (length p).
Proof.
  induction p as [|a p IH]; cbn [pdiv length pred]; [done|].
  destruct p as [|b p]; [done|]. cbn [length pred] in *. by rewrite IH.
Qed.

(** A polynomial with more distinct zeros than coefficients vanishes. *)
Lemma poly_vanishing (xs : list Q) :
  ∀ p, Qdistinct xs → (length p <= length xs)%nat →
       (∀ x, x ∈ xs → peval p x == 0) → ∀ x, peval p x == 0.
Proof.
  induction xs as [|r xs IH]; intros p Hd Hlen Hz x.
  - destruct p; [reflexivity|cbn in Hlen; lia].
  - destruct Hd as [Hr Hd].
    assert (Hq : ∀ y, peval (pdiv p r) y == 0).
    { apply IH; [done| |].
      - rewrite pdiv_length. cbn [length] in Hlen. lia.
      - intros y Hy.
        assert (Hpy : peval p y == 0) by (apply Hz; by right).
        assert (Hpr : peval p r == 0) by (apply Hz; by left).
        rewrite (pdiv_spec p r y), Hpr in Hpy.
        assert (Hne : ¬ r == y).
        { rewrite Forall_forall in Hr. by apply Hr. }
        assert (Hprod : (y - r) * peval (pdiv p r) y == 0) by lra.
        apply Qmult_integral in Hprod as [H|H]; [|done].
        exfalso. apply Hne. lra. }
    rewrite (pdiv_spec p r x), Hq, (Hz r) by by left. ring.
Qed.

(** A solution of the normal equations is a least-squares polynomial. *)
Lemma normal_equations_ols (deg : nat) (pts : list (Q * Q)) (p : list Q) :
  length p = S deg → normal_equations deg pts p → is_ols deg pts p.
Proof.
  intros Hp Hn. split; [done|]. intros q Hq.
  set (d := zip_with Qminus p q).
  assert (Hd : length d = S deg).
  { unfold d. rewrite length_zip_with. lia. }
  assert (Hsplit : sse pts q ==
            sse pts p
            + 2 * qsum (λ pt, peval_from 0 d pt.1 * (pt.2 - peval p pt.1)) pts
            + qsum (λ pt, sq (peval d pt.1)) pts).
  { unfold sse. rewrite <- qsum_scale, <- !qsum_plus.
    apply qsum_ext. intros [x y] _. cbn [fst snd].
    unfold sq, d. rewrite peval_from_spec, !peval_zip_minus by lia.
    cbn [qpow]. ring. }
  rewrite (cross_moments fst (λ pt, pt.2 - peval p pt.1) pts d 0) in Hsplit.
  - pose proof (qsum_nonneg (λ pt, sq (peval d pt.1)) pts) as Hnn.
    assert (0 <= qsum (λ pt : Q * Q, sq (peval d pt.1)) pts)
      by (apply Hnn; intros; apply sq_nonneg).
    lra.
  - intros j Hj. cbn [Nat.add]. apply (Hn j). lia.
Qed.

(** Two least-squares polynomials take the same values at the samples. *)
Lemma ols_agree (deg : nat) (pts : list (Q * Q)) (p q : list Q) :
  is_ols deg pts p → is_ols deg pts q →
  ∀ pt, pt ∈ pts → peval p pt.1 == peval q pt.1.
Proof.
  intros [Hlp Hp] [Hlq Hq] pt Hpt.
  set (m := zip_with (λ a b, (a + b) / 2) p q).
  assert (Hm : length m = S deg).
  { unfold m. rewrite length_zip_with. lia. }
  set (D := λ pt : Q * Q, sq (peval p pt.1 - peval q pt.1)).
  assert (Hmid : sse pts m + (1 # 4) * qsum D pts ==
                 (1 # 2) * sse pts p + (1 # 2) * sse pts q).
  { unfold sse. rewrite <- !qsum_scale, <- !qsum_plus.
    apply qsum_ext. intros [x y] _. unfold m, D, sq. cbn [fst snd].
    rewrite !peval_zip_mid by lia. field. }
  specialize (Hp m Hm). specialize (Hq m Hm).
  assert (HD : qsum D pts <= 0) by lra.
  apply (qsum_nonneg_zero D pts) in Hpt; [| |done].
  - apply sq_zero in Hpt. lra.
  - intros. apply sq_nonneg.
Qed.

End LeastSquares.

(** ** Notebook 02: the peak of the correlation curve *)

Section PeakLocator.

Local Open Scope Q_scope.

(** [np.argmax]: the first index of the maximum; [ValueError] on an empty
    array. *)
Fixpoint argmax_from (best_i : nat) (best : Q) (i : nat) (a : list Q) : nat :=
  match a with
  | [] => best_i
  | x :: a =>
      if Qltb best x then argmax_from i x (S i) a
      else argmax_from best_i best (S i) a
  end.

Definition np_argmax (a : list Q) : result nat :=
  match a with
  | [] => Raise ValueError
  | x :: a => Ok (argmax_from 0 x 1 a)
  end.

(** Sums that the normal equations of a parabola are made of. *)
Definition power_sum (k : nat) (pts : list (Q * Q)) : Q :=
  qsum (λ pt, qpow pt.1 k) pts.

Definition mixed_sum (k : nat) (pts : list (Q * Q)) : Q :=
  qsum (λ pt, qpow pt.1 k * pt.2) pts.

Definition det3 (a11 a12 a13 a21 a22 a23 a31 a32 a33 : Q) : Q :=
  a11 * (a22 * a33 - a23 * a32)
  - a12 * (a21 * a33 - a23 * a31)
  + a13 * (a21 * a32 - a22 * a31).

(** Determinant of the normal equations in the unknowns [(a, b, c)] of
    [a x^2 + b x + c]; it is zero exactly when the samples have fewer than
    three different abscissae. *)
Definition normal_det (pts : list (Q * Q)) : Q :=
  let S := λ k, power_sum k pts in
  det3 (S 2%nat) (S 1%nat) (S 0%nat)
       (S 3%nat) (S 2%nat) (S 1%nat)
       (S 4%nat) (S 3%nat) (S 2%nat).

(** Cramer's rule for the three coefficients, highest degree first. *)
Definition parabola_coefficients (pts : list (Q * Q)) : Q * Q * Q :=
  let S := λ k, power_sum k pts in
  let T := λ k, mixed_sum k pts in
  let D := normal_det pts in
  (det3 (T 0%nat) (S 1%nat) (S 0%nat)
        (T 1%nat) (S 2%nat) (S 1%nat)
        (T 2%nat) (S 3%nat) (S 2%nat) / D,
   det3 (S 2%nat) (T 0%nat) (S 0%nat)
        (S 3%nat) (T 1%nat) (S 1%nat)
        (S 4%nat) (T 2%nat) (S 2%nat) / D,
   det3 (S 2%nat) (S 1%nat) (T 0%nat)
        (S 3%nat) (S 2%nat) (T 1%nat)
        (S 4%nat) (S 3%nat) (T 2%nat) / D).

(** [np.polyfit(x, y, deg=2)] in exact arithmetic: the coefficients
    [(a, b, c)] of the least-squares parabola.  numpy raises [TypeError] on
    an empty [x] and on arrays of different lengths; on a rank-deficient
    system it warns and returns a minimum-norm solution, which is outside
    the model. *)
Definition np_polyfit_deg2 (x y : list Q) : result (Q * Q * Q) :=
  match x with
  | [] => Raise TypeError
  | _ =>
      if decide (length x = length y) then
        let pts := zip x y in
        if Qeq_bool (normal_det pts) 0 then Inexact
        else Ok (parabola_coefficients pts)
      else Raise TypeError
  end.

(** A root of a quadratic with rational coefficients: the number
    [rat_part + root_part * sqrt D], [D] being the discriminant of the
    quadratic it belongs to (complex when [D < 0], as numpy has it). *)
Record surd := Surd { rat_part : Q; root_part : Q }.

Definition surd_plus (r s : surd) : surd :=
  Surd (rat_part r + rat_part s) (root_part r + root_part s).

Definition surd_scale (q : Q) (r : surd) : surd :=
  Surd (q * rat_part r) (q * root_part r).

Definition surd_mult (D : Q) (r s : surd) : surd :=
  Surd (rat_part r * rat_part s + root_part r * root_part s * D)
       (rat_part r * root_part s + root_part r * rat_part s).

Definition surd_div (r : surd) (q : Q) : surd :=
  Surd (rat_part r / q) (root_part r / q).

Definition surd_of_Q (q : Q) : surd := Surd q 0.

Definition surd_eq (r s : surd) : Prop :=
  rat_part r == rat_part s ∧ root_part r == root_part s.

Definition discriminant (p : Q * Q * Q) : Q :=
  let '(a, b, c) := p in b * b - 4 * a * c.

(** [a r^2 + b r + c], computed in [Q(sqrt D)]. *)
Definition quadratic_at (p : Q * Q * Q) (r : surd) : surd :=
  let '(a, b, c) := p in
  surd_plus (surd_plus (surd_scale a (surd_mult (discriminant p) r r))
                       (surd_scale b r))
            (surd_of_Q c).

(** [np.roots([a, b, c])]: leading zeros are stripped, so the array has two
    roots, one, or none. *)
Definition np_roots_deg2 (p : Q * Q * Q) : list surd :=
  let '(a, b, c) := p in
  if Qeq_bool a 0 then
    if Qeq_bool b 0 then [] else [Surd (- c / b) 0]
  else [Surd (- b / (2 * a)) (1 / (2 * a));
        Surd (- b / (2 * a)) (- (1 / (2 * a)))].

(** [np.mean]; of an empty array it is [nan], here [None]. *)
Definition np_mean (rs : list surd) : option surd :=
  match rs with
  | [] => None
  | _ => Some (surd_scale (1 / inject_Z (Z.of_nat (length rs)))
                 (foldr surd_plus (Surd 0 0) rs))
  end.

(** [const.c.to('km/s')] *)
Definition c_km_s : Q := 299792458 # 1000.

(** [a[index_peak-n:index_peak+n+1]] *)
Definition peak_slice {A} (n index_peak : nat) (a : list A) : list A :=
  py_slice (Z.of_nat index_peak - Z.of_nat n)
           (Z.of_nat index_peak + Z.of_nat n + 1) a.

(** The cell "Redshift based on maximum": [v] and [z]. *)
Definition redshift_from_maximum (corr lag : list Q) : result (Q * Q) :=
  index_peak ← np_argmax corr;
  v ← index IndexError lag index_peak;
  Ok (v, v / c_km_s).

(** The cell "Redshift based on parabolic fit to maximum": [v_fit] and [z],
    for [n] points to the left and right of the maximum. *)
Definition redshift_from_parabolic_fit (n : nat) (corr lag : list Q)
  : result (option surd * option surd) :=
  index_peak ← np_argmax corr;
  let peak_lags := peak_slice n index_peak lag in
  let peak_vals := peak_slice n index_peak corr in
  p ← np_polyfit_deg2 peak_lags peak_vals;
  let roots := np_roots_deg2 p in
  let v_fit := np_mean roots in
  Ok (v_fit, (λ v, surd_div v c_km_s) <$> v_fit).

(** [n = 8] in the notebook. *)
Definition n_default : nat := 8.

End PeakLocator.

Section PeakLocatorFacts.

Local Open Scope Q_scope.

Lemma Qeq_bool_false (x y : Q) : Qeq_bool x y = false ↔ ¬ x == y.
Proof.
  split.
  - intros H Heq. apply Qeq_bool_iff in Heq. congruence.
  - intros H. destruct (Qeq_bool x y) eqn:E; [|done].
    apply Qeq_bool_iff in E. contradiction.
Qed.

(** *** The window around the maximum *)




(** At the high end the stop bound is clamped: the window is cut at the last
    point of the grid. *)
Lemma peak_slice_high_edge {A} (n m : nat) (a : list A) :
  (n <= m)%nat → (length a <= m + n + 1)%nat →
  peak_slice n m a = drop (m - n) a.
Proof.
  intros Hn Hm. unfold peak_slice, py_slice.
  rewrite !slice_index_nonneg by lia.
  replace (Z.to_nat (Z.of_nat m - Z.of_nat n) `min` length a)%nat
    with ((m - n) `min` length a)%nat by lia.
  destruct (decide (m - n <= length a)%nat).
  - rewrite (Nat.min_l (m - n)) by lia. apply take_ge.
    rewrite length_drop. lia.
  - rewrite (Nat.min_r (m - n)) by lia. rewrite !drop_ge by lia.
    by rewrite take_nil.
Qed.

(** At the low end the start bound is negative, and Python counts it from
    the end of the array: on a grid of at least [2n+1] points the slice is
    empty, on a shorter one it is a run of points at the far end. *)
Lemma peak_slice_low_edge_empty {A} (n m : nat) (a : list A) :
  (m < n)%nat → (2 * n + 1 <= length a)%nat → peak_slice n m a = [].
Proof.
  intros Hm Hlen. unfold peak_slice, py_slice.
  rewrite (slice_index_neg _ (Z.of_nat m - Z.of_nat n)),
    (slice_index_nonneg _ (Z.of_nat m + Z.of_nat n + 1)) by lia.
  match goal with |- take ?k _ = _ => replace k with 0%nat by lia end.
  apply take_0.
Qed.

Lemma peak_slice_low_edge_wrap {A} (n m : nat) (a : list A) :
  (m < n)%nat → (n - m <= length a)%nat → (length a <= m + n + 1)%nat →
  peak_slice n m a = drop (length a - (n - m)) a.
Proof.
  intros Hm Hlo Hhi. unfold peak_slice, py_slice.
  rewrite (slice_index_neg _ (Z.of_nat m - Z.of_nat n)),
    (slice_index_nonneg _ (Z.of_nat m + Z.of_nat n + 1)) by lia.
  replace (Z.to_nat (- (Z.of_nat m - Z.of_nat n))) with (n - m)%nat by lia.
  apply take_ge. rewrite length_drop. lia.
Qed.

(** *** The least-squares parabola *)

Lemma cramer3 (s0 s1 s2 s3 s4 t0 t1 t2 : Q) :
  let D := det3 s2 s1 s0 s3 s2 s1 s4 s3 s2 in
  let a := det3 t0 s1 s0 t1 s2 s1 t2 s3 s2 / D in
  let b := det3 s2 t0 s0 s3 t1 s1 s4 t2 s2 / D in
  let c := det3 s2 s1 t0 s3 s2 t1 s4 s3 t2 / D in
  ¬ D == 0 →
  a * s2 + b * s1 + c * s0 == t0 ∧
  a * s3 + b * s2 + c * s1 == t1 ∧
  a * s4 + b * s3 + c * s2 == t2.
Proof.
  intros D a b c HD. unfold a, b, c, D in *. unfold det3 in *.
  repeat split; field; exact HD.
Qed.

Lemma moment_parabola (pts : list (Q * Q)) (a b c : Q) (j : nat) :
  moment pts [c; b; a] j ==
    mixed_sum j pts - (a * power_sum (2 + j) pts + b * power_sum (1 + j) pts
                       + c * power_sum j pts).
Proof.
  unfold moment, mixed_sum, power_sum.
  induction pts as [|[x y] pts IH]; cbn [qsum]; [ring|].
  rewrite IH. cbn [fst snd peval qpow Nat.add]. ring.
Qed.

Lemma parabola_coefficients_ols (pts : list (Q * Q)) :
  ¬ normal_det pts == 0 →
  let '(a, b, c) := parabola_coefficients pts in is_ols 2 pts [c; b; a].
Proof.
  intros HD.
  destruct (parabola_coefficients pts) as [[a b] c] eqn:E.
  apply normal_equations_ols; [done|].
  unfold parabola_coefficients in E. injection E as <- <- <-.
  destruct (cramer3 (power_sum 0 pts) (power_sum 1 pts) (power_sum 2 pts)
                    (power_sum 3 pts) (power_sum 4 pts)
                    (mixed_sum 0 pts) (mixed_sum 1 pts) (mixed_sum 2 pts) HD)
    as (E0 & E1 & E2).
  intros j Hj. rewrite moment_parabola.
  destruct j as [|[|[|j]]]; cbn [Nat.add]; [| | |lia].
  - fold (normal_det pts) in E0 |- *. lra.
  - fold (normal_det pts) in E1 |- *. lra.
  - fold (normal_det pts) in E2 |- *. lra.
Qed.

Lemma np_polyfit_deg2_ok (x y : list Q) :
  length x = length y → ¬ normal_det (zip x y) == 0 →
  np_polyfit_deg2 x y = Ok (parabola_coefficients (zip x y)).
Proof.
  intros Hlen HD. unfold np_polyfit_deg2.
  destruct x as [|x0 x].
  - exfalso. apply HD. reflexivity.
  - rewrite decide_True by done.
    apply Qeq_bool_false in HD. by rewrite HD.
Qed.

(** *** The roots and their mean *)

Lemma np_roots_deg2_two (a b c : Q) :
  ¬ a == 0 →
  let r1 := Surd (- b / (2 * a)) (1 / (2 * a)) in
  let r2 := Surd (- b / (2 * a)) (- (1 / (2 * a))) in
  np_roots_deg2 (a, b, c) = [r1; r2] ∧
  surd_eq (quadratic_at (a, b, c) r1) (surd_of_Q 0) ∧
  surd_eq (quadratic_at (a, b, c) r2) (surd_of_Q 0).
Proof.
  intros Ha. cbn zeta. split_and!.
  - unfold np_roots_deg2. apply Qeq_bool_false in Ha. by rewrite Ha.
  - unfold surd_eq, quadratic_at, discriminant, surd_plus, surd_scale,
      surd_mult, surd_of_Q. cbn [rat_part root_part]. split; field; done.
  - unfold surd_eq, quadratic_at, discriminant, surd_plus, surd_scale,
      surd_mult, surd_of_Q. cbn [rat_part root_part]. split; field; done.
Qed.

Lemma np_mean_two (r1 r2 : surd) :
  np_mean [r1; r2] = Some (surd_scale (1 / 2) (surd_plus r1 (surd_plus r2 (Surd 0 0)))).
Proof. reflexivity. Qed.

End PeakLocatorFacts.

(** Two curves on grids of 20 and 12 points, with the maximum at index
    3, fewer than [n_default] points away from the low end. *)
Definition lag20 : list Q :=
  inject_Z <$> [0; 1; 2; 3; 4; 5; 6; 7; 8; 9; 10; 11; 12; 13; 14; 15; 16; 17; 18; 19]%Z.

Definition corr20 : list Q :=
  inject_Z <$> [1; 5; 8; 9; 8; 5; 1; 0; 0; 0; 0; 0; 0; 0; 0; 0; 0; 0; 0; 0]%Z.

Definition lag12 : list Q :=
  inject_Z <$> [0; 1; 2; 3; 4; 5; 6; 7; 8; 9; 10; 11]%Z.

Definition corr12 : list Q :=
  inject_Z <$> [1; 5; 8; 9; 8; 5; 1; 0; 1; 0; 2; 0]%Z.

(** C2, the code at inputs whose maximum is within [n] points of the low
    end of the lag grid.  The start bound [index_peak - n] is negative and
    the slice counts it from the end of the array: on the 20-point grid the
    window is empty and [np.polyfit] raises [TypeError]; on the 12-point
    grid the window is the five points at the far end, none of them next to
    the maximum.  The window is not clipped to [0, index_peak + n]. *)
Theorem peak_window_wraps_at_low_edge :
  (np_argmax corr20 = Ok 3%nat ∧
   peak_slice n_default 3 lag20 = [] ∧
   redshift_from_parabolic_fit n_default corr20 lag20 = Raise TypeError) ∧
  (np_argmax corr12 = Ok 3%nat ∧
   peak_slice n_default 3 lag12 = inject_Z <$> [7; 8; 9; 10; 11]%Z ∧
   peak_slice n_default 3 corr12 = inject_Z <$> [0; 1; 0; 2; 0]%Z ∧
   lag12 !! 3%nat ∉ (Some <$> peak_slice n_default 3 lag12)).
Proof.
  split_and!; try reflexivity.
  intros H. vm_compute in H.
  repeat (apply elem_of_cons in H as [H|H]; [discriminate H|]).
  by apply elem_of_nil in H.
Qed.

(** ** The order of float64 numbers *)

Section FloatOrder.












End FloatOrder.

(** ** Notebook 02: the two peak cells on float64 arrays

    The cells "Redshift based on maximum" and "Redshift based on parabolic
    fit to maximum" once more, now on the arrays as they are at run time.
    [np.argmax], the slices and the divisions by the speed of light are
    carried out on float64 numbers.  [np.polyfit], [np.roots] and [np.mean]
    are numpy's: what they compute in float64 is not described here, they
    are variables of the section.
[[
    index_peak = np.argmax(corr)
    v = lag[index_peak]
    z = v / const.c.to('km/s')

    n = 8 # points to the left or right of correlation maximum
    peak_lags = lag[index_peak-n:index_peak+n+1].value
    peak_vals = corr[index_peak-n:index_peak+n+1].value
    p = np.polyfit(peak_lags, peak_vals, deg=2)
    roots = np.roots(p)
    v_fit = np.mean(roots) * u.km/u.s
    z = v_fit / const.c.to('km/s')
]] *)

Module Float64.

(** [np.argmax] on a float64 array: the first index of the maximum, a NaN
    counting as larger than every number; [ValueError] on an empty array.
    The loop keeps the running maximum [mp] and its index, replaces them at
    every element for which [x <= mp] is false, and stops at a NaN. *)
Fixpoint argmax_from (max_ind : nat) (mp : float) (i : nat) (a : list float)
  : nat :=
  match a with
  | [] => max_ind
  | x :: a =>
      if PrimFloat.is_nan mp then max_ind
      else if PrimFloat.leb x mp then argmax_from max_ind mp (S i) a
      else argmax_from i x (S i) a
  end.

Definition np_argmax (a : list float) : result nat :=
  match a with
  | [] => Raise ValueError
  | x :: a => Ok (argmax_from 0 x 1 a)
  end.

(** [const.c.to('km/s').value], 299792.458 as the binary64 number that it
    is. *)
Definition c_km_s : float := 0x1.24c41d4fdf3b6p+18%float.

Section PeakCells.

(** The functions of numpy that compute on the window.  [np.polyfit(x, y,
    deg)] answers the coefficients, highest degree first.  [np.roots(p)]
    answers an array of float64 or, when some root is not real, of
    complex128 numbers, and [np.mean] a scalar of the same kind. *)
Variable complex128 : Type.
Variable ndarray : Type.
Variable np_polyfit : list float → list float → nat → result (list float).
Variable np_roots : list float → result ndarray.

(** A numpy scalar, and the value of a [Quantity] made of one. *)
Inductive scalar :=
| Real (x : float)
| Complex (z : complex128).

Variable np_mean : ndarray → scalar.

(** Division of a complex128 number by a float64 number. *)
Variable complex_div : complex128 → float → complex128.

(** [q / const.c.to('km/s')] for a quantity [q] in km/s: the division of the
    two values. *)
Definition quantity_div (v : scalar) (c : float) : scalar :=
  match v with
  | Real x => Real (PrimFloat.div x c)
  | Complex z => Complex (complex_div z c)
  end.

(** The cell "Redshift based on maximum": [v] and [z]. *)
Definition redshift_from_maximum (corr lag : list float)
  : result (float * float) :=
  index_peak ← np_argmax corr;
  v ← index IndexError lag index_peak;
  Ok (v, PrimFloat.div v c_km_s).

(** The cell "Redshift based on parabolic fit to maximum": [v_fit] and [z],
    for [n] points to the left and right of the maximum. *)
Definition redshift_from_parabolic_fit (n : nat) (corr lag : list float)
  : result (scalar * scalar) :=
  index_peak ← np_argmax corr;
  let peak_lags := peak_slice n index_peak lag in
  let peak_vals := peak_slice n index_peak corr in
  p ← np_polyfit peak_lags peak_vals 2;
  roots ← np_roots p;
  let v_fit := np_mean roots in
  Ok (v_fit, quantity_div v_fit c_km_s).

(** *** The discrete maximum *)





End PeakCells.

Arguments Real {complex128} x.
Arguments Complex {complex128} z.

End Float64.

(** A correlation curve on a grid of 17 lags, with its maximum in the
    middle. *)
Definition lag17 : list float :=
  [0; 1; 2; 3; 4; 5; 6; 7; 8; 9; 10; 11; 12; 13; 14; 15; 16]%float.

Definition corr17 : list float :=
  [0; 1; 2; 3; 5; 8; 12; 17; 20; 17; 12; 8; 5; 3; 2; 1; 0]%float.




(** The redshift of the discrete maximum of that curve, [8 / 299792.458]
    in float64. *)
Example redshift_from_maximum_example :
  Float64.redshift_from_maximum corr17 lag17 =
    Ok (8%float, 0x1.bfb3c01a316p-16%float).
Proof. reflexivity. Qed.


(** ** Continuum estimation and subtraction (notebooks 02 and 03) *)

Section Continuum.

Local Open Scope Q_scope.

(** [(wave > lo) & (wave < hi)] *)
Definition in_bound (b : Q * Q) (w : Q) : bool := Qltb b.1 w && Qltb w b.2.

(** The [|] of the bounds, as in
    [((wave > 1.75) & (wave < 1.97)) | ((wave > 2.08) & (wave < 2.23))]. *)
Definition in_any_bound (bounds : list (Q * Q)) (w : Q) : bool :=
  existsb (λ b, in_bound b w) bounds.

(** The elements of [a] at the positions where [mask] holds. *)
Fixpoint select {A} (mask : list bool) (a : list A) : list A :=
  match mask, a with
  | b :: mask, x :: a => if b then x :: select mask a else select mask a
  | _, _ => []
  end.

(** [a[mask]] with a boolean array: [IndexError] unless the lengths agree. *)
Definition bool_index {A} (a : list A) (mask : list bool) : result (list A) :=
  if decide (length a = length mask) then Ok (select mask a)
  else Raise IndexError.

(** [continuum.fit_generic_continuum(Spectrum(spectral_axis=x, flux=y),
    model=Chebyshev1D(deg), exclude_regions=regions)] of specutils: from
    the degree, the excluded regions and the two arrays of the spectrum to
    the fitted model, or to the exception raised on the way. *)
Variable fit_generic_continuum :
  nat → list (Q * Q) → list Q → list Q → result (list Q).

(** The Continuum Estimator:
[[
    mask = ((wave > lo1) & (wave < hi1)) | ((wave > lo2) & (wave < hi2))
    obs = Spectrum(spectral_axis=wave[mask]*u.um, flux=flux[mask]*spec_unit)
    cont = continuum.fit_generic_continuum(obs, model=Chebyshev1D(deg))
]] *)
Definition continuum_estimator (bounds : list (Q * Q)) (deg : nat)
    (wave flux : list Q) : result (list Q) :=
  let mask := in_any_bound bounds <$> wave in
  x ← bool_index wave mask;
  y ← bool_index flux mask;
  fit_generic_continuum deg [] x y.

(** The Line-Residual Builder: [flux - cont(wave)]. *)
Definition line_residual (cont : list Q) (wave flux : list Q)
  : result (list Q) :=
  broadcast2 Qminus flux (peval cont <$> wave).

(** The three masks of notebook 02 ([continuum_200], [continuum_150],
    [continuum_115]) and the two of notebook 03. *)
Definition bounds_200 : list (Q * Q) := [(175 # 100, 197 # 100); (208 # 100, 223 # 100)].
Definition bounds_150 : list (Q * Q) := [(135 # 100, 148 # 100); (16 # 10, 165 # 100)].
Definition bounds_115 : list (Q * Q) := [(105 # 100, 113 # 100); (117 # 100, 125 # 100)].

Definition continuum_200 := continuum_estimator bounds_200 7.
Definition continuum_150 := continuum_estimator bounds_150 7.
Definition continuum_115 := continuum_estimator bounds_115 7.

(** The samples that lie in some bound, in their order. *)
Definition selected (bounds : list (Q * Q)) (wave flux : list Q)
  : list (Q * Q) :=
  List.filter (λ pt, in_any_bound bounds pt.1) (zip wave flux).

Lemma in_any_bound_spec (bounds : list (Q * Q)) (w : Q) :
  in_any_bound bounds w = true ↔ ∃ b, b ∈ bounds ∧ b.1 < w ∧ w < b.2.
Proof.
  unfold in_any_bound. rewrite existsb_exists. split.
  - intros (b & Hb & Hin). exists b. apply list_elem_of_In in Hb.
    unfold in_bound in Hin. apply andb_true_iff in Hin as [H1 H2].
    by rewrite !Qltb_lt in *.
  - intros (b & Hb & H1 & H2). exists b. apply list_elem_of_In in Hb.
    split; [done|]. unfold in_bound. apply andb_true_iff.
    by rewrite !Qltb_lt.
Qed.

Lemma select_zip_fst {A B} (p : A → bool) (la : list A) (lb : list B) :
  length la = length lb →
  select (p <$> la) la = (List.filter (λ pt, p pt.1) (zip la lb)).*1.
Proof.
  revert lb. induction la as [|a la IH]; intros [|b lb] Hlen;
    simplify_eq/=; [done|].
  destruct (p a); cbn; by rewrite (IH lb).
Qed.

Lemma select_zip_snd {A B} (p : A → bool) (la : list A) (lb : list B) :
  length la = length lb →
  select (p <$> la) lb = (List.filter (λ pt, p pt.1) (zip la lb)).*2.
Proof.
  revert lb. induction la as [|a la IH]; intros [|b lb] Hlen;
    simplify_eq/=; [done|].
  destruct (p a); cbn; by rewrite (IH lb).
Qed.

Lemma select_fst (bounds : list (Q * Q)) (wave flux : list Q) :
  length wave = length flux →
  select (in_any_bound bounds <$> wave) wave = (selected bounds wave flux).*1.
Proof. apply select_zip_fst. Qed.

Lemma select_snd (bounds : list (Q * Q)) (wave flux : list Q) :
  length wave = length flux →
  select (in_any_bound bounds <$> wave) flux = (selected bounds wave flux).*2.
Proof. apply select_zip_snd. Qed.

Lemma continuum_estimator_selected (bounds : list (Q * Q)) (deg : nat)
    (wave flux : list Q) :
  length wave = length flux →
  continuum_estimator bounds deg wave flux =
    fit_generic_continuum deg []
      (selected bounds wave flux).*1 (selected bounds wave flux).*2.
Proof.
  intros Hlen. unfold continuum_estimator, bool_index.
  rewrite !decide_True by (rewrite length_fmap; lia).
  cbn [mbind result_mbind result_bind].
  by rewrite (select_fst bounds wave flux), select_snd.
Qed.

Lemma mask_ignores_empty_bound (b : Q * Q) (bounds : list (Q * Q))
    (wave : list Q) :
  (∀ w, w ∈ wave → ¬ (b.1 < w ∧ w < b.2)) →
  in_any_bound (b :: bounds) <$> wave = in_any_bound bounds <$> wave.
Proof.
  intros H. apply list_fmap_ext. intros i w Hw.
  apply list_elem_of_lookup_2 in Hw. cbn [in_any_bound existsb].
  destruct (in_bound b w) eqn:E; [|done].
  exfalso. apply (H w Hw). unfold in_bound in E.
  apply andb_true_iff in E as [H1 H2]. by rewrite !Qltb_lt in *.
Qed.

(** C7. The Continuum Estimator hands to the fit exactly the samples whose
    wavelength lies strictly inside one of the bounds, in their order, and
    its result is the result of the fit on that subset: when the fit is the
    ordinary least-squares polynomial fit of degree [deg], so is the
    estimate.  A bound that contains no wavelength of the spectrum changes
    neither the mask nor the result. *)
Theorem continuum_estimator_fits_selected (bounds : list (Q * Q)) (deg : nat)
    (wave flux : list Q) :
  length wave = length flux →
  let sel := selected bounds wave flux in
  (∀ w f, (w, f) ∈ sel ↔
          (w, f) ∈ zip wave flux ∧ ∃ b, b ∈ bounds ∧ b.1 < w ∧ w < b.2) ∧
  bool_index wave (in_any_bound bounds <$> wave) = Ok sel.*1 ∧
  bool_index flux (in_any_bound bounds <$> wave) = Ok sel.*2 ∧
  continuum_estimator bounds deg wave flux =
    fit_generic_continuum deg [] sel.*1 sel.*2 ∧
  (∀ cont,
     (∀ p, fit_generic_continuum deg [] sel.*1 sel.*2 = Ok p →
           is_ols deg sel p) →
     continuum_estimator bounds deg wave flux = Ok cont →
     is_ols deg sel cont) ∧
  (∀ b, (∀ w, w ∈ wave → ¬ (b.1 < w ∧ w < b.2)) →
        selected (b :: bounds) wave flux = sel ∧
        continuum_estimator (b :: bounds) deg wave flux =
          continuum_estimator bounds deg wave flux).
Proof.
  intros Hlen sel. split_and!.
  - intros w f. unfold sel, selected.
    rewrite list_elem_of_In, filter_In, <- list_elem_of_In.
    cbn [fst]. by rewrite in_any_bound_spec.
  - unfold bool_index. rewrite decide_True by (by rewrite length_fmap).
    by rewrite (select_fst bounds wave flux).
  - unfold bool_index. rewrite decide_True by (rewrite length_fmap; lia).
    by rewrite select_snd.
  - by apply continuum_estimator_selected.
  - intros cont Hfit Hrun. apply Hfit. unfold sel.
    by rewrite <- continuum_estimator_selected.
  - intros b Hb.
    pose proof (mask_ignores_empty_bound b bounds wave Hb) as Hmask.
    split.
    + unfold sel, selected. clear Hmask sel. revert flux Hlen.
      induction wave as [|w wave IH]; intros [|f flux] Hlen;
        simplify_eq/=; [done|].
      assert (Hw : in_bound b w = false).
      { destruct (in_bound b w) eqn:E; [|done]. exfalso.
        apply (Hb w); [by left|]. unfold in_bound in E.
        apply andb_true_iff in E as [H1 H2]. by rewrite !Qltb_lt in *. }
      rewrite Hw. cbn [orb].
      rewrite IH; [done| |done]. intros w' Hw'. apply Hb. by right.
    + unfold continuum_estimator. by rewrite Hmask.
Qed.

End Continuum.

(** ** A reference least-squares fit

    Modelled from the spec: the continuum fit of specutils is not part of the
    repository; the spec describes it as an ordinary least-squares
    polynomial fit of the given degree that fails with
    [InsufficientDataError] when the samples do not determine the
    polynomial.  The reference fit below solves the normal equations by
    Gaussian elimination over [Q]; it serves as the closed instance of the
    library function. *)

Section ReferenceFit.

Local Open Scope Q_scope.

Fixpoint dot (u v : list Q) : Q :=
  match u, v with
  | a :: u, b :: v => a * b + dot u v
  | _, _ => 0
  end.

(** A linear equation: coefficients and right-hand side. *)
Definition equation : Type := list Q * Q.

(** The first equation whose leading coefficient is not zero, and the
    others. *)
Fixpoint find_pivot (rows : list equation) : option (equation * list equation) :=
  match rows with
  | [] => None
  | r :: rows =>
      match r.1 with
      | [] => None
      | a :: _ =>
          if Qeq_bool a 0 then
            match find_pivot rows with
            | Some (piv, rest) => Some (piv, r :: rest)
            | None => None
            end
          else Some (r, rows)
      end
  end.

(** [r] minus the multiple of [piv] that cancels its leading coefficient,
    with that coefficient dropped.  [Qred] keeps the fractions in lowest
    terms; it does not change their value. *)
Definition eliminate (piv r : equation) : equation :=
  match piv.1, r.1 with
  | a :: ps, b :: rs =>
      (zip_with (λ x y, Qred (x - b / a * y)) rs ps,
       Qred (r.2 - b / a * piv.2))
  | _, _ => r
  end.

(** Solution of [n] equations in [n] unknowns; [None] when singular. *)
Fixpoint solve (n : nat) (rows : list equation) : option (list Q) :=
  match n with
  | O => Some []
  | S n =>
      match find_pivot rows with
      | None => None
      | Some (piv, rest) =>
          match solve n (eliminate piv <$> rest) with
          | None => None
          | Some xs =>
              match piv.1 with
              | a :: ps => Some (Qred ((piv.2 - dot ps xs) / a) :: xs)
              | [] => None
              end
          end
      end
  end.

(** The normal equations of the polynomial fit, constant term first. *)
Definition normal_rows (deg : nat) (pts : list (Q * Q)) : list equation :=
  (λ j, ((λ k, Qred (power_sum (j + k) pts)) <$> seq 0 (S deg),
         Qred (mixed_sum j pts)))
    <$> seq 0 (S deg).

Definition lstsq_poly (deg : nat) (pts : list (Q * Q)) : option (list Q) :=
  solve (S deg) (normal_rows deg pts).

(** The reference for [fit_generic_continuum]: samples inside an excluded
    region are left out of the fit. *)
Definition lstsq_fit (deg : nat) (exclude : list (Q * Q)) (x y : list Q)
  : result (list Q) :=
  if decide (length x = length y) then
    let pts := List.filter (λ pt, negb (in_any_bound exclude pt.1)) (zip x y) in
    match lstsq_poly deg pts with
    | Some p => Ok p
    | None => Raise InsufficientDataError
    end
  else Raise ValueError.

Lemma dot_eliminate (f : Q) (rs ps xs : list Q) :
  length rs = length xs → length ps = length xs →
  dot (zip_with (λ x y, Qred (x - f * y)) rs ps) xs
    == dot rs xs - f * dot ps xs.
Proof.
  revert rs ps. induction xs as [|x xs IH]; intros [|r rs] [|p ps] Hr Hp;
    simplify_eq; cbn [dot zip_with]; try ring.
  rewrite IH, Qred_correct by (cbn in *; lia). ring.
Qed.

Lemma dot_Qred (f : nat → Q) (ks : list nat) (p : list Q) :
  dot ((λ k, Qred (f k)) <$> ks) p == dot (f <$> ks) p.
Proof.
  revert p. induction ks as [|k ks IH]; intros [|a p];
    cbn [fmap list_fmap dot]; try reflexivity.
  unfold fmap in IH. by rewrite IH, Qred_correct.
Qed.

Lemma find_pivot_spec (rows : list equation) (piv : equation)
    (rest : list equation) :
  find_pivot rows = Some (piv, rest) →
  (∃ a ps, piv.1 = a :: ps ∧ ¬ a == 0) ∧
  length rows = S (length rest) ∧
  (∀ r, r ∈ rows → r = piv ∨ r ∈ rest).
Proof.
  revert piv rest. induction rows as [|r rows IH]; intros piv rest H;
    cbn [find_pivot] in H; [done|].
  destruct (r.1) as [|a ps] eqn:Er; [done|].
  destruct (Qeq_bool a 0) eqn:Ea.
  - destruct (find_pivot rows) as [[piv' rest']|] eqn:Ef; [|done].
    injection H as <- <-. destruct (IH _ _ eq_refl) as (Hp & Hl & Hin).
    split_and!; [done|cbn; lia|].
    intros r' Hr'. apply elem_of_cons in Hr' as [->|Hr'].
    + right. by left.
    + destruct (Hin r' Hr'); [by left|]. right. by right.
  - injection H as <- <-. split_and!; [|done|].
    + exists a, ps. split; [done|]. by apply Qeq_bool_false.
    + intros r' Hr'. apply elem_of_cons in Hr' as [->|Hr']; [by left|by right].
Qed.

Lemma solve_sound (n : nat) :
  ∀ rows xs, solve n rows = Some xs →
    length rows = n → (∀ r, r ∈ rows → length r.1 = n) →
    length xs = n ∧ ∀ r, r ∈ rows → dot r.1 xs == r.2.
Proof.
  induction n as [|n IH]; intros rows xs H Hlen Hwf; cbn [solve] in H.
  - injection H as <-. split; [done|]. intros r Hr.
    destruct rows; [by apply elem_of_nil in Hr|done].
  - destruct (find_pivot rows) as [[piv rest]|] eqn:Ef; [|done].
    destruct (find_pivot_spec _ _ _ Ef) as ((a & ps & Hpiv & Ha) & Hl & Hin).
    destruct (solve n (eliminate piv <$> rest)) as [ys|] eqn:Es; [|done].
    rewrite Hpiv in H. injection H as <-.
    assert (Hpin : piv ∈ rows).
    { clear -Ef. revert piv rest Ef.
      induction rows as [|r rows IHr]; intros piv rest Ef;
        cbn [find_pivot] in Ef; [done|].
      destruct (r.1) as [|a ps]; [done|]. destruct (Qeq_bool a 0).
      - destruct (find_pivot rows) as [[p' r']|] eqn:E; [|done].
        injection Ef as <- <-. right. by eapply IHr.
      - injection Ef as <- <-. by left. }
    assert (Hrest : ∀ r, r ∈ rest → r ∈ rows).
    { clear -Ef. revert piv rest Ef.
      induction rows as [|r rows IHr]; intros piv rest Ef;
        cbn [find_pivot] in Ef; [done|].
      destruct (r.1) as [|a ps]; [done|]. destruct (Qeq_bool a 0).
      - destruct (find_pivot rows) as [[p' r']|] eqn:E; [|done].
        injection Ef as <- <-. intros r0 Hr0.
        apply elem_of_cons in Hr0 as [->|Hr0]; [by left|].
        right. by eapply IHr.
      - injection Ef as <- <-. intros r0 Hr0. by right. }
    pose proof (Hwf piv Hpin) as Hplen. rewrite Hpiv in Hplen.
    cbn [length] in Hplen.
    destruct (IH _ _ Es) as [Hys Hsol].
    { rewrite length_fmap. lia. }
    { intros r Hr. apply list_elem_of_fmap in Hr as (r0 & -> & Hr0).
      pose proof (Hwf r0 (Hrest r0 Hr0)) as Hr0len.
      unfold eliminate. rewrite Hpiv.
      destruct (r0.1) as [|b rs] eqn:Eb; [done|]. cbn [fst length] in *.
      rewrite length_zip_with. lia. }
    split; [cbn; lia|].
    assert (Hpsol : dot (a :: ps) (Qred ((piv.2 - dot ps ys) / a) :: ys)
                    == piv.2).
    { cbn [dot]. rewrite Qred_correct. field. exact Ha. }
    intros r Hr. destruct (Hin r Hr) as [Heq|Hr0].
    + rewrite Heq, Hpiv. exact Hpsol.
    + pose proof (Hwf r Hr) as Hrlen.
      destruct (r.1) as [|b rs] eqn:Eb; [done|]. cbn [length] in *.
      assert (Hel : dot (zip_with (λ x y, Qred (x - b / a * y)) rs ps) ys
                    == r.2 - b / a * piv.2).
      { rewrite <- (Qred_correct (r.2 - b / a * piv.2)).
        assert (Hmem : (zip_with (λ x y, Qred (x - b / a * y)) rs ps,
                        Qred (r.2 - b / a * piv.2)) ∈ eliminate piv <$> rest).
        { apply list_elem_of_fmap. exists r. split; [|done].
          unfold eliminate. by rewrite Hpiv, Eb. }
        exact (Hsol _ Hmem). }
      rewrite dot_eliminate in Hel by lia.
      cbn [dot] in Hpsol |- *. rewrite Qred_correct in Hpsol |- *.
      assert (Hx : a * ((piv.2 - dot ps ys) / a) == piv.2 - dot ps ys)
        by (field; exact Ha).
      assert (Hb : b * ((piv.2 - dot ps ys) / a)
                   == b / a * (piv.2 - dot ps ys)) by (field; exact Ha).
      rewrite Hb. lra.
Qed.

Lemma peval_from_sum (pts : list (Q * Q)) (p : list Q) (j : nat) :
  qsum (λ pt, peval_from j p pt.1) pts ==
    dot ((λ k, power_sum (j + k) pts) <$> seq 0 (length p)) p.
Proof.
  revert j. induction p as [|a p IH]; intros j.
  - cbn [peval_from length seq fmap list_fmap dot].
    rewrite (qsum_ext _ (λ _, 0 * 0)) by (intros; ring).
    rewrite qsum_scale. ring.
  - cbn [peval_from length seq]. rewrite fmap_cons. cbn [dot].
    rewrite qsum_plus, qsum_scale, IH, Nat.add_0_r.
    rewrite <- fmap_S_seq, <- list_fmap_compose.
    assert (Hmap : ((λ k, power_sum (S j + k) pts) <$> seq 0 (length p))
                   = ((λ k, power_sum (j + k) pts) ∘ S <$> seq 0 (length p))).
    { apply list_fmap_ext. intros i k _. cbn. by replace (j + S k)%nat
        with (S (j + k)) by lia. }
    rewrite Hmap. unfold power_sum. ring.
Qed.

Lemma moment_as_dot (pts : list (Q * Q)) (p : list Q) (j : nat) :
  moment pts p j ==
    mixed_sum j pts - dot ((λ k, power_sum (j + k) pts) <$> seq 0 (length p)) p.
Proof.
  rewrite <- peval_from_sum. unfold moment, mixed_sum.
  assert (H : ∀ (f g h : Q * Q → Q) (l : list (Q * Q)),
            (∀ a, f a == g a - h a) → qsum f l == qsum g l - qsum h l).
  { intros f g h l Hf. induction l as [|a l IHl]; cbn [qsum]; [ring|].
    rewrite IHl, Hf. ring. }
  apply H. intros [x y]. cbn [fst snd]. rewrite peval_from_spec. ring.
Qed.

Lemma lstsq_poly_ols (deg : nat) (pts : list (Q * Q)) (p : list Q) :
  lstsq_poly deg pts = Some p → is_ols deg pts p.
Proof.
  intros H. unfold lstsq_poly in H.
  destruct (solve_sound _ _ _ H) as [Hlen Hsol].
  { unfold normal_rows. by rewrite length_fmap, length_seq. }
  { intros r Hr. unfold normal_rows in Hr.
    apply list_elem_of_fmap in Hr as (j & -> & _). cbn [fst].
    by rewrite length_fmap, length_seq. }
  apply normal_equations_ols; [done|].
  intros j Hj. rewrite moment_as_dot, Hlen.
  assert (Hmem : ((λ k, Qred (power_sum (j + k) pts)) <$> seq 0 (S deg),
                  Qred (mixed_sum j pts)) ∈ normal_rows deg pts).
  { unfold normal_rows. apply list_elem_of_fmap. exists j. split; [done|].
    apply elem_of_seq. lia. }
  pose proof (Hsol _ Hmem) as Hrow. cbn [fst snd] in Hrow.
  rewrite dot_Qred, Qred_correct in Hrow. rewrite Hrow. ring.
Qed.

Lemma lstsq_fit_ols (deg : nat) (x y p : list Q) :
  lstsq_fit deg [] x y = Ok p → is_ols deg (zip x y) p.
Proof.
  unfold lstsq_fit. destruct (decide (length x = length y)); [|done].
  assert (Hf : List.filter (λ pt : Q * Q, negb (in_any_bound [] pt.1)) (zip x y)
               = zip x y).
  { apply forallb_filter_id, forallb_forall. reflexivity. }
  rewrite Hf. destruct (lstsq_poly deg (zip x y)) as [q|] eqn:E; [|done].
  intros [= <-]. by apply lstsq_poly_ols.
Qed.

End ReferenceFit.

(** ** Subtracting the continuum twice *)

Section Idempotence.

Local Open Scope Q_scope.

Variable fit_generic_continuum :
  nat → list (Q * Q) → list Q → list Q → result (list Q).

Lemma sse_shift (pts : list (Q * Q)) (c q : list Q) :
  length c = length q →
  sse ((λ pt, (pt.1, pt.2 - peval c pt.1)) <$> pts) q
    == sse pts (zip_with Qplus c q).
Proof.
  intros Hlen. unfold sse. rewrite qsum_fmap. apply qsum_ext.
  intros [x y] _. cbn [fst snd]. unfold sq.
  rewrite !peval_zip_plus by done. ring.
Qed.

Lemma sse_peval_ext (pts : list (Q * Q)) (p q : list Q) :
  (∀ x, peval p x == peval q x) → sse pts p == sse pts q.
Proof.
  intros H. unfold sse. apply qsum_ext. intros [x y] _. cbn [fst snd].
  unfold sq. rewrite !(H x). ring.
Qed.

Lemma selected_residual (bounds : list (Q * Q)) (c : list Q)
    (wave flux : list Q) :
  length wave = length flux →
  selected bounds wave (zip_with Qminus flux (peval c <$> wave)) =
    (λ pt, (pt.1, pt.2 - peval c pt.1)) <$> selected bounds wave flux.
Proof.
  unfold selected. revert flux.
  induction wave as [|w wave IH]; intros [|f flux] Hlen; simplify_eq/=; [done|].
  destruct (in_any_bound bounds w); cbn [fmap list_fmap]; by rewrite IH.
Qed.

Lemma zip_fst_snd_Q (l : list (Q * Q)) : zip l.*1 l.*2 = l.
Proof. induction l as [|[x y] l IH]; cbn; [done|]. by rewrite IH. Qed.

(** C6. Let the fit be an ordinary least-squares polynomial fit, and let the
    samples inside the bounds have at least [deg + 1] different
    wavelengths.  If the continuum [c1] of a spectrum has been subtracted
    and the estimator is run again on the residual, with the same bounds
    and degree, then the second continuum model is the zero function, and
    subtracting it returns the residual unchanged.  (Exact equalities:
    they hold within every tolerance.) *)
Theorem continuum_subtraction_idempotent (bounds : list (Q * Q)) (deg : nat)
    (wave flux c1 r c2 : list Q) :
  (∀ x y p, fit_generic_continuum deg [] x y = Ok p → is_ols deg (zip x y) p) →
  length wave = length flux →
  Qdistinct (selected bounds wave flux).*1 →
  (S deg <= length (selected bounds wave flux))%nat →
  continuum_estimator fit_generic_continuum bounds deg wave flux = Ok c1 →
  line_residual c1 wave flux = Ok r →
  continuum_estimator fit_generic_continuum bounds deg wave r = Ok c2 →
  (∀ w, peval c2 w == 0) ∧
  ∃ r2, line_residual c2 wave r = Ok r2 ∧ Forall2 Qeq r2 r.
Proof.
  intros Hols Hlen Hdist Hcount H1 Hr H2.
  unfold line_residual in Hr.
  rewrite broadcast2_same_length in Hr by (rewrite length_fmap; lia).
  injection Hr as <-.
  set (sel := selected bounds wave flux) in *.
  assert (Hlenr : length wave
                  = length (zip_with Qminus flux (peval c1 <$> wave))).
  { rewrite length_zip_with, length_fmap. lia. }
  rewrite continuum_estimator_selected in H1, H2 by done.
  apply Hols in H1, H2. rewrite zip_fst_snd_Q in H1, H2.
  rewrite selected_residual in H2 by done. fold sel in H1, H2.
  destruct H1 as [Hl1 Hmin1]. destruct H2 as [Hl2 Hmin2].
  set (s := zip_with Qplus c1 c2).
  assert (Hs : is_ols deg sel s).
  { split; [unfold s; rewrite length_zip_with; lia|]. intros q Hq.
    unfold s. rewrite <- sse_shift by lia.
    eapply Qle_trans; [apply (Hmin2 (replicate (S deg) 0))|].
    { by rewrite length_replicate. }
    rewrite sse_shift by (rewrite length_replicate; lia).
    rewrite (sse_peval_ext sel _ c1).
    - by apply Hmin1.
    - intros x. rewrite peval_zip_plus by (rewrite length_replicate; lia).
      rewrite peval_zero. ring. }
  assert (Hzero : ∀ x, x ∈ sel.*1 → peval c2 x == 0).
  { intros x Hx. apply list_elem_of_fmap in Hx as ([x' y] & -> & Hpt).
    pose proof (ols_agree deg sel c1 s (conj Hl1 Hmin1) Hs _ Hpt) as Hag.
    cbn [fst] in *. unfold s in Hag.
    rewrite peval_zip_plus in Hag by lia. lra. }
  assert (Hall : ∀ w, peval c2 w == 0).
  { apply (poly_vanishing sel.*1); [done| |done].
    rewrite length_fmap. lia. }
  split; [done|].
  eexists. split.
  { unfold line_residual. apply broadcast2_same_length.
    rewrite length_fmap. lia. }
  apply Forall2_same_length_lookup. split.
  { rewrite !length_zip_with, !length_fmap. lia. }
  intros i a b Ha Hb. rewrite lookup_zip_with in Ha.
  rewrite Hb in Ha. cbn [mbind option_bind] in Ha.
  rewrite list_lookup_fmap in Ha.
  destruct (wave !! i) as [w|]; [|done]. cbn in Ha. injection Ha as <-.
  rewrite Hall. ring.
Qed.

End Idempotence.

(** A 16-sample spectrum between 1.70 and 2.30 micron: the continuum
    [1 + w] with an emission line around 2.02 micron, outside the two
    continuum windows of F200W. *)
Definition wave16 : list Q :=
  (λ k, (170 + 4 * k) # 100) <$> [0; 1; 2; 3; 4; 5; 6; 7; 8; 9; 10; 11; 12; 13; 14; 15]%Z.

Definition line16 : list Q :=
  inject_Z <$> [0; 0; 0; 0; 0; 0; 0; 5; 9; 5; 0; 0; 0; 0; 0; 0]%Z.

Definition flux16 : list Q := zip_with (λ w l, 1 + w + l)%Q wave16 line16.

Example continuum_200_example :
  continuum_200 lstsq_fit wave16 flux16 = Ok [1; 1; 0; 0; 0; 0; 0; 0]%Q.
Proof. vm_compute. reflexivity. Qed.

Example selected_200_example :
  (selected bounds_200 wave16 flux16).*1 =
    [178 # 100; 182 # 100; 186 # 100; 190 # 100; 194 # 100;
     210 # 100; 214 # 100; 218 # 100; 222 # 100]%Q.
Proof. vm_compute. reflexivity. Qed.

(** Pairwise difference of the abscissae of a closed list. *)
Ltac check_distinct :=
  match goal with
  | |- Qdistinct ?l =>
      let l' := eval vm_compute in l in change (Qdistinct l')
  end;
  cbn [Qdistinct]; repeat split; repeat constructor;
  let H := fresh in intros H; vm_compute in H; discriminate H.

Lemma continuum_estimator_fits_selected_witness :
  length wave16 = length flux16 ∧
  continuum_200 lstsq_fit wave16 flux16 =
    lstsq_fit 7 [] (selected bounds_200 wave16 flux16).*1
                   (selected bounds_200 wave16 flux16).*2 ∧
  ∀ cont, continuum_200 lstsq_fit wave16 flux16 = Ok cont →
          is_ols 7 (selected bounds_200 wave16 flux16) cont.
Proof.
  destruct (continuum_estimator_fits_selected lstsq_fit bounds_200 7
              wave16 flux16 eq_refl) as (_ & _ & _ & Hfit & Hols & _).
  split; [reflexivity|]. split; [exact Hfit|].
  intros cont. apply Hols. intros p Hp. apply lstsq_fit_ols in Hp.
  by rewrite zip_fst_snd_Q in Hp.
Defined.

Lemma continuum_subtraction_idempotent_witness :
  ∃ c1 r c2,
    continuum_200 lstsq_fit wave16 flux16 = Ok c1 ∧
    line_residual c1 wave16 flux16 = Ok r ∧
    continuum_200 lstsq_fit wave16 r = Ok c2 ∧
    (∀ w, peval c2 w == 0)%Q ∧
    ∃ r2, line_residual c2 wave16 r = Ok r2 ∧ Forall2 Qeq r2 r.
Proof.
  set (c1 := [1; 1; 0; 0; 0; 0; 0; 0]%Q).
  set (r := zip_with Qminus flux16 (peval c1 <$> wave16)).
  set (c2 := [0; 0; 0; 0; 0; 0; 0; 0]%Q).
  assert (H1 : continuum_200 lstsq_fit wave16 flux16 = Ok c1)
    by (vm_compute; reflexivity).
  assert (Hr : line_residual c1 wave16 flux16 = Ok r) by reflexivity.
  assert (H2 : continuum_200 lstsq_fit wave16 r = Ok c2)
    by (vm_compute; reflexivity).
  exists c1, r, c2. split; [exact H1|]. split; [exact Hr|].
  split; [exact H2|].
  apply (continuum_subtraction_idempotent lstsq_fit bounds_200 7
           wave16 flux16 c1 r c2);
    [ intros x y p; apply lstsq_fit_ols | reflexivity | check_distinct
    | vm_compute; lia | exact H1 | exact Hr | exact H2 ].
Defined.

(** ** Notebook 02: preparing the template *)

Section TemplateNormalizer.

Local Open Scope Q_scope.

Variable fit_generic_continuum :
  nat → list (Q * Q) → list Q → list Q → result (list Q).

(** [a.max()]: [ValueError] on an empty array. *)
Fixpoint max_from (m : Q) (a : list Q) : Q :=
  match a with
  | [] => m
  | x :: a => max_from (if Qltb m x then x else m) a
  end.

Definition np_max (a : list Q) : result Q :=
  match a with
  | [] => Raise ValueError
  | x :: a => Ok (max_from x a)
  end.

(** [a / m] for a scalar [m]; a float division by zero gives [inf] or [nan]
    and leaves the exact model. *)
Definition np_divide (a : list Q) (m : Q) : result (list Q) :=
  if Qeq_bool m 0 then Inexact else Ok ((λ x, x / m) <$> a).

(** [max(abs(a))], the divisor that the spec names. *)
Definition np_max_abs (a : list Q) : result Q := np_max (Qabs <$> a).

(** The cells from [flux_all = content[iix]['fluxes']] to
    [p_template = template - continuum_model(template.spectral_axis)]:
    the wavelengths in micron and the continuum-subtracted flux. *)
Definition template_residual (z_input lo hi : Q) (regions : list (Q * Q))
    (deg : nat) (wavelengths fluxes : list Q) : result (list Q * list Q) :=
  if Qeq_bool (1 + z_input) 0 then Inexact else
  let flux_all := fluxes in
  let wave_all := (λ w, w / (1 + z_input) * 10000) <$> wavelengths in
  let con_tmp := in_bound (lo, hi) <$> wave_all in
  flux ← bool_index flux_all con_tmp;
  wave ← bool_index wave_all con_tmp;
  m ← np_max flux;
  flux ← np_divide flux m;
  let wave := (λ w, w * (1 # 10000)) <$> wave in
  continuum_model ← fit_generic_continuum deg regions wave flux;
  sflux ← broadcast2 Qminus flux (peval continuum_model <$> wave);
  Ok (wave, sflux).

(** [p_smooth_template]: [flux = sflux / sflux.max()]. *)
Definition template_normalizer (z_input lo hi : Q) (regions : list (Q * Q))
    (deg : nat) (wavelengths fluxes : list Q) : result (list Q * list Q) :=
  '(wave, sflux) ← template_residual z_input lo hi regions deg wavelengths fluxes;
  m ← np_max sflux;
  flux ← np_divide sflux m;
  Ok (wave, flux).

(** The constants of the notebook: [z_input = 2.1], the window
    [3600 < wave_all < 13000] in Angstrom, the three excluded regions in
    micron, [Chebyshev1D(3)]. *)
Definition template_regions : list (Q * Q) :=
  [(37 # 100, 452 # 1000); (476 # 1000, 53 # 100); (645 # 1000, 67 # 100)].

Definition p_template := template_residual (21 # 10) 3600 13000 template_regions 3.
Definition p_smooth_template := template_normalizer (21 # 10) 3600 13000 template_regions 3.

(** The samples of the de-redshifted template (wavelengths in Angstrom) that
    the window keeps. *)
Definition template_window (z_input lo hi : Q) (wavelengths fluxes : list Q)
  : list (Q * Q) :=
  List.filter (λ pt, in_bound (lo, hi) pt.1)
    (zip ((λ w, w / (1 + z_input) * 10000) <$> wavelengths) fluxes).

Lemma max_from_ge (a : list Q) : ∀ m, m <= max_from m a.
Proof.
  induction a as [|x a IH]; intros m; cbn [max_from]; [lra|].
  destruct (Qltb m x) eqn:E.
  - apply Qltb_lt in E. specialize (IH x). lra.
  - apply IH.
Qed.

Lemma max_from_upper (a : list Q) :
  ∀ m x, x ∈ a → x <= max_from m a.
Proof.
  induction a as [|y a IH]; intros m x Hx; [by apply elem_of_nil in Hx|].
  cbn [max_from]. apply elem_of_cons in Hx as [->|Hx]; [|by apply IH].
  destruct (Qltb m y) eqn:E.
  - apply max_from_ge.
  - assert (¬ m < y) by (rewrite <- Qltb_lt; congruence).
    pose proof (max_from_ge a m). lra.
Qed.

Lemma max_from_elem (a : list Q) : ∀ m, max_from m a = m ∨ max_from m a ∈ a.
Proof.
  induction a as [|y a IH]; intros m; cbn [max_from]; [by left|].
  destruct (Qltb m y).
  - destruct (IH y) as [->|H]; right; [by left|by right].
  - destruct (IH m) as [->|H]; [by left|]. right. by right.
Qed.

Lemma np_max_spec (a : list Q) (m : Q) :
  np_max a = Ok m → m ∈ a ∧ ∀ x, x ∈ a → x <= m.
Proof.
  destruct a as [|y a]; [done|]. intros [= <-]. split.
  - destruct (max_from_elem a y) as [->|H]; [by left|by right].
  - intros x Hx. apply elem_of_cons in Hx as [->|Hx].
    + apply max_from_ge.
    + by apply max_from_upper.
Qed.

End TemplateNormalizer.

Section TemplateNormalizerClaims.

Local Open Scope Q_scope.

Variable fit_generic_continuum :
  nat → list (Q * Q) → list Q → list Q → result (list Q).

(** C4, as the code has it.  On a template whose window is not empty, whose
    windowed flux has a non-zero maximum [m], whose continuum fit returns
    [cm] and whose residual has a non-zero maximum [m']: (a) every output
    wavelength is a template wavelength divided by [1 + z_input]; (b) the
    samples kept are exactly those with [lo < wavelength < hi] after the
    shift; (c) the continuum fitted with the exclusion regions is
    subtracted from the flux (itself divided by [m]); (d) the result is
    divided by its maximum [m'], the signed one, so that for [m' > 0] no
    output value exceeds 1 and the value 1 is attained. *)
Theorem template_normalizer_steps (z_input lo hi : Q) (regions : list (Q * Q))
    (deg : nat) (wavelengths fluxes : list Q) (m m' : Q) (cm : list Q) :
  length wavelengths = length fluxes →
  ¬ 1 + z_input == 0 →
  let kept := template_window z_input lo hi wavelengths fluxes in
  let wave := (λ w, w * (1 # 10000)) <$> kept.*1 in
  let flux := (λ f, f / m) <$> kept.*2 in
  let sflux := zip_with Qminus flux (peval cm <$> wave) in
  let out := (λ s, s / m') <$> sflux in
  np_max kept.*2 = Ok m → ¬ m == 0 →
  fit_generic_continuum deg regions wave flux = Ok cm →
  np_max sflux = Ok m' → ¬ m' == 0 →
  (∀ x, x ∈ wave →
        ∃ w, w ∈ wavelengths ∧ x == w / (1 + z_input) ∧
             lo < w / (1 + z_input) * 10000 ∧ w / (1 + z_input) * 10000 < hi) ∧
  (∀ w f, (w, f) ∈ kept ↔
          (w, f) ∈ zip ((λ w, w / (1 + z_input) * 10000) <$> wavelengths) fluxes
          ∧ lo < w ∧ w < hi) ∧
  template_residual fit_generic_continuum z_input lo hi regions deg
    wavelengths fluxes = Ok (wave, sflux) ∧
  template_normalizer fit_generic_continuum z_input lo hi regions deg
    wavelengths fluxes = Ok (wave, out) ∧
  (0 < m' → (∀ o, o ∈ out → o <= 1) ∧ ∃ o, o ∈ out ∧ o == 1).
Proof.
  intros Hlen Hz kept wave flux sflux out Hm Hm0 Hfit Hm' Hm'0.
  assert (Hkept : ∀ w f, (w, f) ∈ kept ↔
            (w, f) ∈ zip ((λ w, w / (1 + z_input) * 10000) <$> wavelengths) fluxes
            ∧ lo < w ∧ w < hi).
  { intros w f. unfold kept, template_window.
    rewrite list_elem_of_In, filter_In, <- list_elem_of_In. cbn [fst].
    unfold in_bound. cbn [fst snd]. rewrite andb_true_iff, !Qltb_lt. tauto. }
  assert (Hres : template_residual fit_generic_continuum z_input lo hi
                   regions deg wavelengths fluxes = Ok (wave, sflux)).
  { unfold template_residual. apply Qeq_bool_false in Hz. rewrite Hz.
    unfold bool_index. rewrite !decide_True by (rewrite !length_fmap; lia).
    cbn [mbind result_mbind result_bind].
    rewrite (select_zip_snd (in_bound (lo, hi)) _ fluxes)
      by (rewrite length_fmap; lia).
    rewrite (select_zip_fst (in_bound (lo, hi)) _ fluxes)
      by (rewrite length_fmap; lia).
    fold (template_window z_input lo hi wavelengths fluxes). fold kept.
    rewrite Hm. cbn [mbind result_mbind result_bind].
    unfold np_divide. apply Qeq_bool_false in Hm0. rewrite Hm0.
    cbn [mbind result_mbind result_bind]. fold wave flux. rewrite Hfit.
    cbn [mbind result_mbind result_bind].
    rewrite broadcast2_same_length; [done|].
    unfold flux, wave. by rewrite !length_fmap. }
  split_and!; [|done|done| |].
  - intros x Hx. unfold wave in Hx.
    apply list_elem_of_fmap in Hx as (a & -> & Ha).
    apply list_elem_of_fmap in Ha as ([a' f] & -> & Hpt). cbn [fst].
    apply Hkept in Hpt as (Hzip & Hlo & Hhi).
    apply list_elem_of_lookup in Hzip as [i Hi].
    rewrite lookup_zip_with in Hi. rewrite list_lookup_fmap in Hi.
    destruct (wavelengths !! i) as [w|] eqn:Ew; [|done]. cbn in Hi.
    destruct (fluxes !! i) as [f'|]; [|done]. cbn in Hi.
    injection Hi as <- <-. exists w. split_and!; [|field; exact Hz|done..].
    by eapply list_elem_of_lookup_2.
  - unfold template_normalizer. rewrite Hres.
    cbn [mbind result_mbind result_bind]. rewrite Hm'.
    cbn [mbind result_mbind result_bind]. unfold np_divide.
    apply Qeq_bool_false in Hm'0. by rewrite Hm'0.
  - intros Hpos. apply np_max_spec in Hm' as [Hin Hub]. split.
    + intros o Ho. unfold out in Ho.
      apply list_elem_of_fmap in Ho as (s & -> & Hs).
      apply Qle_shift_div_r; [done|]. specialize (Hub s Hs). lra.
    + exists (m' / m'). split; [|field; lra].
      unfold out. apply list_elem_of_fmap. by exists m'.
Qed.

End TemplateNormalizerClaims.

(** A template given at [z = 2.1]: rest wavelengths from 3000 to 14000
    Angstrom, a flat continuum of 2, an emission line at 5000 Angstrom and a
    deeper absorption feature at 6560 Angstrom (both inside excluded
    regions). *)
Definition template_rest_angstrom : list Z :=
  [3000; 4000; 4600; 5000; 5500; 6000; 6560; 7000; 8000; 9000; 14000]%Z.

Definition template_wavelengths : list Q :=
  (λ a, inject_Z a * (31 # 100000))%Q <$> template_rest_angstrom.

Definition template_fluxes : list Q :=
  inject_Z <$> [2; 2; 2; 5; 2; 2; -5; 2; 2; 2; 2]%Z.

Example p_template_example :
  match p_template lstsq_fit template_wavelengths template_fluxes with
  | Ok (wave, sflux) =>
      Qred <$> wave = Qred <$> [4 # 10; 46 # 100; 5 # 10; 55 # 100; 6 # 10;
                                656 # 1000; 7 # 10; 8 # 10; 9 # 10]%Q ∧
      Qred <$> sflux = Qred <$> [0; 0; 3 # 5; 0; 0; - (7 # 5); 0; 0; 0]%Q
  | _ => False
  end.
Proof. vm_compute. split; reflexivity. Qed.

Example p_smooth_template_example :
  match p_smooth_template lstsq_fit template_wavelengths template_fluxes with
  | Ok (wave, flux) =>
      Qred <$> flux = Qred <$> [0; 0; 1; 0; 0; - (7 # 3); 0; 0; 0]%Q
  | _ => False
  end.
Proof. vm_compute. reflexivity. Qed.

(** C4 (d) fails as stated: the code divides by the maximum of the residual,
    not by the maximum of its absolute value.  On the template above the
    residual is [0.6] at the emission line and [-1.4] at the absorption
    feature; the output is the residual divided by [0.6], with the value
    [-7/3] at the absorption feature, and not the residual divided by
    [1.4]. *)
Lemma template_not_divided_by_max_abs :
  ∃ wave sflux out mabs,
    p_template lstsq_fit template_wavelengths template_fluxes
      = Ok (wave, sflux) ∧
    p_smooth_template lstsq_fit template_wavelengths template_fluxes
      = Ok (wave, out) ∧
    np_max_abs sflux = Ok mabs ∧ (mabs == 7 # 5)%Q ∧
    ¬ Forall2 Qeq out ((λ s, s / mabs)%Q <$> sflux) ∧
    ∃ o, o ∈ out ∧ (o == - (7 # 3))%Q.
Proof.
  destruct (p_template lstsq_fit template_wavelengths template_fluxes)
    as [[wave sflux]| |] eqn:E1; try (vm_compute in E1; discriminate E1).
  destruct (p_smooth_template lstsq_fit template_wavelengths template_fluxes)
    as [[wave' out]| |] eqn:E2; try (vm_compute in E2; discriminate E2).
  destruct (np_max_abs sflux) as [mabs| |] eqn:E3;
    vm_compute in E1; injection E1 as <- <-;
    try (vm_compute in E3; discriminate E3).
  vm_compute in E2. injection E2 as <- <-.
  vm_compute in E3. injection E3 as <-.
  eexists _, _, _, _. split; [reflexivity|]. split; [reflexivity|].
  split; [reflexivity|]. split; [reflexivity|]. split.
  - intros H.
    eapply (Forall2_lookup_lr _ _ _ 2%nat) in H; [|reflexivity..].
    vm_compute in H. discriminate H.
  - eexists. split.
    + do 5 right. left.
    + reflexivity.
Qed.

Lemma template_normalizer_steps_witness :
  length template_wavelengths = length template_fluxes ∧
  ∃ wave out,
    p_smooth_template lstsq_fit template_wavelengths template_fluxes
      = Ok (wave, out) ∧
    (∀ o, o ∈ out → (o <= 1)%Q) ∧ ∃ o, o ∈ out ∧ (o == 1)%Q.
Proof.
  split; [reflexivity|].
  set (kept := template_window (21 # 10) 3600 13000
                 template_wavelengths template_fluxes).
  set (wave := (λ w, w * (1 # 10000))%Q <$> kept.*1).
  set (flux := (λ f, f / 5)%Q <$> kept.*2).
  set (cm := [2 # 5; 0; 0; 0]%Q).
  set (sflux := zip_with Qminus flux (peval cm <$> wave)).
  assert (Hm : np_max kept.*2 = Ok 5%Q) by (vm_compute; reflexivity).
  assert (Hfit : lstsq_fit 3 template_regions wave flux = Ok cm)
    by (vm_compute; reflexivity).
  destruct (np_max sflux) as [m'| |] eqn:Hm';
    try (vm_compute in Hm'; discriminate Hm').
  assert (Hpos : (0 < m')%Q).
  { vm_compute in Hm'. injection Hm' as <-. reflexivity. }
  destruct (template_normalizer_steps lstsq_fit (21 # 10) 3600 13000
              template_regions 3 template_wavelengths template_fluxes
              5%Q m' cm eq_refl) as (_ & _ & _ & Hrun & Hpeak);
    [ intros H; vm_compute in H; discriminate H
    | exact Hm
    | intros H; vm_compute in H; discriminate H
    | exact Hfit
    | exact Hm'
    | intros H; rewrite H in Hpos; vm_compute in Hpos; discriminate Hpos
    | ].
  eexists _, _. split; [exact Hrun|]. exact (Hpeak Hpos).
Defined.

(** ** Notebook 03: the loops over the rows of the 2D spectrum *)

(** [[f(y) for y in ys]], stopping at the first exception: the per-row map
    that the loops are compared with. *)
Fixpoint collect {A} (f : nat → result A) (ys : list nat) : result (list A) :=
  match ys with
  | [] => Ok []
  | y :: ys => a ← f y; rest ← collect f ys; Ok (a :: rest)
  end.

(** The two iterations [x] then [y] and [y] then [x] either both fail or
    both return the same state. *)
Definition commuting {S X} (body : S → X → result S) : Prop :=
  ∀ s x y,
    returned (body s x ≫= λ s', body s' y) =
    returned (body s y ≫= λ s', body s' x).

Section RowLoops.

Local Open Scope Q_scope.

Variable fit_generic_continuum :
  nat → list (Q * Q) → list Q → list Q → result (list Q).

(** [fit_lines(Spectrum(flux=flux, spectral_axis=axis),
    g1_init+g2_init+g3_init)] of specutils, with the three initial
    Gaussians of the notebook: the three fitted components
    [g123_fit[0]], [g123_fit[1]], [g123_fit[2]] as callables, or the
    exception raised. *)
Variable fit_lines :
  list Q → list Q → result ((Q → Q) * (Q → Q) * (Q → Q)).

(** [data_2d[:, :] * 0] and [np.zeros((r, c))]. *)
Definition zeros_like (a : list (list Q)) : list (list Q) :=
  (λ row : list Q, (λ _ : Q, 0) <$> row) <$> a.

Definition np_zeros (r c : nat) : list (list Q) := replicate r (replicate c 0).

(** [len(data_2d[:, 0])]: the number of rows; column 0 has to exist. *)
Definition n_rows (a : list (list Q)) : result nat :=
  match a with
  | [] => Ok 0%nat
  | [] :: _ => Raise IndexError
  | _ => Ok (length a)
  end.

(** The right-hand side of [out[yy, :] = values] against the row width:
    equal shapes are copied, a single value is broadcast, anything else is a
    [ValueError]. *)
Definition fit_row (width : nat) (values : list Q) : result (list Q) :=
  if decide (length values = width) then Ok values
  else match values with
       | [v] => Ok (replicate width v)
       | _ => Raise ValueError
       end.

(** [out[yy, :] = values] *)
Definition assign_row (out : list (list Q)) (yy : nat) (values : list Q)
  : result (list (list Q)) :=
  row ← index IndexError out yy;
  values ← fit_row (length row) values;
  Ok (<[yy := values]> out).

(** *** The continuum of every row

[[
    flux_cont2d = data_2d[:, :] * 0
    for yy in range(len(data_2d[:, 0])):
        mask_line = ((wave_2d[yy, :] > 1.75) & (wave_2d[yy, :] < 1.97)) | ...
        obs = Spectrum(spectral_axis=wave_2d[yy, :][mask_line]*u.um,
                       flux=data_2d[yy, :][mask_line]*spec_unit)
        cont = continuum.fit_generic_continuum(obs, model=Chebyshev1D(7))
        flux_cont2d[yy, :] = cont(wave_2d[yy, :]*u.um).value
]] *)

(** What iteration [yy] computes from row [yy] of the two inputs. *)
Definition continuum_row_value (bounds : list (Q * Q)) (deg : nat)
    (wave_2d data_2d : list (list Q)) (yy : nat) : result (list Q) :=
  wave_row ← index IndexError wave_2d yy;
  data_row ← index IndexError data_2d yy;
  cont ← continuum_estimator fit_generic_continuum bounds deg wave_row data_row;
  Ok (peval cont <$> wave_row).

Definition continuum_row_body (bounds : list (Q * Q)) (deg : nat)
    (wave_2d data_2d : list (list Q))
    (flux_cont2d : list (list Q)) (yy : nat) : result (list (list Q)) :=
  values ← continuum_row_value bounds deg wave_2d data_2d yy;
  assign_row flux_cont2d yy values.

Definition continuum_rows (bounds : list (Q * Q)) (deg : nat)
    (wave_2d data_2d : list (list Q)) : result (list (list Q)) :=
  n ← n_rows data_2d;
  for_loop (continuum_row_body bounds deg wave_2d data_2d)
           (seq 0 n) (zeros_like data_2d).

(** The loops of the notebook for F200W and F150W. *)
Definition flux_cont2d := continuum_rows bounds_200 7.
Definition flux_cont2d_150 := continuum_rows bounds_150 7.

(** *** The line maps

[[
    rsq = data_2d.shape[0]
    cut_hb = np.zeros((rsq, rsq), 'float32')   # and cut_o3b, cut_o3r
    for yy in range(len(data_2d[:, 0])):
        con = (1.4 < wave_2d[yy, :]) & (wave_2d[yy, :] < 1.65)
        spectrum_cut = Spectrum(flux=line_2d[yy, :][con]*spec_unit,
                                spectral_axis=wave_2d[yy, :][con]*u.um)
        g123_fit = fit_lines(spectrum_cut, g1_init+g2_init+g3_init)
        index_lamcen_hb = np.argmin(np.abs(lamcen_hb - wave_2d[yy, :]))
        cut_hb[yy, :] = g123_fit[0](wave_2d[yy, :]*u.um)[
            int(index_lamcen_hb-rsq/2.):int(index_lamcen_hb+rsq/2.)]
        ...
]] *)

(** [np.argmin]: the first index of the minimum. *)
Fixpoint argmin_from (best_i : nat) (best : Q) (i : nat) (a : list Q) : nat :=
  match a with
  | [] => best_i
  | x :: a =>
      if Qltb x best then argmin_from i x (S i) a
      else argmin_from best_i best (S i) a
  end.

Definition np_argmin (a : list Q) : result nat :=
  match a with
  | [] => Raise ValueError
  | x :: a => Ok (argmin_from 0 x 1 a)
  end.

(** [zin = 2.1] and the three line centres in micron. *)
Definition lamcen_hb : Q := (4862680 # 10000000) * (1 + (21 # 10)).
Definition lamcen_o3b : Q := (4960295 # 10000000) * (1 + (21 # 10)).
Definition lamcen_o3r : Q := (5008240 # 10000000) * (1 + (21 # 10)).

(** [g(wave_row)[int(index-rsq/2.):int(index+rsq/2.)]] with
    [index = np.argmin(np.abs(lamcen - wave_row))]; [int] truncates towards
    zero. *)
Definition line_cut (lamcen : Q) (rsq : nat) (wave_row : list Q) (g : Q → Q)
  : result (list Q) :=
  index_lamcen ← np_argmin ((λ w, Qabs (lamcen - w)) <$> wave_row);
  Ok (py_slice (Z.quot (2 * Z.of_nat index_lamcen - Z.of_nat rsq) 2)
               (Z.quot (2 * Z.of_nat index_lamcen + Z.of_nat rsq) 2)
               (g <$> wave_row)).

Definition line_row_body (wave_2d line_2d : list (list Q)) (rsq : nat)
    (cuts : list (list Q) * list (list Q) * list (list Q)) (yy : nat)
  : result (list (list Q) * list (list Q) * list (list Q)) :=
  let '(cut_hb, cut_o3b, cut_o3r) := cuts in
  wave_row ← index IndexError wave_2d yy;
  line_row ← index IndexError line_2d yy;
  let con := in_bound (14 # 10, 165 # 100) <$> wave_row in
  flux_cut ← bool_index line_row con;
  axis_cut ← bool_index wave_row con;
  g123_fit ← fit_lines flux_cut axis_cut;
  v ← line_cut lamcen_hb rsq wave_row g123_fit.1.1;
  cut_hb ← assign_row cut_hb yy v;
  v ← line_cut lamcen_o3b rsq wave_row g123_fit.1.2;
  cut_o3b ← assign_row cut_o3b yy v;
  v ← line_cut lamcen_o3r rsq wave_row g123_fit.2;
  cut_o3r ← assign_row cut_o3r yy v;
  Ok (cut_hb, cut_o3b, cut_o3r).

Definition line_maps (wave_2d line_2d data_2d : list (list Q))
  : result (list (list Q) * list (list Q) * list (list Q)) :=
  let rsq := length data_2d in
  n ← n_rows data_2d;
  for_loop (line_row_body wave_2d line_2d rsq) (seq 0 n)
           (np_zeros rsq rsq, np_zeros rsq rsq, np_zeros rsq rsq).

(** What iteration [yy] of the line maps computes before it assigns. *)
Definition line_row_value (wave_2d line_2d : list (list Q)) (rsq : nat)
    (yy : nat) : result (list Q * list Q * list Q) :=
  wave_row ← index IndexError wave_2d yy;
  line_row ← index IndexError line_2d yy;
  let con := in_bound (14 # 10, 165 # 100) <$> wave_row in
  flux_cut ← bool_index line_row con;
  axis_cut ← bool_index wave_row con;
  g123_fit ← fit_lines flux_cut axis_cut;
  v1 ← line_cut lamcen_hb rsq wave_row g123_fit.1.1;
  v2 ← line_cut lamcen_o3b rsq wave_row g123_fit.1.2;
  v3 ← line_cut lamcen_o3r rsq wave_row g123_fit.2;
  Ok (v1, v2, v3).

(** The three assignments of one iteration. *)
Definition assign_rows3
    (cuts : list (list Q) * list (list Q) * list (list Q)) (yy : nat)
    (v : list Q * list Q * list Q)
  : result (list (list Q) * list (list Q) * list (list Q)) :=
  cut_hb ← assign_row cuts.1.1 yy v.1.1;
  cut_o3b ← assign_row cuts.1.2 yy v.1.2;
  cut_o3r ← assign_row cuts.2 yy v.2;
  Ok (cut_hb, cut_o3b, cut_o3r).

End RowLoops.

(** *** Loops whose iterations commute *)

Lemma returned_bind {A B} (r1 r2 : result A) (k : A → result B) :
  returned r1 = returned r2 → returned (r1 ≫= k) = returned (r2 ≫= k).
Proof. destruct r1, r2; cbn; intros H; by simplify_eq. Qed.

Lemma result_bind_assoc {A B C} (r : result A) (f : A → result B)
    (g : B → result C) :
  (r ≫= f) ≫= g = r ≫= (λ a, f a ≫= g).
Proof. by destruct r. Qed.

Lemma for_loop_permutation {S X} (body : S → X → result S) (l l' : list X) :
  commuting body → l ≡ₚ l' →
  ∀ s, returned (for_loop body l s) = returned (for_loop body l' s).
Proof.
  intros Hc Hp. induction Hp as [|x l l' _ IH|x y l|l l' l'' _ IH1 _ IH2];
    intros s.
  - done.
  - cbn [for_loop]. destruct (body s x); cbn; auto.
  - cbn [for_loop].
    change (returned (body s y ≫= (λ s', body s' x ≫= for_loop body l)) =
            returned (body s x ≫= (λ s', body s' y ≫= for_loop body l))).
    rewrite <- !result_bind_assoc. apply returned_bind, Hc.
  - by rewrite IH1.
Qed.

(** An iteration that computes a value from its index alone and then writes
    it commutes with the others as soon as the writes at different indices
    do. *)
Lemma row_body_commuting {S R} (value : nat → result R)
    (write : S → nat → R → result S) :
  (∀ s x y vx vy, x ≠ y →
     returned (write s x vx ≫= λ s', write s' y vy) =
     returned (write s y vy ≫= λ s', write s' x vx)) →
  commuting (λ s yy, v ← value yy; write s yy v).
Proof.
  intros Hw s x y. destruct (decide (x = y)) as [->|Hne]; [done|].
  destruct (value x) as [vx| |] eqn:Ex, (value y) as [vy| |] eqn:Ey;
    cbn [mbind result_mbind result_bind].
  - specialize (Hw s x y vx vy Hne).
    destruct (write s x vx) as [s1| |], (write s y vy) as [s2| |];
      cbn [mbind result_mbind result_bind] in *; rewrite ?Ex, ?Ey;
      cbn [mbind result_mbind result_bind]; done.
  - destruct (write s x vx); cbn [mbind result_mbind result_bind];
      rewrite ?Ey; done.
  - destruct (write s x vx); cbn [mbind result_mbind result_bind];
      rewrite ?Ey; done.
  - destruct (write s y vy); cbn [mbind result_mbind result_bind];
      rewrite ?Ex; done.
  - done.
  - done.
  - destruct (write s y vy); cbn [mbind result_mbind result_bind];
      rewrite ?Ex; done.
  - done.
  - done.
Qed.

(** *** Writing one row *)

Lemma assign_row_spec (out : list (list Q)) (yy : nat) (values : list Q)
    (out' : list (list Q)) :
  assign_row out yy values = Ok out' →
  ∃ row values', out !! yy = Some row ∧
    fit_row (length row) values = Ok values' ∧ out' = <[yy := values']> out.
Proof.
  unfold assign_row, index. destruct (out !! yy) as [row|]; [|done].
  cbn [mbind result_mbind result_bind].
  destruct (fit_row (length row) values) as [v'| |] eqn:E; [|done..].
  intros [= <-]. by exists row, v'.
Qed.

Lemma fit_row_length (width : nat) (values values' : list Q) :
  fit_row width values = Ok values' → length values' = width.
Proof.
  unfold fit_row. destruct (decide (length values = width)).
  - by intros [= <-].
  - destruct values as [|v [|]]; [done| |done].
    intros [= <-]. apply length_replicate.
Qed.

(** An assignment touches row [yy] and nothing else. *)
Lemma assign_row_frame (out : list (list Q)) (yy : nat) (values : list Q)
    (out' : list (list Q)) :
  assign_row out yy values = Ok out' →
  length out' = length out ∧
  (∀ yy', yy' ≠ yy → out' !! yy' = out !! yy') ∧
  (∀ row, out !! yy = Some row →
          ∃ row', out' !! yy = Some row' ∧ length row' = length row).
Proof.
  intros H. apply assign_row_spec in H as (row & v' & Hrow & Hfit & ->).
  split_and!.
  - apply length_insert.
  - intros yy' Hne. by rewrite list_lookup_insert_ne.
  - intros row0 Hrow0. exists v'. rewrite list_lookup_insert_eq.
    + split; [done|]. apply fit_row_length in Hfit. congruence.
    + by eapply lookup_lt_Some.
Qed.

Lemma assign_row_commute (s : list (list Q)) (x y : nat) (vx vy : list Q) :
  x ≠ y →
  returned (assign_row s x vx ≫= λ s', assign_row s' y vy) =
  returned (assign_row s y vy ≫= λ s', assign_row s' x vx).
Proof.
  intros Hne. unfold assign_row, index.
  destruct (s !! x) as [rx|] eqn:Ex, (s !! y) as [ry|] eqn:Ey;
    cbn [mbind result_mbind result_bind].
  - destruct (fit_row (length rx) vx) as [vx'| |] eqn:Fx,
             (fit_row (length ry) vy) as [vy'| |] eqn:Fy;
      cbn [mbind result_mbind result_bind];
      rewrite ?list_lookup_insert_ne, ?Ex, ?Ey by done;
      cbn [mbind result_mbind result_bind]; rewrite ?Fx, ?Fy;
      cbn [mbind result_mbind result_bind]; try done.
    by rewrite list_insert_insert_ne.
  - destruct (fit_row (length rx) vx) as [vx'| |];
      cbn [mbind result_mbind result_bind];
      rewrite ?list_lookup_insert_ne, ?Ey by done; done.
  - destruct (fit_row (length ry) vy) as [vy'| |];
      cbn [mbind result_mbind result_bind];
      rewrite ?list_lookup_insert_ne, ?Ex by done; done.
  - done.
Qed.

Lemma for_loop_ext {S X} (body body' : S → X → result S) (l : list X) :
  (∀ s x, body s x = body' s x) →
  ∀ s, for_loop body l s = for_loop body' l s.
Proof.
  intros H. induction l as [|x l IH]; intros s; cbn [for_loop]; [done|].
  rewrite H. destruct (body' s x); cbn; auto.
Qed.

(** *** Several output arrays *)

(** Two writes side by side, each into its own array. *)
Definition pair_write {S1 S2 R1 R2}
    (w1 : S1 → nat → R1 → result S1) (w2 : S2 → nat → R2 → result S2)
    (s : S1 * S2) (yy : nat) (v : R1 * R2) : result (S1 * S2) :=
  a ← w1 s.1 yy v.1; b ← w2 s.2 yy v.2; Ok (a, b).

(** A loop that writes two arrays returns what the two loops that write one
    array each return. *)
Lemma for_loop_pair {S1 S2 R1 R2} (value : nat → result (R1 * R2))
    (w1 : S1 → nat → R1 → result S1) (w2 : S2 → nat → R2 → result S2)
    (ys : list nat) :
  ∀ s1 s2,
    returned (for_loop (λ s yy, v ← value yy; pair_write w1 w2 s yy v)
                ys (s1, s2)) =
    (a ← returned (for_loop (λ s yy, v ← value yy; w1 s yy v.1) ys s1);
     b ← returned (for_loop (λ s yy, v ← value yy; w2 s yy v.2) ys s2);
     Some (a, b)).
Proof.
  induction ys as [|y ys IH]; intros s1 s2; cbn [for_loop]; [done|].
  destruct (value y) as [[v1 v2]| |]; cbn [mbind result_mbind result_bind];
    [|done..].
  change (pair_write w1 w2 (s1, s2) y (v1, v2))
    with (a ← w1 s1 y v1; b ← w2 s2 y v2; Ok (a, b)).
  cbn [fst snd].
  destruct (w1 s1 y v1) as [a| |]; cbn [mbind result_mbind result_bind];
    [|done..].
  destruct (w2 s2 y v2) as [b| |]; cbn [mbind result_mbind result_bind].
  - apply IH.
  - by destruct (returned (for_loop _ ys a)).
  - by destruct (returned (for_loop _ ys a)).
Qed.

(** *** A loop that assigns rows is a map over the rows *)

Lemma for_loop_assign_rows (value : nat → result (list Q)) (width : nat) :
  ∀ m k s,
    (k + m <= length s)%nat →
    (∀ i row, (k <= i)%nat → s !! i = Some row → length row = width) →
    for_loop (λ s yy, v ← value yy; assign_row s yy v) (seq k m) s =
    (rows ← collect (λ yy, v ← value yy; fit_row width v) (seq k m);
     Ok (take k s ++ rows ++ drop (k + m) s)).
Proof.
  induction m as [|m IH]; intros k s Hlen Hw; cbn [seq for_loop collect].
  - cbn [mbind result_mbind result_bind]. rewrite Nat.add_0_r.
    cbn [app]. by rewrite take_drop.
  - destruct (value k) as [v| |]; cbn [mbind result_mbind result_bind];
      [|done..].
    destruct (lookup_lt_is_Some_2 s k) as [row Hrow]; [lia|].
    assert (Ha : assign_row s k v
                 = (values ← fit_row width v; Ok (<[k := values]> s))).
    { unfold assign_row, index. rewrite Hrow.
      cbn [mbind result_mbind result_bind].
      by rewrite (Hw k row) by (done || lia). }
    rewrite Ha. clear Ha.
    destruct (fit_row width v) as [v'| |];
      cbn [mbind result_mbind result_bind]; [|done..].
    rewrite IH.
    + destruct (collect _ (seq (S k) m)) as [rows| |];
        cbn [mbind result_mbind result_bind]; [|done..].
      f_equal.
      rewrite (take_S_r _ _ v') by (rewrite list_lookup_insert_eq; [done|lia]).
      rewrite take_insert_ge by lia. rewrite drop_insert_lt by lia.
      replace (S k + m)%nat with (k + S m)%nat by lia.
      by rewrite <- app_assoc.
    + rewrite length_insert. lia.
    + intros i r Hi Hr. rewrite list_lookup_insert_ne in Hr by lia.
      apply (Hw i r); [lia|done].
Qed.

Lemma collect_ok {A} (f : nat → result A) (ys : list nat) :
  (∀ yy, yy ∈ ys → ∃ a, f yy = Ok a) →
  ∃ l, collect f ys = Ok l ∧ length l = length ys ∧
       ∀ i yy, ys !! i = Some yy → ∃ a, f yy = Ok a ∧ l !! i = Some a.
Proof.
  induction ys as [|y ys IH]; intros H; cbn [collect].
  - exists []. split_and!; [done..|]. intros i yy Hi. done.
  - destruct (H y) as [a Ha]; [by left|]. rewrite Ha.
    destruct IH as (l & Hl & Hlen & Hrows).
    { intros yy Hyy. apply H. by right. }
    rewrite Hl. exists (a :: l). split_and!; [done|cbn; lia|].
    intros [|i] yy Hi; cbn in Hi.
    + injection Hi as <-. by exists a.
    + by apply Hrows.
Qed.

Lemma collect_fail {A} (f : nat → result A) (ys : list nat) (yy : nat) :
  yy ∈ ys → returned (f yy) = None → returned (collect f ys) = None.
Proof.
  induction ys as [|y ys IH]; intros Hin Hf; [by apply elem_of_nil in Hin|].
  cbn [collect]. apply elem_of_cons in Hin as [<-|Hin].
  - by destruct (f yy).
  - destruct (f y); [|done..]. cbn [mbind result_mbind result_bind].
    specialize (IH Hin Hf). by destruct (collect f ys).
Qed.

Lemma returned_bind_option {A B} (r : result A) (k : A → result B) :
  returned (r ≫= k) = returned r ≫= λ a, returned (k a).
Proof. by destruct r. Qed.

Section RowLoopFacts.

Local Open Scope Q_scope.

Variable fit_generic_continuum :
  nat → list (Q * Q) → list Q → list Q → result (list Q).
Variable fit_lines :
  list Q → list Q → result ((Q → Q) * (Q → Q) * (Q → Q)).

Lemma continuum_row_body_commuting (bounds : list (Q * Q)) (deg : nat)
    (wave_2d data_2d : list (list Q)) :
  commuting (continuum_row_body fit_generic_continuum bounds deg wave_2d data_2d).
Proof.
  apply (row_body_commuting
           (continuum_row_value fit_generic_continuum bounds deg wave_2d data_2d)
           assign_row).
  intros. by apply assign_row_commute.
Qed.

Lemma line_cut_nonempty (lamcen : Q) (rsq : nat) (w : Q) (wave_row : list Q)
    (g : Q → Q) :
  ∃ v, line_cut lamcen rsq (w :: wave_row) g = Ok v.
Proof. unfold line_cut. cbn [fmap list_fmap np_argmin]. by eexists. Qed.

(** An iteration of the line maps computes its three cuts from row [yy] and
    then assigns them. *)
Lemma line_row_body_value (wave_2d line_2d : list (list Q)) (rsq : nat)
    (cuts : list (list Q) * list (list Q) * list (list Q)) (yy : nat) :
  line_row_body fit_lines wave_2d line_2d rsq cuts yy =
  (v ← line_row_value fit_lines wave_2d line_2d rsq yy; assign_rows3 cuts yy v).
Proof.
  destruct cuts as [[cut_hb cut_o3b] cut_o3r].
  unfold line_row_body, line_row_value, assign_rows3.
  destruct (index IndexError wave_2d yy) as [wave_row| |]; [|done..].
  cbn [mbind result_mbind result_bind].
  destruct (index IndexError line_2d yy) as [line_row| |]; [|done..].
  cbn [mbind result_mbind result_bind].
  destruct (bool_index line_row _) as [flux_cut| |]; [|done..].
  cbn [mbind result_mbind result_bind].
  destruct (bool_index wave_row _) as [axis_cut| |]; [|done..].
  cbn [mbind result_mbind result_bind].
  destruct (fit_lines flux_cut axis_cut) as [[[g1 g2] g3]| |]; [|done..].
  cbn [mbind result_mbind result_bind fst snd].
  destruct wave_row as [|w wave_row]; [done|].
  destruct (line_cut_nonempty lamcen_hb rsq w wave_row g1) as [v1 ->].
  destruct (line_cut_nonempty lamcen_o3b rsq w wave_row g2) as [v2 ->].
  destruct (line_cut_nonempty lamcen_o3r rsq w wave_row g3) as [v3 ->].
  cbn [mbind result_mbind result_bind fst snd].
  destruct (assign_row cut_hb yy v1); [|done..].
  cbn [mbind result_mbind result_bind].
  by destruct (assign_row cut_o3b yy v2).
Qed.

Lemma assign_rows3_pair
    (cuts : list (list Q) * list (list Q) * list (list Q)) (yy : nat)
    (v : list Q * list Q * list Q) :
  assign_rows3 cuts yy v =
  pair_write (pair_write assign_row assign_row) assign_row cuts yy v.
Proof.
  destruct cuts as [[a b] c], v as [[v1 v2] v3].
  unfold assign_rows3, pair_write. cbn [fst snd].
  destruct (assign_row a yy v1); [|done..].
  cbn [mbind result_mbind result_bind].
  by destruct (assign_row b yy v2).
Qed.

(** The three single-array loops that the loop of the line maps amounts
    to. *)
Definition line_component (wave_2d line_2d : list (list Q)) (rsq : nat)
    (pick : list Q * list Q * list Q → list Q) (yy : nat) : result (list Q) :=
  v ← line_row_value fit_lines wave_2d line_2d rsq yy; Ok (pick v).

Definition line_component_body (wave_2d line_2d : list (list Q)) (rsq : nat)
    (pick : list Q * list Q * list Q → list Q)
    (s : list (list Q)) (yy : nat) : result (list (list Q)) :=
  v ← line_component wave_2d line_2d rsq pick yy; assign_row s yy v.

Lemma line_loop_components (wave_2d line_2d : list (list Q)) (rsq : nat)
    (ys : list nat) (a b c : list (list Q)) :
  returned (for_loop (line_row_body fit_lines wave_2d line_2d rsq) ys (a, b, c)) =
  (a' ← returned (for_loop
          (line_component_body wave_2d line_2d rsq (λ v, v.1.1)) ys a);
   b' ← returned (for_loop
          (line_component_body wave_2d line_2d rsq (λ v, v.1.2)) ys b);
   c' ← returned (for_loop
          (line_component_body wave_2d line_2d rsq (λ v, v.2)) ys c);
   Some (a', b', c')).
Proof.
  set (value := line_row_value fit_lines wave_2d line_2d rsq).
  rewrite (for_loop_ext _
             (λ s yy, v ← value yy;
                      pair_write (pair_write assign_row assign_row) assign_row
                        s yy v)).
  2:{ intros s x. rewrite line_row_body_value. fold value.
      destruct (value x); [|done..]. cbn [mbind result_mbind result_bind].
      apply assign_rows3_pair. }
  rewrite (for_loop_pair value (pair_write assign_row assign_row) assign_row).
  rewrite (for_loop_ext (λ s yy, v ← value yy;
                                 pair_write assign_row assign_row s yy v.1)
             (λ s yy, v ← (v ← value yy; Ok v.1);
                      pair_write assign_row assign_row s yy v)).
  2:{ intros s x. by destruct (value x). }
  rewrite (for_loop_pair (λ yy, v ← value yy; Ok v.1) assign_row assign_row).
  assert (E : ∀ (pick pick' : _ → list Q) s,
            (∀ v, pick v = pick' v) →
            for_loop (λ s yy, v ← (v ← value yy; Ok v.1); assign_row s yy (pick v))
              ys s =
            for_loop (line_component_body wave_2d line_2d rsq
                        (λ v, pick' v.1)) ys s).
  { intros pick pick' s Hp. apply for_loop_ext. intros s' x.
    unfold line_component_body, line_component. fold value.
    destruct (value x); [|done..]. cbn [mbind result_mbind result_bind].
    by rewrite Hp. }
  rewrite (E fst fst a), (E snd snd b) by done.
  rewrite (for_loop_ext (λ s yy, v ← value yy; assign_row s yy v.2)
             (line_component_body wave_2d line_2d rsq (λ v, v.2))).
  2:{ intros s x. unfold line_component_body, line_component. fold value.
      by destruct (value x). }
  destruct (returned (for_loop (line_component_body _ _ _ (λ v, v.1.1)) ys a));
    [|done].
  cbn [mbind option_bind].
  by destruct (returned (for_loop (line_component_body _ _ _ (λ v, v.1.2)) ys b)).
Qed.

Lemma line_component_body_commuting (wave_2d line_2d : list (list Q))
    (rsq : nat) (pick : list Q * list Q * list Q → list Q) :
  commuting (line_component_body wave_2d line_2d rsq pick).
Proof.
  apply (row_body_commuting (line_component wave_2d line_2d rsq pick) assign_row).
  intros. by apply assign_row_commute.
Qed.

End RowLoopFacts.

Section RowLoopClaims.

Local Open Scope Q_scope.

Variable fit_generic_continuum :
  nat → list (Q * Q) → list Q → list Q → result (list Q).
Variable fit_lines :
  list Q → list Q → result ((Q → Q) * (Q → Q) * (Q → Q)).

Lemma n_rows_ok (a : list (list Q)) (n : nat) :
  n_rows a = Ok n → n = length a.
Proof. destruct a as [|[|x row] a]; cbn; intros H; by simplify_eq. Qed.

Lemma zeros_like_lookup (a : list (list Q)) (i : nat) (row : list Q) :
  zeros_like a !! i = Some row →
  ∃ row0, a !! i = Some row0 ∧ length row = length row0.
Proof.
  unfold zeros_like. rewrite list_lookup_fmap.
  destruct (a !! i) as [row0|]; [|done]. cbn. intros [= <-].
  exists row0. split; [done|]. by rewrite length_fmap.
Qed.

Lemma continuum_rows_collect (bounds : list (Q * Q)) (deg : nat)
    (wave_2d data_2d : list (list Q)) (width : nat) :
  (∀ row, row ∈ data_2d → length row = width) →
  continuum_rows fit_generic_continuum bounds deg wave_2d data_2d =
  (n ← n_rows data_2d;
   collect (λ yy, v ← continuum_row_value fit_generic_continuum bounds deg
                        wave_2d data_2d yy;
                  fit_row width v) (seq 0 n)).
Proof.
  intros Hw. unfold continuum_rows.
  destruct (n_rows data_2d) as [n| |] eqn:En; [|done..].
  apply n_rows_ok in En as ->. cbn [mbind result_mbind result_bind].
  unfold continuum_row_body.
  rewrite (for_loop_assign_rows _ width).
  - rewrite drop_ge by (unfold zeros_like; rewrite length_fmap; lia).
    cbn [take]. destruct (collect _ (seq 0 (length data_2d))); [|done..].
    cbn [mbind result_mbind result_bind app]. by rewrite app_nil_r.
  - unfold zeros_like. rewrite length_fmap. lia.
  - intros i row _ Hrow.
    apply zeros_like_lookup in Hrow as (row0 & Hrow0 & ->).
    apply Hw. by eapply list_elem_of_lookup_2.
Qed.

Lemma line_component_collect (wave_2d line_2d : list (list Q)) (rsq : nat)
    (pick : list Q * list Q * list Q → list Q) :
  for_loop (line_component_body fit_lines wave_2d line_2d rsq pick)
    (seq 0 rsq) (np_zeros rsq rsq) =
  collect (λ yy, v ← line_component fit_lines wave_2d line_2d rsq pick yy;
                 fit_row rsq v) (seq 0 rsq).
Proof.
  unfold line_component_body. rewrite (for_loop_assign_rows _ rsq).
  - rewrite drop_ge by (unfold np_zeros; rewrite length_replicate; lia).
    cbn [take]. destruct (collect _ (seq 0 rsq)); [|done..].
    cbn [mbind result_mbind result_bind app]. by rewrite app_nil_r.
  - unfold np_zeros. rewrite length_replicate. lia.
  - intros i row _ Hrow. unfold np_zeros in Hrow.
    apply lookup_replicate in Hrow as [-> _]. apply length_replicate.
Qed.

Lemma line_maps_collect (wave_2d line_2d data_2d : list (list Q)) :
  returned (line_maps fit_lines wave_2d line_2d data_2d) =
    (n ← returned (n_rows data_2d);
     hb ← returned (collect (λ yy,
             v ← line_component fit_lines wave_2d line_2d (length data_2d)
                   (λ v, v.1.1) yy; fit_row (length data_2d) v) (seq 0 n));
     o3b ← returned (collect (λ yy,
             v ← line_component fit_lines wave_2d line_2d (length data_2d)
                   (λ v, v.1.2) yy; fit_row (length data_2d) v) (seq 0 n));
     o3r ← returned (collect (λ yy,
             v ← line_component fit_lines wave_2d line_2d (length data_2d)
                   (λ v, v.2) yy; fit_row (length data_2d) v) (seq 0 n));
     Some (hb, o3b, o3r)).
Proof.
  unfold line_maps. destruct (n_rows data_2d) as [n| |] eqn:En; [|done..].
  apply n_rows_ok in En as ->.
  cbn [mbind result_mbind result_bind option_bind returned].
  rewrite line_loop_components. by rewrite !line_component_collect.
Qed.

(** C8. Both loops of the notebook, the continuum of every row and the line
    maps: run over the rows in any order, they return the same arrays as
    in the order of [range], or fail in both cases; they are the per-row
    maps ([collect]) of a row value that is computed from row [yy] of the
    inputs alone; and an iteration changes row [yy] of its output arrays
    and nothing else. *)
Theorem row_loops_are_row_maps (bounds : list (Q * Q)) (deg : nat)
    (wave_2d data_2d line_2d : list (list Q)) (width : nat)
    (order : list nat) :
  order ≡ₚ seq 0 (length data_2d) →
  (∀ row, row ∈ data_2d → length row = width) →
  (* the continuum loop *)
  (∀ s, returned (for_loop (continuum_row_body fit_generic_continuum bounds deg
                              wave_2d data_2d) order s) =
        returned (for_loop (continuum_row_body fit_generic_continuum bounds deg
                              wave_2d data_2d) (seq 0 (length data_2d)) s)) ∧
  continuum_rows fit_generic_continuum bounds deg wave_2d data_2d =
    (n ← n_rows data_2d;
     collect (λ yy, v ← continuum_row_value fit_generic_continuum bounds deg
                          wave_2d data_2d yy;
                    fit_row width v) (seq 0 n)) ∧
  (∀ wave_2d' data_2d' yy,
     wave_2d !! yy = wave_2d' !! yy → data_2d !! yy = data_2d' !! yy →
     continuum_row_value fit_generic_continuum bounds deg wave_2d data_2d yy =
     continuum_row_value fit_generic_continuum bounds deg wave_2d' data_2d' yy) ∧
  (∀ s s' yy,
     continuum_row_body fit_generic_continuum bounds deg wave_2d data_2d s yy
       = Ok s' →
     length s' = length s ∧ ∀ yy', yy' ≠ yy → s' !! yy' = s !! yy') ∧
  (* the loop of the line maps *)
  (∀ s, returned (for_loop (line_row_body fit_lines wave_2d line_2d
                              (length data_2d)) order s) =
        returned (for_loop (line_row_body fit_lines wave_2d line_2d
                              (length data_2d)) (seq 0 (length data_2d)) s)) ∧
  returned (line_maps fit_lines wave_2d line_2d data_2d) =
    (n ← returned (n_rows data_2d);
     hb ← returned (collect (λ yy,
             v ← line_component fit_lines wave_2d line_2d (length data_2d)
                   (λ v, v.1.1) yy; fit_row (length data_2d) v) (seq 0 n));
     o3b ← returned (collect (λ yy,
             v ← line_component fit_lines wave_2d line_2d (length data_2d)
                   (λ v, v.1.2) yy; fit_row (length data_2d) v) (seq 0 n));
     o3r ← returned (collect (λ yy,
             v ← line_component fit_lines wave_2d line_2d (length data_2d)
                   (λ v, v.2) yy; fit_row (length data_2d) v) (seq 0 n));
     Some (hb, o3b, o3r)) ∧
  (∀ wave_2d' line_2d' yy,
     wave_2d !! yy = wave_2d' !! yy → line_2d !! yy = line_2d' !! yy →
     line_row_value fit_lines wave_2d line_2d (length data_2d) yy =
     line_row_value fit_lines wave_2d' line_2d' (length data_2d) yy) ∧
  (∀ s s' yy,
     line_row_body fit_lines wave_2d line_2d (length data_2d) s yy = Ok s' →
     ∀ yy', yy' ≠ yy →
       s'.1.1 !! yy' = s.1.1 !! yy' ∧ s'.1.2 !! yy' = s.1.2 !! yy' ∧
       s'.2 !! yy' = s.2 !! yy').
Proof.
  intros Hperm Hw. split_and!.
  - intros s. apply for_loop_permutation; [|done].
    apply continuum_row_body_commuting.
  - by apply continuum_rows_collect.
  - intros wave_2d' data_2d' yy Hwave Hdata.
    unfold continuum_row_value, index. by rewrite Hwave, Hdata.
  - intros s s' yy H. unfold continuum_row_body in H.
    destruct (continuum_row_value _ _ _ _ _ yy) as [v| |]; [|done..].
    cbn [mbind result_mbind result_bind] in H.
    apply assign_row_frame in H as (Hlen & Hother & _). by split.
  - intros [[a b] c]. rewrite !line_loop_components.
    rewrite !(for_loop_permutation _ order (seq 0 (length data_2d)))
      by (done || apply line_component_body_commuting).
    done.
  - apply line_maps_collect.
  - intros wave_2d' line_2d' yy Hwave Hline.
    unfold line_row_value, index. by rewrite Hwave, Hline.
  - intros [[a b] c] [[a' b'] c'] yy H yy' Hne.
    rewrite line_row_body_value in H.
    destruct (line_row_value _ _ _ _ yy) as [[[v1 v2] v3]| |]; [|done..].
    cbn [mbind result_mbind result_bind] in H.
    unfold assign_rows3 in H. cbn [fst snd] in *.
    destruct (assign_row a yy v1) as [a1| |] eqn:Ea; [|done..].
    cbn [mbind result_mbind result_bind] in H.
    destruct (assign_row b yy v2) as [b1| |] eqn:Eb; [|done..].
    cbn [mbind result_mbind result_bind] in H.
    destruct (assign_row c yy v3) as [c1| |] eqn:Ec; [|done..].
    cbn [mbind result_mbind result_bind] in H. injection H as <- <- <-.
    apply assign_row_frame in Ea as (_ & Ha & _).
    apply assign_row_frame in Eb as (_ & Hb & _).
    apply assign_row_frame in Ec as (_ & Hc & _).
    split_and!; auto.
Qed.

End RowLoopClaims.

Section RowFailureClaims.

Local Open Scope Q_scope.

Variable fit_generic_continuum :
  nat → list (Q * Q) → list Q → list Q → result (list Q).
Variable fit_lines :
  list Q → list Q → result ((Q → Q) * (Q → Q) * (Q → Q)).

Lemma n_rows_rectangular (a : list (list Q)) (width : nat) :
  (∀ row, row ∈ a → length row = width) → (0 < width)%nat →
  n_rows a = Ok (length a).
Proof.
  intros Hw Hpos. destruct a as [|[|x row] a]; [done| |done].
  specialize (Hw [] ltac:(by left)). cbn in Hw. lia.
Qed.

Lemma fit_row_same (width : nat) (v : list Q) :
  length v = width → fit_row width v = Ok v.
Proof. intros H. unfold fit_row. by rewrite decide_True. Qed.

(** C3, as the code has it.  Neither loop catches anything.  When the value
    of some row (its continuum fit, its line fit) does not return, the loop
    does not return either: no output array is produced.  When every row
    has a value of the width of the image, however poor the fit behind it,
    the continuum loop runs through all rows and row [yy] of its output is
    the value of row [yy]. *)
Theorem row_failure_stops_loop (bounds : list (Q * Q)) (deg : nat)
    (wave_2d data_2d line_2d : list (list Q)) (width : nat) :
  (∀ row, row ∈ data_2d → length row = width) → (0 < width)%nat →
  (∀ yy, (yy < length data_2d)%nat →
     returned (continuum_row_value fit_generic_continuum bounds deg
                 wave_2d data_2d yy) = None →
     returned (continuum_rows fit_generic_continuum bounds deg
                 wave_2d data_2d) = None) ∧
  (∀ yy, (yy < length data_2d)%nat →
     returned (line_row_value fit_lines wave_2d line_2d (length data_2d) yy)
       = None →
     returned (line_maps fit_lines wave_2d line_2d data_2d) = None) ∧
  ((∀ yy, (yy < length data_2d)%nat →
      ∃ v, continuum_row_value fit_generic_continuum bounds deg
             wave_2d data_2d yy = Ok v ∧ length v = width) →
   ∃ out, continuum_rows fit_generic_continuum bounds deg wave_2d data_2d
            = Ok out ∧
          length out = length data_2d ∧
          ∀ yy, (yy < length data_2d)%nat →
            ∃ v, continuum_row_value fit_generic_continuum bounds deg
                   wave_2d data_2d yy = Ok v ∧ out !! yy = Some v).
Proof.
  intros Hw Hpos.
  rewrite (continuum_rows_collect _ _ _ _ _ width), line_maps_collect,
    (n_rows_rectangular _ width) by done.
  cbn [mbind result_mbind result_bind option_bind returned].
  split_and!.
  - intros yy Hyy Hfail. apply (collect_fail _ _ yy).
    + apply elem_of_seq. lia.
    + destruct (continuum_row_value _ _ _ _ _ yy); [by cbn in Hfail|done..].
  - intros yy Hyy Hfail.
    assert (returned (collect (λ yy,
              v ← line_component fit_lines wave_2d line_2d (length data_2d)
                    (λ v, v.1.1) yy; fit_row (length data_2d) v)
              (seq 0 (length data_2d))) = None) as ->; [|done].
    apply (collect_fail _ _ yy); [apply elem_of_seq; lia|].
    unfold line_component.
    destruct (line_row_value _ _ _ _ yy); [by cbn in Hfail|done..].
  - intros Hall.
    destruct (collect_ok
                (λ yy, v ← continuum_row_value fit_generic_continuum bounds deg
                             wave_2d data_2d yy; fit_row width v)
                (seq 0 (length data_2d))) as (out & Hout & Hlen & Hrows).
    { intros yy Hyy. apply elem_of_seq in Hyy.
      destruct (Hall yy) as (v & -> & Hv); [lia|]. exists v.
      by apply fit_row_same. }
    exists out. rewrite length_seq in Hlen. split_and!; [done..|].
    intros yy Hyy. destruct (Hall yy Hyy) as (v & Hv & Hvlen).
    destruct (Hrows yy yy) as (a & Ha & Hlook).
    { by apply lookup_seq_lt. }
    exists v. split; [done|]. rewrite Hv in Ha.
    cbn [mbind result_mbind result_bind] in Ha.
    rewrite fit_row_same in Ha by done. by injection Ha as <-.
Qed.

End RowFailureClaims.

(** A stand-in for [fit_lines], of the right type only: three components
    that do not depend on the spectrum. *)
Definition fit_lines_stand_in (flux axis : list Q)
  : result ((Q → Q) * (Q → Q) * (Q → Q)) :=
  Ok (λ w, w, λ w, 2 * w, λ w, 3 * w)%Q.

(** Two images of two rows and four columns in the F150W range; in the
    second one no wavelength of the first row lies in a continuum window. *)
Definition wave_2x4_150 : list (list Q) :=
  [[136 # 100; 140 # 100; 144 # 100; 162 # 100];
   [137 # 100; 141 # 100; 145 # 100; 163 # 100]]%Q.
Definition wave_2x4_off : list (list Q) :=
  [[100 # 100; 110 # 100; 120 # 100; 130 # 100];
   [137 # 100; 141 # 100; 145 # 100; 163 # 100]]%Q.
Definition data_2x4 : list (list Q) := [[1; 2; 7; 3]; [2; 3; 9; 4]]%Q.

Ltac check_rows :=
  let row := fresh "row" in let Hin := fresh "Hin" in
  intros row Hin;
  repeat (apply elem_of_cons in Hin as [->|Hin]; [reflexivity|]);
  by apply elem_of_nil in Hin.

Lemma row_loops_are_row_maps_witness :
  [1; 0] ≡ₚ seq 0 (length data_2x4) ∧
  (∀ row, row ∈ data_2x4 → length row = 4) ∧
  ∀ s, returned (for_loop (continuum_row_body lstsq_fit bounds_150 1
                             wave_2x4_150 data_2x4) [1; 0] s) =
       returned (for_loop (continuum_row_body lstsq_fit bounds_150 1
                             wave_2x4_150 data_2x4)
                   (seq 0 (length data_2x4)) s).
Proof.
  assert (Hperm : [1; 0] ≡ₚ seq 0 (length data_2x4)) by apply perm_swap.
  assert (Hrows : ∀ row, row ∈ data_2x4 → length row = 4) by check_rows.
  split; [exact Hperm|]. split; [exact Hrows|].
  exact (proj1 (row_loops_are_row_maps lstsq_fit fit_lines_stand_in
                  bounds_150 1 wave_2x4_150 data_2x4 data_2x4 4 [1; 0]
                  Hperm Hrows)).
Defined.

Example flux_cont2d_150_example :
  continuum_rows lstsq_fit bounds_150 1 wave_2x4_off data_2x4
    = Raise InsufficientDataError ∧
  ∃ v, continuum_row_value lstsq_fit bounds_150 1 wave_2x4_off data_2x4 1
         = Ok v.
Proof. split; [vm_compute; reflexivity|]. vm_compute. by eexists. Qed.

Lemma row_failure_stops_loop_witness :
  (∀ row, row ∈ data_2x4 → length row = 4) ∧ 0 < 4 ∧
  returned (continuum_rows lstsq_fit bounds_150 1 wave_2x4_off data_2x4)
    = None.
Proof.
  assert (Hrows : ∀ row, row ∈ data_2x4 → length row = 4) by check_rows.
  split; [exact Hrows|]. split; [lia|].
  refine (proj1 (row_failure_stops_loop lstsq_fit fit_lines_stand_in
                   bounds_150 1 wave_2x4_off data_2x4 data_2x4 4
                   Hrows ltac:(lia)) 0 _ _).
  - cbn. lia.
  - vm_compute. reflexivity.
Defined.

(** * Further properties of the embedded code *)

(** ** Notebook 02: the redshift from the correlation maximum *)

Section PeakMaximumFacts.

Local Open Scope Q_scope.

Lemma Qltb_ge (x y : Q) : Qltb x y = false ↔ y <= x.
Proof.
  split.
  - intros H. apply Qnot_lt_le. intros Hlt. apply Qltb_lt in Hlt. congruence.
  - intros H. destruct (Qltb x y) eqn:E; [|done].
    apply Qltb_lt in E. lra.
Qed.

Lemma argmax_from_spec (a : list Q) :
  ∀ (pre : list Q) (best_i : nat) (best : Q),
    pre !! best_i = Some best →
    (∀ x, x ∈ pre → x <= best) →
    (∀ j x, (j < best_i)%nat → pre !! j = Some x → x < best) →
    ∃ m, (pre ++ a) !! argmax_from best_i best (length pre) a = Some m ∧
         (∀ x, x ∈ pre ++ a → x <= m) ∧
         (∀ j x, (j < argmax_from best_i best (length pre) a)%nat →
                 (pre ++ a) !! j = Some x → x < m).
Proof.
  induction a as [|y a IH]; intros pre best_i best Hb Hub Hfirst;
    cbn [argmax_from].
  - exists best. rewrite app_nil_r. done.
  - replace (pre ++ y :: a) with ((pre ++ [y]) ++ a) by by rewrite <- app_assoc.
    replace (S (length pre)) with (length (pre ++ [y]))
      by (rewrite length_app; cbn; lia).
    destruct (Qltb best y) eqn:E.
    + apply Qltb_lt in E. apply IH.
      * by rewrite list_lookup_middle.
      * intros x Hx. apply elem_of_app in Hx as [Hx|Hx].
        -- specialize (Hub x Hx). lra.
        -- apply list_elem_of_singleton in Hx as ->. lra.
      * intros j x Hj Hx. rewrite lookup_app_l in Hx by done.
        specialize (Hub x (list_elem_of_lookup_2 _ _ _ Hx)). lra.
    + apply Qltb_ge in E. apply IH.
      * apply lookup_app_l_Some. done.
      * intros x Hx. apply elem_of_app in Hx as [Hx|Hx]; [by apply Hub|].
        by apply list_elem_of_singleton in Hx as ->.
      * intros j x Hj Hx. apply (Hfirst j x Hj).
        rewrite lookup_app_l in Hx; [done|].
        apply lookup_lt_Some in Hb. lia.
Qed.

(** [np.argmax] answers the first index that holds the largest value. *)
Lemma np_argmax_spec (a : list Q) (i : nat) :
  np_argmax a = Ok i →
  ∃ m, a !! i = Some m ∧ (∀ x, x ∈ a → x <= m) ∧
       (∀ j x, (j < i)%nat → a !! j = Some x → x < m).
Proof.
  destruct a as [|y a]; [done|]. cbn [np_argmax]. intros [= <-].
  apply (argmax_from_spec a [y] 0%nat y).
  - done.
  - intros x Hx. apply list_elem_of_singleton in Hx as ->. lra.
  - intros j x Hj. lia.
Qed.

(** The cell "Redshift based on maximum" of notebook 02.  On an empty
    correlation [np.argmax] raises [ValueError].  Otherwise [index_peak] is
    the first index whose correlation is the largest one: a tie goes to the
    lowest lag index.  The cell then answers the lag [v] at that index and
    [z = v / c], or raises [IndexError] when [lag] stops before it. *)
Theorem redshift_from_maximum_first_peak (corr lag : list Q) :
  (corr = [] ∧ redshift_from_maximum corr lag = Raise ValueError) ∨
  (∃ index_peak m,
     corr !! index_peak = Some m ∧
     (∀ x, x ∈ corr → x <= m) ∧
     (∀ j x, (j < index_peak)%nat → corr !! j = Some x → x < m) ∧
     redshift_from_maximum corr lag =
       match lag !! index_peak with
       | Some v => Ok (v, v / c_km_s)
       | None => Raise IndexError
       end).
Proof.
  destruct corr as [|c corr]; [by left|]. right.
  assert (∃ i, np_argmax (c :: corr) = Ok i) as [i E] by by eexists.
  destruct (np_argmax_spec _ i E) as (m & Hm & Hub & Hfirst).
  exists i, m. split_and!; [done..|].
  unfold redshift_from_maximum. rewrite E.
  cbn [mbind result_mbind result_bind]. unfold index.
  by destruct (lag !! i).
Qed.

End PeakMaximumFacts.

(** ** Notebook 02: [read_hdf5] on files that are not well formed *)

Section ReadHdf5Edges.

Variable int : string → option Z.

(** The dataset of the last member of the file whose key converts to [z]. *)
Definition last_with_id (z : Z) (file_obj : list (string * dataset))
  : option dataset :=
  last (omap (λ item : string * dataset,
                if decide (int item.1 = Some z) then Some item.2 else None)
             file_obj).

Lemma last_with_id_cons (z : Z) (key : string) (d : dataset)
    (file_obj : list (string * dataset)) :
  last_with_id z ((key, d) :: file_obj) =
  match last_with_id z file_obj with
  | Some d' => Some d'
  | None => if decide (int key = Some z) then Some d else None
  end.
Proof.
  unfold last_with_id. cbn [omap list_omap fst snd].
  destruct (decide (int key = Some z)); cbn [omap list_omap].
  - rewrite last_cons. by destruct (last _).
  - by destruct (last _).
Qed.

Lemma read_hdf5_body_ok (s : gmap Z template_sed) (key : string) (d : dataset)
    (s' : gmap Z template_sed) :
  read_hdf5_body int s (key, d) = Ok s' →
  ∃ z e, int key = Some z ∧ sed_of d = Some e ∧ s' = <[z := e]> s.
Proof.
  unfold read_hdf5_body, index, sed_of.
  destruct (rows d !! 0) as [w|]; [|done].
  destruct (rows d !! 1) as [f|]; [|done].
  cbn [mbind result_mbind result_bind option_bind].
  destruct (int key) as [z|]; [|done].
  cbn [mbind result_mbind result_bind]. intros [= <-]. by eexists _, _.
Qed.

Lemma read_hdf5_loop_lookup (file_obj : list (string * dataset)) :
  ∀ s contents,
    for_loop (read_hdf5_body int) file_obj s = Ok contents →
    ∀ z, contents !! z =
         match last_with_id z file_obj with
         | Some d => sed_of d
         | None => s !! z
         end.
Proof.
  induction file_obj as [|[key d] file_obj IH]; intros s contents Hrun z.
  - cbn in Hrun. by injection Hrun as <-.
  - cbn [for_loop] in Hrun.
    destruct (read_hdf5_body int s (key, d)) as [s'| |] eqn:Ebody; [|done..].
    cbn [mbind result_mbind result_bind] in Hrun.
    apply read_hdf5_body_ok in Ebody as (z0 & e & Hz0 & He & ->).
    rewrite (IH _ _ Hrun z), last_with_id_cons.
    destruct (last_with_id z file_obj) as [d'|]; [done|].
    destruct (decide (int key = Some z)) as [Hkey|Hkey].
    + assert (z0 = z) as -> by congruence. by rewrite lookup_insert_eq.
    + rewrite lookup_insert_ne; [done|]. congruence.
Qed.

(** [read_hdf5] when several keys of the file convert to the same integer
    (['7'] and ['07'], say): nothing is checked, the assignment
    [contents[int(key)] = ...] overwrites, and the dictionary that is
    returned holds for every integer the two rows of the last member with
    that identifier, and no entry for an integer that no key converts to. *)
Theorem read_hdf5_last_member_wins (file_obj : list (string * dataset))
    (contents : gmap Z template_sed) :
  read_hdf5 int file_obj = Ok contents →
  ∀ z, contents !! z = last_with_id z file_obj ≫= sed_of.
Proof.
  intros Hrun z. unfold read_hdf5 in Hrun.
  rewrite (read_hdf5_loop_lookup _ _ _ Hrun z), lookup_empty.
  by destruct (last_with_id z file_obj).
Qed.

Lemma read_hdf5_loop_readable (pre : list (string * dataset)) :
  readable int pre →
  ∀ s, ∃ s', for_loop (read_hdf5_body int) pre s = Ok s'.
Proof.
  induction pre as [|[key d] pre IH]; intros Hr s; [by eexists|].
  destruct (Hr key d) as [[z Hz] Hrows]; [by left|].
  destruct (sed_of_readable d Hrows) as (w & f & Hw & Hf & _).
  destruct (IH (λ k d' Hin, Hr k d' (list_elem_of_further _ _ _ Hin))
              (<[z := TemplateSed w f]> s)) as [s' Hs'].
  exists s'. cbn [for_loop]. unfold read_hdf5_body, index.
  rewrite Hw, Hf. cbn [mbind result_mbind result_bind]. rewrite Hz.
  cbn [mbind result_mbind result_bind]. exact Hs'.
Qed.

(** [read_hdf5] gives no partial dictionary.  The first member of the file
    that cannot be read decides the outcome, whatever follows it: a dataset
    with fewer than two rows raises [IndexError] (this is tested first), a
    key that [int] rejects raises [ValueError]. *)
Theorem read_hdf5_first_bad_member (pre post : list (string * dataset))
    (key : string) (d : dataset) :
  readable int pre →
  (length (rows d) < 2 →
   read_hdf5 int (pre ++ (key, d) :: post) = Raise IndexError) ∧
  (2 ≤ length (rows d) → int key = None →
   read_hdf5 int (pre ++ (key, d) :: post) = Raise ValueError).
Proof.
  intros Hr. unfold read_hdf5. rewrite for_loop_app.
  destruct (read_hdf5_loop_readable pre Hr ∅) as [s ->].
  cbn [mbind result_mbind result_bind for_loop].
  unfold read_hdf5_body, index. split.
  - intros Hrows. destruct (rows d) as [|w [|f r]]; cbn in *; [done..|lia].
  - intros Hrows Hkey. destruct (rows d) as [|w [|f r]]; cbn in *; [lia..|].
    by rewrite Hkey.
Qed.

End ReadHdf5Edges.

(** Two keys for the template 7; the second member is the one that stays. *)
Definition sed_file_twice : list (string * dataset) :=
  [ ("7"%string, Dataset ∅ [[1.5%float]; [10%float]]);
    ("10709"%string, Dataset ∅ [[2.5%float]; [20%float]]);
    ("07"%string, Dataset ∅ [[0.5%float]; [3%float]]) ].

(** C9 fails as stated, for the function promises nothing about the keys
    themselves.  When two keys convert to one integer (['7'] and ['07']) the
    function returns, and the entry under the integer of the key ['7'] holds
    the rows of the other dataset.  When a key does not convert, or a
    dataset has a single row, no dictionary is returned at all: [int(key)]
    raises [ValueError], [dataset[1]] raises [IndexError]. *)
Lemma read_hdf5_key_without_its_rows :
  (∃ contents d,
     read_hdf5 int_decimal sed_file_twice = Ok contents ∧
     ("7"%string, d) ∈ sed_file_twice ∧
     int_decimal "7" = Some 7%Z ∧
     rows d !! 0 = Some [1.5%float] ∧ rows d !! 1 = Some [10%float] ∧
     contents !! 7%Z = Some (TemplateSed [0.5%float] [3%float]) ∧
     contents !! 7%Z ≠ Some (TemplateSed [1.5%float] [10%float])) ∧
  read_hdf5 int_decimal
    [("10709"%string, Dataset ∅ [[2.5%float]; [20%float]]);
     ("units"%string, Dataset ∅ [[0.5%float]; [3%float]])]
  = Raise ValueError ∧
  read_hdf5 int_decimal
    [("10709"%string, Dataset ∅ [[2.5%float; 20%float]])]
  = Raise IndexError.
Proof.
  split; [|split; reflexivity].
  eexists _, _. split; [reflexivity|]. split; [apply list_elem_of_here|].
  split; [reflexivity|]. split; [reflexivity|]. split; [reflexivity|].
  split; [reflexivity|].
  intros H. apply (f_equal (λ o, match o with
                                 | Some (TemplateSed [w] _) =>
                                     PrimFloat.eqb w 0.5%float
                                 | _ => false
                                 end)) in H.
  vm_compute in H. discriminate H.
Qed.

Lemma read_hdf5_last_member_wins_witness :
  ∃ contents, read_hdf5 int_decimal sed_file_twice = Ok contents ∧
    contents !! 7%Z = Some (TemplateSed [0.5%float] [3%float]).
Proof.
  eexists. split; [reflexivity|].
  rewrite (read_hdf5_last_member_wins int_decimal sed_file_twice _ eq_refl).
  reflexivity.
Defined.

Lemma read_hdf5_first_bad_member_witness :
  readable int_decimal [("7"%string, Dataset ∅ [[1.5%float]; [10%float]])] ∧
  read_hdf5 int_decimal
    ([("7"%string, Dataset ∅ [[1.5%float]; [10%float]])] ++
     ("8"%string, Dataset ∅ [[2.5%float]]) :: sed_file_example)
  = Raise IndexError ∧
  read_hdf5 int_decimal
    ([("7"%string, Dataset ∅ [[1.5%float]; [10%float]])] ++
     ("F8"%string, Dataset ∅ [[2.5%float]; [20%float]]) :: sed_file_example)
  = Raise ValueError.
Proof.
  assert (Hr : readable int_decimal
                 [("7"%string, Dataset ∅ [[1.5%float]; [10%float]])]).
  { intros key d Hin. apply list_elem_of_singleton in Hin as [= -> ->].
    split; [by eexists | cbn; lia]. }
  split; [exact Hr|]. split.
  - apply (read_hdf5_first_bad_member int_decimal _ sed_file_example
             "8"%string (Dataset ∅ [[2.5%float]]) Hr). cbn. lia.
  - apply (read_hdf5_first_bad_member int_decimal _ sed_file_example
             "F8"%string (Dataset ∅ [[2.5%float]; [20%float]]) Hr).
    + cbn. lia.
    + reflexivity.
Defined.

(** ** Notebook 03: the windows around a line centre *)

(** [row[int(index_lamcen-rsq/2.):int(index_lamcen+rsq/2.)]]: [int]
    truncates towards zero, and the slice treats a negative start as an
    offset from the end of the row. *)
Definition cut_window {A} (rsq index_lamcen : nat) (row : list A) : list A :=
  py_slice (Z.quot (2 * Z.of_nat index_lamcen - Z.of_nat rsq) 2)
           (Z.quot (2 * Z.of_nat index_lamcen + Z.of_nat rsq) 2) row.

Section CutWindowFacts.

Local Open Scope Q_scope.

Lemma argmin_from_spec (a : list Q) :
  ∀ (pre : list Q) (best_i : nat) (best : Q),
    pre !! best_i = Some best →
    (∀ x, x ∈ pre → best <= x) →
    (∀ j x, (j < best_i)%nat → pre !! j = Some x → best < x) →
    ∃ m, (pre ++ a) !! argmin_from best_i best (length pre) a = Some m ∧
         (∀ x, x ∈ pre ++ a → m <= x) ∧
         (∀ j x, (j < argmin_from best_i best (length pre) a)%nat →
                 (pre ++ a) !! j = Some x → m < x).
Proof.
  induction a as [|y a IH]; intros pre best_i best Hb Hlb Hfirst;
    cbn [argmin_from].
  - exists best. rewrite app_nil_r. done.
  - replace (pre ++ y :: a) with ((pre ++ [y]) ++ a) by by rewrite <- app_assoc.
    replace (S (length pre)) with (length (pre ++ [y]))
      by (rewrite length_app; cbn; lia).
    destruct (Qltb y best) eqn:E.
    + apply Qltb_lt in E. apply IH.
      * by rewrite list_lookup_middle.
      * intros x Hx. apply elem_of_app in Hx as [Hx|Hx].
        -- specialize (Hlb x Hx). lra.
        -- apply list_elem_of_singleton in Hx as ->. lra.
      * intros j x Hj Hx. rewrite lookup_app_l in Hx by done.
        specialize (Hlb x (list_elem_of_lookup_2 _ _ _ Hx)). lra.
    + apply Qltb_ge in E. apply IH.
      * apply lookup_app_l_Some. done.
      * intros x Hx. apply elem_of_app in Hx as [Hx|Hx]; [by apply Hlb|].
        by apply list_elem_of_singleton in Hx as ->.
      * intros j x Hj Hx. apply (Hfirst j x Hj).
        rewrite lookup_app_l in Hx; [done|].
        apply lookup_lt_Some in Hb. lia.
Qed.

(** [np.argmin] answers the first index that holds the smallest value. *)
Lemma np_argmin_spec (a : list Q) (i : nat) :
  np_argmin a = Ok i →
  ∃ m, a !! i = Some m ∧ (∀ x, x ∈ a → m <= x) ∧
       (∀ j x, (j < i)%nat → a !! j = Some x → m < x).
Proof.
  destruct a as [|y a]; [done|]. cbn [np_argmin]. intros [= <-].
  apply (argmin_from_spec a [y] 0%nat y).
  - done.
  - intros x Hx. apply list_elem_of_singleton in Hx as ->. lra.
  - intros j x Hj. lia.
Qed.

Lemma quot2_spec (x : Z) :
  (x = 2 * Z.quot x 2 + Z.rem x 2 ∧
   (0 <= x → 0 <= Z.rem x 2 < 2) ∧ (x <= 0 → -2 < Z.rem x 2 <= 0))%Z.
Proof.
  split; [apply Z.quot_rem'|]. split; intros H.
  - apply Z.rem_bound_pos; lia.
  - pose proof (Z.rem_bound_pos_neg x 2). lia.
Qed.

Lemma py_slice_length {A} (start stop : Z) (l : list A) :
  length (py_slice start stop l) =
  (slice_index (length l) stop - slice_index (length l) start)%nat.
Proof.
  unfold py_slice. rewrite length_take, length_drop.
  assert (slice_index (length l) stop <= length l)%nat;
    [|lia].
  unfold slice_index. destruct (Z.ltb_spec stop 0); lia.
Qed.

Lemma py_slice_inside {A} (start stop : Z) (l : list A) :
  (0 <= start)%Z → (start <= stop)%Z → (stop <= Z.of_nat (length l))%Z →
  py_slice start stop l =
  take (Z.to_nat stop - Z.to_nat start) (drop (Z.to_nat start) l).
Proof.
  intros H0 H1 H2. unfold py_slice.
  rewrite !slice_index_nonneg by lia. f_equal; [lia|f_equal; lia].
Qed.

End CutWindowFacts.

Section CutWindowClaims.

Local Open Scope Q_scope.

(** The window [row[int(index-rsq/2.):int(index+rsq/2.)]] that the line
    maps of notebook 03 copy into a row of [rsq] pixels.  It never has more
    than [rsq] samples, and it has [rsq] of them exactly when it lies inside
    the row: [rsq/2 <= index] and [index + rsq/2 <= len(row)].  Closer to
    the left edge the start is clipped at 0 or, once negative, counts from
    the end of the row; past the right edge the stop is clipped; the window
    is then shorter. *)
Theorem cut_window_length {A} (rsq index_lamcen : nat) (row : list A) :
  (index_lamcen < length row)%nat →
  (length (cut_window rsq index_lamcen row) <= rsq)%nat ∧
  (length (cut_window rsq index_lamcen row) = rsq ↔
   (rsq <= 2 * index_lamcen ∧ index_lamcen + rsq / 2 <= length row)%nat).
Proof.
  intros Hi. unfold cut_window. rewrite py_slice_length. unfold slice_index.
  pose proof (quot2_spec (2 * Z.of_nat index_lamcen - Z.of_nat rsq))
    as (Hs & Hs_pos & Hs_neg).
  pose proof (quot2_spec (2 * Z.of_nat index_lamcen + Z.of_nat rsq))
    as (He & He_pos & _).
  pose proof (Nat.div_mod_eq rsq 2) as Hdiv.
  pose proof (Nat.mod_upper_bound rsq 2 ltac:(lia)) as Hmod.
  revert Hs Hs_pos Hs_neg He He_pos.
  generalize (Z.quot (2 * Z.of_nat index_lamcen - Z.of_nat rsq) 2).
  generalize (Z.rem (2 * Z.of_nat index_lamcen - Z.of_nat rsq) 2).
  generalize (Z.quot (2 * Z.of_nat index_lamcen + Z.of_nat rsq) 2).
  generalize (Z.rem (2 * Z.of_nat index_lamcen + Z.of_nat rsq) 2).
  intros re qe rs qs Hs Hs_pos Hs_neg He He_pos.
  destruct (Z.ltb_spec qe 0), (Z.ltb_spec qs 0); lia.
Qed.

End CutWindowClaims.

(** ** Notebook 03: the H-alpha map

[[
    rsq = data_2d.shape[0]
    cut_ha = np.zeros((rsq, rsq), 'float32')
    zin = 2.1
    lamcen = 0.6564 * (1. + zin)
    for yy in range(len(data_2d[:, 0])):
        index_lamcen = np.argmin(np.abs(lamcen - wave_2d[yy, :]))
        cut_ha[yy, :] = (data_2d - flux_cont2d)[
            yy, int(index_lamcen-rsq/2.):int(index_lamcen+rsq/2.)]
]]
    The values are kept exact; the rounding to [float32] of the stored
    array is not modelled. *)

Fixpoint traverse {A B} (f : A → result B) (l : list A) : result (list B) :=
  match l with
  | [] => Ok []
  | x :: l => y ← f x; ys ← traverse f l; Ok (y :: ys)
  end.

Section HalphaMap.

Local Open Scope Q_scope.

(** [a - b] on two-dimensional arrays, with numpy's broadcasting in both
    dimensions. *)
Definition np_subtract2d (a b : list (list Q)) : result (list (list Q)) :=
  rows ← broadcast2 pair a b;
  traverse (λ ab : list Q * list Q, broadcast2 Qminus ab.1 ab.2) rows.

(** [np.argmin(np.abs(lamcen - wave_row))] *)
Definition nearest_index (lamcen : Q) (wave_row : list Q) : result nat :=
  np_argmin ((λ w, Qabs (lamcen - w)) <$> wave_row).

Definition lamcen_ha : Q := (6564 # 10000) * (1 + (21 # 10)).

(** What iteration [yy] computes before it assigns. *)
Definition ha_row_value (lamcen : Q)
    (wave_2d data_2d flux_cont2d : list (list Q)) (rsq : nat) (yy : nat)
  : result (list Q) :=
  wave_row ← index IndexError wave_2d yy;
  index_lamcen ← nearest_index lamcen wave_row;
  diff ← np_subtract2d data_2d flux_cont2d;
  row ← index IndexError diff yy;
  Ok (cut_window rsq index_lamcen row).

Definition ha_row_body (lamcen : Q)
    (wave_2d data_2d flux_cont2d : list (list Q)) (rsq : nat)
    (cut_ha : list (list Q)) (yy : nat) : result (list (list Q)) :=
  v ← ha_row_value lamcen wave_2d data_2d flux_cont2d rsq yy;
  assign_row cut_ha yy v.

Definition cut_ha (wave_2d data_2d flux_cont2d : list (list Q))
  : result (list (list Q)) :=
  let rsq := length data_2d in
  n ← n_rows data_2d;
  for_loop (ha_row_body lamcen_ha wave_2d data_2d flux_cont2d rsq)
           (seq 0 n) (np_zeros rsq rsq).

(** An array of [r] rows and [c] columns. *)
Definition shape (r c : nat) (a : list (list Q)) : Prop :=
  length a = r ∧ ∀ row, row ∈ a → length row = c.

(** The window lies inside a row of [c] samples. *)
Definition window_inside (rsq c index_lamcen : nat) : Prop :=
  (rsq <= 2 * index_lamcen ∧ index_lamcen + rsq / 2 <= c)%nat.

#[global] Instance window_inside_dec rsq c i : Decision (window_inside rsq c i).
Proof. unfold window_inside. apply _. Defined.

End HalphaMap.

Section HalphaFacts.

Local Open Scope Q_scope.

Lemma line_cut_nearest (lamcen : Q) (rsq : nat) (wave_row : list Q)
    (g : Q → Q) :
  line_cut lamcen rsq wave_row g =
  (index_lamcen ← nearest_index lamcen wave_row;
   Ok (cut_window rsq index_lamcen (g <$> wave_row))).
Proof. reflexivity. Qed.

Lemma nearest_index_lt (lamcen : Q) (wave_row : list Q) (i : nat) :
  nearest_index lamcen wave_row = Ok i → (i < length wave_row)%nat.
Proof.
  intros H. apply np_argmin_spec in H as (m & Hm & _).
  apply lookup_lt_Some in Hm. by rewrite length_fmap in Hm.
Qed.

Lemma nearest_index_nonempty (lamcen : Q) (wave_row : list Q) :
  (0 < length wave_row)%nat → ∃ i, nearest_index lamcen wave_row = Ok i.
Proof. destruct wave_row; cbn; [lia|]. intros _. by eexists. Qed.

Lemma cut_window_inside {A} (rsq index_lamcen : nat) (row : list A) :
  window_inside rsq (length row) index_lamcen →
  cut_window rsq index_lamcen row =
  take rsq (drop (index_lamcen - (rsq + 1) / 2) row).
Proof.
  intros [H1 H2]. unfold cut_window.
  pose proof (quot2_spec (2 * Z.of_nat index_lamcen - Z.of_nat rsq))
    as (Hs & Hs_pos & _).
  pose proof (quot2_spec (2 * Z.of_nat index_lamcen + Z.of_nat rsq))
    as (He & He_pos & _).
  pose proof (Nat.div_mod_eq rsq 2) as Hdiv.
  pose proof (Nat.mod_upper_bound rsq 2 ltac:(lia)) as Hmod.
  pose proof (Nat.div_mod_eq (rsq + 1) 2) as Hdiv'.
  pose proof (Nat.mod_upper_bound (rsq + 1) 2 ltac:(lia)) as Hmod'.
  rewrite py_slice_inside by lia. f_equal; [lia|f_equal; lia].
Qed.

Lemma cut_window_outside {A} (rsq index_lamcen : nat) (row : list A) :
  (index_lamcen < length row)%nat → (rsq <= length row)%nat →
  ¬ window_inside rsq (length row) index_lamcen →
  length (cut_window rsq index_lamcen row) ≠ rsq ∧
  length (cut_window rsq index_lamcen row) ≠ 1%nat.
Proof.
  intros Hi Hr Hout. unfold window_inside in Hout.
  unfold cut_window. rewrite py_slice_length. unfold slice_index.
  pose proof (quot2_spec (2 * Z.of_nat index_lamcen - Z.of_nat rsq))
    as (Hs & Hs_pos & Hs_neg).
  pose proof (quot2_spec (2 * Z.of_nat index_lamcen + Z.of_nat rsq))
    as (He & He_pos & _).
  pose proof (Nat.div_mod_eq rsq 2) as Hdiv.
  pose proof (Nat.mod_upper_bound rsq 2 ltac:(lia)) as Hmod.
  revert Hs Hs_pos Hs_neg He He_pos.
  generalize (Z.quot (2 * Z.of_nat index_lamcen - Z.of_nat rsq) 2).
  generalize (Z.rem (2 * Z.of_nat index_lamcen - Z.of_nat rsq) 2).
  generalize (Z.quot (2 * Z.of_nat index_lamcen + Z.of_nat rsq) 2).
  generalize (Z.rem (2 * Z.of_nat index_lamcen + Z.of_nat rsq) 2).
  intros re qe rs qs Hs Hs_pos Hs_neg He He_pos.
  destruct (Z.ltb_spec qe 0), (Z.ltb_spec qs 0); lia.
Qed.

Lemma fit_row_window (rsq index_lamcen : nat) (row : list Q) :
  (index_lamcen < length row)%nat → (rsq <= length row)%nat →
  fit_row rsq (cut_window rsq index_lamcen row) =
  if decide (window_inside rsq (length row) index_lamcen)
  then Ok (take rsq (drop (index_lamcen - (rsq + 1) / 2) row))
  else Raise ValueError.
Proof.
  intros Hi Hr. destruct (decide _) as [Hin|Hout].
  - rewrite cut_window_inside by done. apply fit_row_same.
    destruct Hin as [H1 H2].
    pose proof (Nat.div_mod_eq rsq 2) as Hdiv.
    pose proof (Nat.mod_upper_bound rsq 2 ltac:(lia)) as Hmod.
    pose proof (Nat.div_mod_eq (rsq + 1) 2) as Hdiv'.
    pose proof (Nat.mod_upper_bound (rsq + 1) 2 ltac:(lia)) as Hmod'.
    rewrite length_take, length_drop. lia.
  - destruct (cut_window_outside rsq index_lamcen row Hi Hr Hout) as [H1 H2].
    unfold fit_row. rewrite decide_False by done.
    by destruct (cut_window rsq index_lamcen row) as [|v [|v' l]].
Qed.

Lemma traverse_zip_rows (a b : list (list Q)) (c : nat) :
  (∀ row, row ∈ a → length row = c) → (∀ row, row ∈ b → length row = c) →
  traverse (λ ab : list Q * list Q, broadcast2 Qminus ab.1 ab.2) (zip a b) =
  Ok (zip_with (zip_with Qminus) a b).
Proof.
  revert b. induction a as [|ra a IH]; intros [|rb b] Ha Hb; try done.
  cbn [zip zip_with traverse fst snd].
  rewrite broadcast2_same_length.
  2:{ rewrite (Ha ra), (Hb rb); [done|by left..]. }
  cbn [mbind result_mbind result_bind].
  rewrite (IH b).
  - done.
  - intros row Hrow. apply Ha. by right.
  - intros row Hrow. apply Hb. by right.
Qed.

Lemma np_subtract2d_shape (r c : nat) (a b : list (list Q)) :
  shape r c a → shape r c b →
  np_subtract2d a b = Ok (zip_with (zip_with Qminus) a b).
Proof.
  intros [Ha1 Ha2] [Hb1 Hb2]. unfold np_subtract2d.
  rewrite broadcast2_same_length by lia.
  cbn [mbind result_mbind result_bind]. by apply (traverse_zip_rows _ _ c).
Qed.

Lemma collect_ok_inv {A} (f : nat → result A) (ys : list nat) (l : list A) :
  collect f ys = Ok l →
  length l = length ys ∧
  ∀ i yy, ys !! i = Some yy → ∃ a, f yy = Ok a ∧ l !! i = Some a.
Proof.
  revert l. induction ys as [|y ys IH]; intros l H; cbn [collect] in H.
  - injection H as <-. split; [done|]. by intros i yy Hi.
  - destruct (f y) as [a| |] eqn:Ea; [|done..].
    cbn [mbind result_mbind result_bind] in H.
    destruct (collect f ys) as [l'| |]; [|done..].
    cbn [mbind result_mbind result_bind] in H. injection H as <-.
    destruct (IH l' eq_refl) as [Hlen Hrows].
    split; [cbn; lia|]. intros [|i] yy Hi; cbn in Hi.
    + injection Hi as <-. by exists a.
    + by apply Hrows.
Qed.

(** The value of iteration [yy] on arrays of one shape. *)
Lemma ha_row_value_shape (lamcen : Q) (r c : nat)
    (wave_2d data_2d flux_cont2d : list (list Q)) (rsq yy : nat)
    (wave_row data_row cont_row : list Q) :
  shape r c data_2d → shape r c flux_cont2d →
  wave_2d !! yy = Some wave_row → data_2d !! yy = Some data_row →
  flux_cont2d !! yy = Some cont_row →
  ha_row_value lamcen wave_2d data_2d flux_cont2d rsq yy =
  (index_lamcen ← nearest_index lamcen wave_row;
   Ok (cut_window rsq index_lamcen (zip_with Qminus data_row cont_row))).
Proof.
  intros Hd Hc Hw Hdr Hcr. unfold ha_row_value, index. rewrite Hw.
  cbn [mbind result_mbind result_bind].
  destruct (nearest_index lamcen wave_row) as [i| |]; [|done..].
  cbn [mbind result_mbind result_bind].
  rewrite (np_subtract2d_shape r c) by done.
  cbn [mbind result_mbind result_bind].
  by rewrite lookup_zip_with, Hdr, Hcr.
Qed.

Lemma ha_loop_collect (lamcen : Q)
    (wave_2d data_2d flux_cont2d : list (list Q)) (rsq : nat) :
  for_loop (ha_row_body lamcen wave_2d data_2d flux_cont2d rsq)
    (seq 0 rsq) (np_zeros rsq rsq) =
  collect (λ yy, v ← ha_row_value lamcen wave_2d data_2d flux_cont2d rsq yy;
                 fit_row rsq v) (seq 0 rsq).
Proof.
  unfold ha_row_body.
  rewrite (for_loop_assign_rows _ rsq rsq 0).
  - destruct (collect _ _) as [rows| |] eqn:E; [|done..].
    cbn [mbind result_mbind result_bind].
    rewrite take_0, drop_ge, app_nil_r; [done|].
    unfold np_zeros. rewrite length_replicate. lia.
  - unfold np_zeros. rewrite length_replicate. lia.
  - intros i row _ Hrow. unfold np_zeros in Hrow.
    apply lookup_replicate in Hrow as [-> _]. by rewrite length_replicate.
Qed.

End HalphaFacts.

Section HalphaClaims.

Local Open Scope Q_scope.

(** Where the line centre lands in a window.  [index_lamcen] is the first
    pixel of the row whose wavelength is nearest to [lamcen]; when the
    window of [rsq >= 2] pixels lies inside the row it has [rsq] pixels and
    the pixel [index_lamcen] is its column [(rsq + 1) / 2]: the middle
    column [rsq / 2] for an even [rsq], one column right of the middle for
    an odd one. *)
Theorem window_holds_nearest_pixel {A} (lamcen : Q) (rsq : nat)
    (wave_row : list Q) (row : list A) (index_lamcen : nat) :
  length row = length wave_row →
  nearest_index lamcen wave_row = Ok index_lamcen →
  (2 <= rsq)%nat →
  window_inside rsq (length row) index_lamcen →
  ∃ w v,
    wave_row !! index_lamcen = Some w ∧
    (∀ w', w' ∈ wave_row → Qabs (lamcen - w) <= Qabs (lamcen - w')) ∧
    (∀ j w', (j < index_lamcen)%nat → wave_row !! j = Some w' →
             Qabs (lamcen - w) < Qabs (lamcen - w')) ∧
    row !! index_lamcen = Some v ∧
    length (cut_window rsq index_lamcen row) = rsq ∧
    cut_window rsq index_lamcen row !! ((rsq + 1) / 2)%nat = Some v.
Proof.
  intros Hlen Hidx Hrsq Hin.
  pose proof (nearest_index_lt _ _ _ Hidx) as Hlt.
  apply np_argmin_spec in Hidx as (m & Hm & Hmin & Hfirst).
  rewrite list_lookup_fmap in Hm.
  destruct (wave_row !! index_lamcen) as [w|] eqn:Ew; [|done].
  injection Hm as <-.
  destruct (lookup_lt_is_Some_2 row index_lamcen) as [v Hv]; [lia|].
  exists w, v. split_and!; [done| | |done|..].
  - intros w' Hw'. apply Hmin. apply list_elem_of_fmap. by exists w'.
  - intros j w' Hj Hw'. apply (Hfirst j); [done|].
    by rewrite list_lookup_fmap, Hw'.
  - rewrite cut_window_inside by done. destruct Hin as [H1 H2].
    pose proof (Nat.div_mod_eq rsq 2) as Hdiv.
    pose proof (Nat.mod_upper_bound rsq 2 ltac:(lia)) as Hmod.
    pose proof (Nat.div_mod_eq (rsq + 1) 2) as Hdiv'.
    pose proof (Nat.mod_upper_bound (rsq + 1) 2 ltac:(lia)) as Hmod'.
    rewrite length_take, length_drop. lia.
  - rewrite cut_window_inside by done. destruct Hin as [H1 H2].
    pose proof (Nat.div_mod_eq rsq 2) as Hdiv.
    pose proof (Nat.mod_upper_bound rsq 2 ltac:(lia)) as Hmod.
    pose proof (Nat.div_mod_eq (rsq + 1) 2) as Hdiv'.
    pose proof (Nat.mod_upper_bound (rsq + 1) 2 ltac:(lia)) as Hmod'.
    rewrite lookup_take_lt by lia. rewrite lookup_drop.
    rewrite <- Hv. f_equal. lia.
Qed.

(** The H-alpha loop on an image of [r] rows and [c >= r] columns, with
    wavelengths and fitted continuum of the same shape.  The loop returns
    exactly when the window of every row lies inside the row; a row whose
    line centre is nearer than [r/2] to either end of the row ends it with
    a [ValueError] of the assignment.  When it returns, [cut_ha] is
    [r] by [r] and its row [yy] is the window of [data_2d - flux_cont2d] in
    row [yy], placed by the wavelengths of that row alone. *)
Theorem cut_ha_rows (r c : nat) (wave_2d data_2d flux_cont2d : list (list Q)) :
  shape r c wave_2d → shape r c data_2d → shape r c flux_cont2d →
  (1 <= r <= c)%nat →
  (is_Some (returned (cut_ha wave_2d data_2d flux_cont2d)) ↔
   ∀ yy wave_row index_lamcen,
     wave_2d !! yy = Some wave_row →
     nearest_index lamcen_ha wave_row = Ok index_lamcen →
     window_inside r c index_lamcen) ∧
  (∀ out, cut_ha wave_2d data_2d flux_cont2d = Ok out →
     shape r r out ∧
     ∀ yy wave_row data_row cont_row index_lamcen,
       wave_2d !! yy = Some wave_row → data_2d !! yy = Some data_row →
       flux_cont2d !! yy = Some cont_row →
       nearest_index lamcen_ha wave_row = Ok index_lamcen →
       out !! yy =
         Some (take r (drop (index_lamcen - (r + 1) / 2)
                         (zip_with Qminus data_row cont_row)))).
Proof.
  intros Hw Hd Hc Hrc.
  assert (Hrun : cut_ha wave_2d data_2d flux_cont2d =
            collect (λ yy, v ← ha_row_value lamcen_ha wave_2d data_2d
                                 flux_cont2d r yy; fit_row r v) (seq 0 r)).
  { unfold cut_ha. destruct Hd as [Hd1 Hd2].
    rewrite (n_rows_rectangular _ c) by (done || lia). rewrite Hd1.
    cbn [mbind result_mbind result_bind]. apply ha_loop_collect. }
  assert (Hrow : ∀ yy wave_row data_row cont_row index_lamcen,
            wave_2d !! yy = Some wave_row → data_2d !! yy = Some data_row →
            flux_cont2d !! yy = Some cont_row →
            nearest_index lamcen_ha wave_row = Ok index_lamcen →
            (v ← ha_row_value lamcen_ha wave_2d data_2d flux_cont2d r yy;
             fit_row r v) =
            if decide (window_inside r c index_lamcen)
            then Ok (take r (drop (index_lamcen - (r + 1) / 2)
                               (zip_with Qminus data_row cont_row)))
            else Raise ValueError).
  { intros yy wave_row data_row cont_row i Hwr Hdr Hcr Hi.
    rewrite (ha_row_value_shape _ r c _ _ _ _ _ wave_row data_row cont_row)
      by done.
    rewrite Hi. cbn [mbind result_mbind result_bind].
    assert (Hlen : length (zip_with Qminus data_row cont_row) = c).
    { rewrite length_zip_with.
      destruct Hd as [_ Hd], Hc as [_ Hc].
      rewrite (Hd data_row), (Hc cont_row);
        [lia|by eapply list_elem_of_lookup_2..]. }
    pose proof (fit_row_window r i (zip_with Qminus data_row cont_row))
      as Hfit.
    rewrite Hlen in Hfit. apply Hfit; [|lia].
    apply nearest_index_lt in Hi. destruct Hw as [_ Hw].
    rewrite (Hw wave_row) in Hi; [done|by eapply list_elem_of_lookup_2]. }
  assert (Hrows3 : ∀ yy, (yy < r)%nat →
            ∃ wave_row data_row cont_row index_lamcen,
              wave_2d !! yy = Some wave_row ∧ data_2d !! yy = Some data_row ∧
              flux_cont2d !! yy = Some cont_row ∧
              nearest_index lamcen_ha wave_row = Ok index_lamcen).
  { intros yy Hyy. destruct Hw as [Hw1 Hw2], Hd as [Hd1 _], Hc as [Hc1 _].
    destruct (lookup_lt_is_Some_2 wave_2d yy) as [wr Hwr]; [lia|].
    destruct (lookup_lt_is_Some_2 data_2d yy) as [dr Hdr]; [lia|].
    destruct (lookup_lt_is_Some_2 flux_cont2d yy) as [cr Hcr]; [lia|].
    destruct (nearest_index_nonempty lamcen_ha wr) as [i Hi].
    { rewrite (Hw2 wr); [lia|by eapply list_elem_of_lookup_2]. }
    by exists wr, dr, cr, i. }
  rewrite Hrun. split.
  - split.
    + intros [out Hout] yy wave_row i Hwr Hi.
      destruct (collect _ _) as [l| |] eqn:El; [|done..].
      apply collect_ok_inv in El as [_ Hl].
      assert (Hyy : (yy < r)%nat).
      { apply lookup_lt_Some in Hwr. destruct Hw as [Hw1 _]. lia. }
      destruct (Hrows3 yy Hyy) as (wr & dr & cr & i' & Hwr' & Hdr & Hcr & Hi').
      assert (wr = wave_row) as -> by congruence.
      assert (i' = i) as -> by congruence.
      destruct (Hl yy yy) as (a & Ha & _); [by apply lookup_seq_lt|].
      rewrite (Hrow yy wave_row dr cr i) in Ha by done.
      by destruct (decide (window_inside r c i)).
    + intros Hall.
      destruct (collect_ok
                  (λ yy, v ← ha_row_value lamcen_ha wave_2d data_2d
                               flux_cont2d r yy; fit_row r v) (seq 0 r))
        as (l & -> & _); [|by eexists].
      intros yy Hyy. apply elem_of_seq in Hyy.
      destruct (Hrows3 yy) as (wr & dr & cr & i & Hwr & Hdr & Hcr & Hi);
        [lia|].
      rewrite (Hrow yy wr dr cr i) by done.
      rewrite decide_True by by eapply Hall. by eexists.
  - intros out Hout. apply collect_ok_inv in Hout as [Hlen Hl].
    rewrite length_seq in Hlen. split.
    + split; [done|]. intros row Hin.
      apply list_elem_of_lookup in Hin as [yy Hyy].
      pose proof (lookup_lt_Some _ _ _ Hyy) as Hlt.
      destruct (Hl yy yy) as (a & Ha & Hlook); [apply lookup_seq_lt; lia|].
      assert (a = row) as -> by congruence.
      destruct (ha_row_value _ _ _ _ _ yy) as [v| |]; [|done..].
      cbn [mbind result_mbind result_bind] in Ha.
      by apply fit_row_length in Ha.
    + intros yy wave_row data_row cont_row i Hwr Hdr Hcr Hi.
      assert (Hyy : (yy < r)%nat).
      { apply lookup_lt_Some in Hwr. destruct Hw as [Hw1 _]. lia. }
      destruct (Hl yy yy) as (a & Ha & ->); [by apply lookup_seq_lt|].
      rewrite (Hrow yy wave_row data_row cont_row i) in Ha by done.
      destruct (decide (window_inside r c i)); [|done]. by injection Ha as <-.
Qed.

End HalphaClaims.

(** An image of two rows and four columns whose wavelengths are tilted from
    one row to the next, and the same image with the line centre moved to
    the first column of the second row. *)
Definition wave_2x4 : list (list Q) :=
  [[200 # 100; 202 # 100; 204 # 100; 206 # 100];
   [199 # 100; 201 # 100; 203 # 100; 205 # 100]]%Q.
Definition cont_2x4 : list (list Q) := [[1; 1; 2; 2]; [1; 2; 2; 3]]%Q.
Definition wave_2x4_edge : list (list Q) :=
  [[200 # 100; 202 # 100; 204 # 100; 206 # 100];
   [204 # 100; 206 # 100; 208 # 100; 210 # 100]]%Q.

Example cut_ha_example :
  cut_ha wave_2x4 data_2x4 cont_2x4 = Ok [[1; 5]; [1; 7]]%Q ∧
  cut_ha wave_2x4_edge data_2x4 cont_2x4 = Raise ValueError.
Proof. split; vm_compute; reflexivity. Qed.

Lemma cut_window_length_witness :
  (1 < length [10; 11; 12; 13; 14; 15]%nat)%nat ∧
  (length (cut_window 4 1 [10; 11; 12; 13; 14; 15]%nat) <= 4)%nat ∧
  length (cut_window 4 3 [10; 11; 12; 13; 14; 15]%nat) = 4%nat.
Proof.
  split; [cbn; lia|]. split.
  - apply (cut_window_length 4 1 [10; 11; 12; 13; 14; 15]%nat). cbn. lia.
  - apply (cut_window_length 4 3 [10; 11; 12; 13; 14; 15]%nat); cbn; lia.
Defined.

Lemma window_holds_nearest_pixel_witness :
  nearest_index lamcen_ha [200 # 100; 202 # 100; 204 # 100; 206 # 100]%Q
    = Ok 2%nat ∧
  window_inside 2 4 2 ∧
  ∃ w v, [200 # 100; 202 # 100; 204 # 100; 206 # 100]%Q !! 2%nat = Some w ∧
         [1; 2; 7; 3]%Q !! 2%nat = Some v ∧
         cut_window 2 2 [1; 2; 7; 3]%Q !! 1%nat = Some v.
Proof.
  assert (Hin : window_inside 2 4 2) by (split; cbn; lia).
  split; [vm_compute; reflexivity|]. split; [exact Hin|].
  destruct (window_holds_nearest_pixel lamcen_ha 2
              [200 # 100; 202 # 100; 204 # 100; 206 # 100]%Q [1; 2; 7; 3]%Q 2
              eq_refl eq_refl ltac:(lia) Hin)
    as (w & v & Hw & _ & _ & Hv & _ & Hcut).
  by exists w, v.
Defined.

Ltac check_shape :=
  split; [reflexivity|];
  let row := fresh "row" in let Hin := fresh "Hin" in
  intros row Hin;
  repeat (apply elem_of_cons in Hin as [->|Hin]; [reflexivity|]);
  by apply elem_of_nil in Hin.

Lemma cut_ha_rows_witness :
  shape 2 4 wave_2x4 ∧ shape 2 4 data_2x4 ∧ shape 2 4 cont_2x4 ∧
  (1 <= 2 <= 4)%nat ∧
  ∀ out, cut_ha wave_2x4 data_2x4 cont_2x4 = Ok out → shape 2 2 out.
Proof.
  assert (Hw : shape 2 4 wave_2x4) by check_shape.
  assert (Hd : shape 2 4 data_2x4) by check_shape.
  assert (Hc : shape 2 4 cont_2x4) by check_shape.
  split_and!; [done..|lia|lia|].
  intros out Hout.
  by apply (cut_ha_rows 2 4 wave_2x4 data_2x4 cont_2x4 Hw Hd Hc ltac:(lia)).
Defined.

(** ** Notebook 03: the continuum-subtracted image *)

Section LineImage.

Local Open Scope Q_scope.

Variable fit_generic_continuum :
  nat → list (Q * Q) → list Q → list Q → result (list Q).

(** [line_2d = data_2d[:, :] - flux_cont2d_150[:, :]], from the image and
    its wavelengths. *)
Definition line_image (bounds : list (Q * Q)) (deg : nat)
    (wave_2d data_2d : list (list Q)) : result (list (list Q)) :=
  flux_cont2d ← continuum_rows fit_generic_continuum bounds deg wave_2d data_2d;
  np_subtract2d data_2d flux_cont2d.

Definition line_2d := line_image bounds_150 7.

(** The continuum image that the row loop returns has the shape of the
    data, so that [data_2d - flux_cont2d] is an element-wise difference
    that cannot fail; and the continuum-subtracted image is, row by row,
    what the one-dimensional Line-Residual Builder makes of the row and of
    the continuum fitted to the row. *)
Theorem line_image_rows (bounds : list (Q * Q)) (deg : nat) (r c : nat)
    (wave_2d data_2d flux_cont2d : list (list Q)) :
  shape r c wave_2d → shape r c data_2d → (0 < c)%nat →
  continuum_rows fit_generic_continuum bounds deg wave_2d data_2d
    = Ok flux_cont2d →
  shape r c flux_cont2d ∧
  ∃ line_2d,
    line_image bounds deg wave_2d data_2d = Ok line_2d ∧
    shape r c line_2d ∧
    ∀ yy wave_row data_row,
      wave_2d !! yy = Some wave_row → data_2d !! yy = Some data_row →
      ∃ cont residual,
        continuum_estimator fit_generic_continuum bounds deg wave_row data_row
          = Ok cont ∧
        line_residual cont wave_row data_row = Ok residual ∧
        line_2d !! yy = Some residual.
Proof.
  intros Hw Hd Hc Hrun.
  pose proof Hrun as Hcollect.
  rewrite (continuum_rows_collect _ _ _ _ _ c) in Hcollect by apply Hd.
  rewrite (n_rows_rectangular _ c) in Hcollect by (apply Hd || done).
  cbn [mbind result_mbind result_bind] in Hcollect.
  apply collect_ok_inv in Hcollect as [Hlen Hrows].
  rewrite length_seq in Hlen.
  assert (Hshape : shape r c flux_cont2d).
  { destruct Hd as [Hd1 _]. split; [lia|]. intros row Hin.
    apply list_elem_of_lookup in Hin as [yy Hyy].
    pose proof (lookup_lt_Some _ _ _ Hyy) as Hlt.
    destruct (Hrows yy yy) as (a & Ha & Hlook); [apply lookup_seq_lt; lia|].
    assert (a = row) as -> by congruence.
    destruct (continuum_row_value _ _ _ _ _ yy) as [v| |]; [|done..].
    cbn [mbind result_mbind result_bind] in Ha.
    by apply fit_row_length in Ha. }
  split; [done|].
  exists (zip_with (zip_with Qminus) data_2d flux_cont2d). split_and!.
  - unfold line_image. rewrite Hrun. cbn [mbind result_mbind result_bind].
    by apply (np_subtract2d_shape r c).
  - destruct Hd as [Hd1 Hd2], Hshape as [Hs1 Hs2]. split.
    + rewrite length_zip_with. lia.
    + intros row Hin. apply list_elem_of_lookup in Hin as [yy Hyy].
      rewrite lookup_zip_with in Hyy.
      destruct (data_2d !! yy) as [dr|] eqn:Edr; [|done].
      destruct (flux_cont2d !! yy) as [cr|] eqn:Ecr; [|done].
      cbn in Hyy. injection Hyy as <-. rewrite length_zip_with.
      rewrite (Hd2 dr), (Hs2 cr); [lia|by eapply list_elem_of_lookup_2..].
  - intros yy wave_row data_row Hwr Hdr.
    assert (Hyy : (yy < length data_2d)%nat) by by eapply lookup_lt_Some.
    destruct (Hrows yy yy) as (a & Ha & Hlook); [by apply lookup_seq_lt|].
    unfold continuum_row_value, index in Ha. rewrite Hwr, Hdr in Ha.
    cbn [mbind result_mbind result_bind] in Ha.
    destruct (continuum_estimator _ _ _ wave_row data_row) as [cont| |];
      [|done..].
    cbn [mbind result_mbind result_bind] in Ha.
    assert (Hwlen : length wave_row = c).
    { destruct Hw as [_ Hw]. apply Hw. by eapply list_elem_of_lookup_2. }
    assert (Hdlen : length data_row = c).
    { destruct Hd as [_ Hd]. apply Hd. by eapply list_elem_of_lookup_2. }
    rewrite fit_row_same in Ha by by rewrite length_fmap.
    injection Ha as <-.
    exists cont, (zip_with Qminus data_row (peval cont <$> wave_row)).
    split_and!; [done| |].
    + unfold line_residual. apply broadcast2_same_length.
      rewrite length_fmap. lia.
    + by rewrite lookup_zip_with, Hdr, Hlook.
Qed.

End LineImage.

Lemma line_image_rows_witness :
  shape 2 4 wave_2x4_150 ∧ shape 2 4 data_2x4 ∧ (0 < 4)%nat ∧
  ∃ flux_cont2d line_2d,
    continuum_rows lstsq_fit bounds_150 1 wave_2x4_150 data_2x4
      = Ok flux_cont2d ∧
    shape 2 4 flux_cont2d ∧
    line_image lstsq_fit bounds_150 1 wave_2x4_150 data_2x4 = Ok line_2d ∧
    shape 2 4 line_2d.
Proof.
  assert (Hw : shape 2 4 wave_2x4_150) by check_shape.
  assert (Hd : shape 2 4 data_2x4) by check_shape.
  split_and!; [done..|lia|].
  assert (∃ flux_cont2d,
            continuum_rows lstsq_fit bounds_150 1 wave_2x4_150 data_2x4
              = Ok flux_cont2d) as [flux_cont2d Erun]
    by (vm_compute; eexists; reflexivity).
  destruct (line_image_rows lstsq_fit bounds_150 1 2 4
              wave_2x4_150 data_2x4 flux_cont2d Hw Hd ltac:(lia) Erun)
    as (Hshape & line_2d & Hline & Hlshape & _).
  exists flux_cont2d, line_2d.
  exact (conj Erun (conj Hshape (conj Hline Hlshape))).
Defined.

(** ** Notebook 02: the observed spectrum

    The cells from [wave_200 = fd['wavelength']] to
    [flux_err_obs = np.concatenate([...])]: each of the three grism spectra
    is scaled by [flux_normalize], its continuum is fitted in two windows
    and subtracted, and the samples inside a wider window per filter are
    concatenated, F115W first. *)

(** The columns of [fits.open(file_1d)[1].data] that are read. *)
Record spectrum_file := SpectrumFile {
  fd_wavelength : list Q;
  fd_flux : list Q;
  fd_uncertainty : list Q
}.

Section ObservedSpectrum.

Local Open Scope Q_scope.

Variable fit_generic_continuum :
  nat → list (Q * Q) → list Q → list Q → result (list Q).

Definition flux_normalize : Q := 500.

(** [mask_115], [mask_150], [mask_200] *)
Definition mask_115 : Q * Q := (102 # 100, 125 # 100).
Definition mask_150 : Q * Q := (135 # 100, 165 # 100).
Definition mask_200 : Q * Q := (175 # 100, 223 # 100).

(** [fd['flux'] / flux_normalize] *)
Definition normalized (a : list Q) : list Q := (λ x, x / flux_normalize) <$> a.

(** One of the three cells "F200W", "F150W", "F115W": the
    continuum-subtracted flux of the filter. *)
Definition flux_sub (bounds : list (Q * Q)) (fd : spectrum_file)
  : result (list Q) :=
  let wave := fd_wavelength fd in
  let flux := normalized (fd_flux fd) in
  cont ← continuum_estimator fit_generic_continuum bounds 7 wave flux;
  line_residual cont wave flux.

(** The cells in the order of the notebook, down to "Concatenate arrays". *)
Definition observed_spectrum (fd_115 fd_150 fd_200 : spectrum_file)
  : result (list Q * list Q * list Q) :=
  flux_200_sub ← flux_sub bounds_200 fd_200;
  flux_150_sub ← flux_sub bounds_150 fd_150;
  flux_115_sub ← flux_sub bounds_115 fd_115;
  let m115 := in_bound mask_115 <$> fd_wavelength fd_115 in
  let m150 := in_bound mask_150 <$> fd_wavelength fd_150 in
  let m200 := in_bound mask_200 <$> fd_wavelength fd_200 in
  w115 ← bool_index (fd_wavelength fd_115) m115;
  w150 ← bool_index (fd_wavelength fd_150) m150;
  w200 ← bool_index (fd_wavelength fd_200) m200;
  f115 ← bool_index flux_115_sub m115;
  f150 ← bool_index flux_150_sub m150;
  f200 ← bool_index flux_200_sub m200;
  e115 ← bool_index (normalized (fd_uncertainty fd_115)) m115;
  e150 ← bool_index (normalized (fd_uncertainty fd_150)) m150;
  e200 ← bool_index (normalized (fd_uncertainty fd_200)) m200;
  Ok (w115 ++ w150 ++ w200, f115 ++ f150 ++ f200, e115 ++ e150 ++ e200).

(** The sample [(w, f, e)] is sample [j] of the file, inside the window
    [mask], with the continuum [cont] subtracted. *)
Definition sample_of (fd : spectrum_file) (cont : list Q) (mask : Q * Q)
    (w f e : Q) : Prop :=
  ∃ j f0 e0,
    fd_wavelength fd !! j = Some w ∧ fd_flux fd !! j = Some f0 ∧
    fd_uncertainty fd !! j = Some e0 ∧
    mask.1 < w ∧ w < mask.2 ∧
    f = f0 / flux_normalize - peval cont w ∧ e = e0 / flux_normalize.

End ObservedSpectrum.

Section ObservedSpectrumFacts.

Local Open Scope Q_scope.

Variable fit_generic_continuum :
  nat → list (Q * Q) → list Q → list Q → result (list Q).

Lemma bool_index_ok {A} (a : list A) (mask : list bool) (l : list A) :
  bool_index a mask = Ok l → length a = length mask ∧ l = select mask a.
Proof.
  unfold bool_index. destruct (decide _); [|done]. by intros [= <-].
Qed.

(** The position in the array of element [i] of [a[mask]]. *)
Fixpoint nth_true (mask : list bool) (i : nat) : option nat :=
  match mask with
  | [] => None
  | true :: mask =>
      match i with
      | O => Some O
      | S i => S <$> nth_true mask i
      end
  | false :: mask => S <$> nth_true mask i
  end.

Lemma select_lookup {A} (mask : list bool) (a : list A) (i : nat) :
  length a = length mask →
  select mask a !! i = nth_true mask i ≫= λ j, a !! j.
Proof.
  revert a i. induction mask as [|b mask IH]; intros [|x a] i Hlen;
    simplify_eq/=; [done|].
  destruct b.
  - destruct i as [|i]; [done|]. cbn. rewrite IH by done.
    by destruct (nth_true mask i).
  - rewrite IH by done. by destruct (nth_true mask i).
Qed.

Lemma nth_true_lookup (mask : list bool) (i j : nat) :
  nth_true mask i = Some j → mask !! j = Some true.
Proof.
  revert i j. induction mask as [|b mask IH]; intros i j H; [done|].
  cbn in H. destruct b.
  - destruct i as [|i]; [by injection H as <-|].
    destruct (nth_true mask i) as [j'|] eqn:E; [|done].
    injection H as <-. by apply (IH i).
  - destruct (nth_true mask i) as [j'|] eqn:E; [|done].
    injection H as <-. by apply (IH i).
Qed.

Lemma select_length {A B} (mask : list bool) (a : list A) (b : list B) :
  length a = length mask → length b = length mask →
  length (select mask a) = length (select mask b).
Proof.
  revert a b. induction mask as [|m mask IH]; intros [|x a] [|y b] Ha Hb;
    simplify_eq/=; [done|].
  destruct m; cbn; by rewrite (IH a b).
Qed.

Lemma select_elem_of {A} (mask : list bool) (a : list A) (x : A) :
  length a = length mask →
  x ∈ select mask a ↔ ∃ j, a !! j = Some x ∧ mask !! j = Some true.
Proof.
  revert a. induction mask as [|b mask IH]; intros [|y a] Hlen;
    simplify_eq/=.
  - split; [by intros ?%elem_of_nil|]. by intros (j & ? & _).
  - assert (x ∈ select mask a ↔
            ∃ j, (y :: a) !! S j = Some x ∧ (b :: mask) !! S j = Some true)
      as Htail by by apply IH.
    destruct b.
    + rewrite elem_of_cons, Htail. split.
      * intros [->|(j & ?)]; [by exists 0%nat|by exists (S j)].
      * intros ([|j] & Hj & Hm); [left; by injection Hj|right; by exists j].
    + rewrite Htail. split.
      * intros (j & ?). by exists (S j).
      * intros ([|j] & Hj & Hm); [done|by exists j].
Qed.

Lemma flux_sub_ok (bounds : list (Q * Q)) (fd : spectrum_file)
    (sub : list Q) :
  flux_sub fit_generic_continuum bounds fd = Ok sub →
  length (fd_flux fd) = length (fd_wavelength fd) ∧
  ∃ cont,
    continuum_estimator fit_generic_continuum bounds 7 (fd_wavelength fd)
      (normalized (fd_flux fd)) = Ok cont ∧
    sub = zip_with Qminus (normalized (fd_flux fd))
            (peval cont <$> fd_wavelength fd).
Proof.
  unfold flux_sub. intros H.
  destruct (continuum_estimator _ _ _ _ _) as [cont| |] eqn:Econt; [|done..].
  cbn [mbind result_mbind result_bind] in H.
  assert (Hlen : length (fd_flux fd) = length (fd_wavelength fd)).
  { unfold continuum_estimator, bool_index in Econt.
    destruct (decide (length (fd_wavelength fd) = _)); [|done].
    cbn [mbind result_mbind result_bind] in Econt.
    destruct (decide (length (normalized (fd_flux fd)) = _)) as [Heq|];
      [|done].
    unfold normalized in Heq. by rewrite !length_fmap in Heq. }
  split; [done|]. exists cont. split; [done|].
  unfold line_residual in H. rewrite broadcast2_same_length in H.
  - by injection H as <-.
  - unfold normalized. rewrite !length_fmap. done.
Qed.

(** The three arrays of one filter, masked with the same mask. *)
Lemma band_lookup (fd : spectrum_file) (cont : list Q) (mask : Q * Q)
    (i : nat) (w f e : Q) :
  length (fd_flux fd) = length (fd_wavelength fd) →
  length (fd_uncertainty fd) = length (fd_wavelength fd) →
  let m := in_bound mask <$> fd_wavelength fd in
  select m (fd_wavelength fd) !! i = Some w →
  select m (zip_with Qminus (normalized (fd_flux fd))
              (peval cont <$> fd_wavelength fd)) !! i = Some f →
  select m (normalized (fd_uncertainty fd)) !! i = Some e →
  sample_of fd cont mask w f e.
Proof.
  intros Hf He m Hw Hfi Hei.
  rewrite select_lookup in Hw by (unfold m; by rewrite length_fmap).
  rewrite select_lookup in Hfi
    by (unfold m, normalized; rewrite length_zip_with, !length_fmap; lia).
  rewrite select_lookup in Hei
    by (unfold m, normalized; rewrite !length_fmap; lia).
  destruct (nth_true m i) as [j|] eqn:Ej; [|done].
  cbn [mbind option_bind] in *.
  apply nth_true_lookup in Ej. unfold m in Ej.
  rewrite list_lookup_fmap, Hw in Ej. cbn in Ej. injection Ej as Hin.
  unfold in_bound in Hin. apply andb_true_iff in Hin as [H1 H2].
  apply Qltb_lt in H1, H2.
  unfold normalized in Hfi, Hei.
  rewrite lookup_zip_with, !list_lookup_fmap, Hw in Hfi.
  rewrite list_lookup_fmap in Hei.
  destruct (fd_flux fd !! j) as [f0|] eqn:Ef0; [|done].
  destruct (fd_uncertainty fd !! j) as [e0|] eqn:Ee0; [|done].
  cbn in Hfi, Hei. injection Hfi as <-. injection Hei as <-.
  by exists j, f0, e0.
Qed.

Lemma observed_spectrum_ok (fd_115 fd_150 fd_200 : spectrum_file)
    (wave_obs flux_obs flux_err_obs : list Q) :
  observed_spectrum fit_generic_continuum fd_115 fd_150 fd_200
    = Ok (wave_obs, flux_obs, flux_err_obs) →
  ∃ c115 c150 c200,
    continuum_estimator fit_generic_continuum bounds_115 7
      (fd_wavelength fd_115) (normalized (fd_flux fd_115)) = Ok c115 ∧
    continuum_estimator fit_generic_continuum bounds_150 7
      (fd_wavelength fd_150) (normalized (fd_flux fd_150)) = Ok c150 ∧
    continuum_estimator fit_generic_continuum bounds_200 7
      (fd_wavelength fd_200) (normalized (fd_flux fd_200)) = Ok c200 ∧
    (length (fd_flux fd_115) = length (fd_wavelength fd_115) ∧
     length (fd_uncertainty fd_115) = length (fd_wavelength fd_115)) ∧
    (length (fd_flux fd_150) = length (fd_wavelength fd_150) ∧
     length (fd_uncertainty fd_150) = length (fd_wavelength fd_150)) ∧
    (length (fd_flux fd_200) = length (fd_wavelength fd_200) ∧
     length (fd_uncertainty fd_200) = length (fd_wavelength fd_200)) ∧
    let m115 := in_bound mask_115 <$> fd_wavelength fd_115 in
    let m150 := in_bound mask_150 <$> fd_wavelength fd_150 in
    let m200 := in_bound mask_200 <$> fd_wavelength fd_200 in
    let sub c fd := zip_with Qminus (normalized (fd_flux fd))
                      (peval c <$> fd_wavelength fd) in
    wave_obs = select m115 (fd_wavelength fd_115) ++
               select m150 (fd_wavelength fd_150) ++
               select m200 (fd_wavelength fd_200) ∧
    flux_obs = select m115 (sub c115 fd_115) ++
               select m150 (sub c150 fd_150) ++
               select m200 (sub c200 fd_200) ∧
    flux_err_obs = select m115 (normalized (fd_uncertainty fd_115)) ++
                   select m150 (normalized (fd_uncertainty fd_150)) ++
                   select m200 (normalized (fd_uncertainty fd_200)).
Proof.
  unfold observed_spectrum. intros H.
  destruct (flux_sub _ bounds_200 fd_200) as [s200| |] eqn:E200; [|done..].
  cbn [mbind result_mbind result_bind] in H.
  destruct (flux_sub _ bounds_150 fd_150) as [s150| |] eqn:E150; [|done..].
  cbn [mbind result_mbind result_bind] in H.
  destruct (flux_sub _ bounds_115 fd_115) as [s115| |] eqn:E115; [|done..].
  cbn [mbind result_mbind result_bind] in H.
  apply flux_sub_ok in E200 as (Hf200 & c200 & Hc200 & ->).
  apply flux_sub_ok in E150 as (Hf150 & c150 & Hc150 & ->).
  apply flux_sub_ok in E115 as (Hf115 & c115 & Hc115 & ->).
  repeat match type of H with
  | (bool_index ?a ?m ≫= _) = _ =>
      let l := fresh "l" in let E := fresh "E" in
      destruct (bool_index a m) as [l| |] eqn:E; [|done..];
      cbn [mbind result_mbind result_bind] in H;
      apply bool_index_ok in E as [? ->]
  end.
  injection H as <- <- <-.
  exists c115, c150, c200.
  unfold normalized in *. rewrite ?length_fmap in *.
  split_and!; try done; lia.
Qed.

End ObservedSpectrumFacts.

From Stdlib Require Import Sorted.

Section ObservedSpectrumClaims.

Local Open Scope Q_scope.

Variable fit_generic_continuum :
  nat → list (Q * Q) → list Q → list Q → result (list Q).

Lemma select_strongly_sorted (mask : list bool) (a : list Q) :
  StronglySorted Qlt a → StronglySorted Qlt (select mask a).
Proof.
  intros Ha. revert mask. induction Ha as [|x a Ha IH Hx]; intros [|b mask];
    cbn [select]; try constructor.
  destruct b; [|apply IH]. constructor; [apply IH|].
  rewrite Forall_forall in Hx. apply Forall_forall. intros y Hy.
  apply Hx. clear -Hy. revert mask Hy.
  induction a as [|z a IHa]; intros [|b mask] Hy; cbn [select] in Hy;
    try by apply elem_of_nil in Hy.
  destruct b.
  - apply elem_of_cons in Hy as [->|Hy]; [by left|right; by eapply IHa].
  - right. by eapply IHa.
Qed.

Lemma strongly_sorted_app (l1 l2 : list Q) :
  StronglySorted Qlt l1 → StronglySorted Qlt l2 →
  (∀ x y, x ∈ l1 → y ∈ l2 → x < y) →
  StronglySorted Qlt (l1 ++ l2).
Proof.
  intros H1 H2 H12. induction H1 as [|x l1 H1 IH Hx]; [done|].
  cbn. constructor.
  - apply IH. intros x' y Hx' Hy. apply H12; [by right|done].
  - apply Forall_app. split; [done|].
    apply Forall_forall. intros y Hy. apply H12; [by left|done].
Qed.

Lemma select_in_bound (mask : Q * Q) (a : list Q) (x : Q) :
  x ∈ select (in_bound mask <$> a) a → mask.1 < x ∧ x < mask.2.
Proof.
  intros Hx. apply select_elem_of in Hx as (j & Hj & Hm);
    [|by rewrite length_fmap].
  rewrite list_lookup_fmap, Hj in Hm. cbn in Hm. injection Hm as Hm.
  unfold in_bound in Hm. apply andb_true_iff in Hm as [H1 H2].
  by rewrite !Qltb_lt in *.
Qed.

(** The three arrays of the observed spectrum go together: they have one
    length, and the entries at one position are the wavelength, the scaled
    and continuum-subtracted flux and the scaled uncertainty of one and the
    same sample of one of the three files, a sample that lies strictly
    inside the window of its filter. *)
Theorem observed_spectrum_aligned (fd_115 fd_150 fd_200 : spectrum_file)
    (wave_obs flux_obs flux_err_obs : list Q) :
  observed_spectrum fit_generic_continuum fd_115 fd_150 fd_200
    = Ok (wave_obs, flux_obs, flux_err_obs) →
  length flux_obs = length wave_obs ∧
  length flux_err_obs = length wave_obs ∧
  ∃ c115 c150 c200,
    continuum_estimator fit_generic_continuum bounds_115 7
      (fd_wavelength fd_115) (normalized (fd_flux fd_115)) = Ok c115 ∧
    continuum_estimator fit_generic_continuum bounds_150 7
      (fd_wavelength fd_150) (normalized (fd_flux fd_150)) = Ok c150 ∧
    continuum_estimator fit_generic_continuum bounds_200 7
      (fd_wavelength fd_200) (normalized (fd_flux fd_200)) = Ok c200 ∧
    ∀ i w f e,
      wave_obs !! i = Some w → flux_obs !! i = Some f →
      flux_err_obs !! i = Some e →
      sample_of fd_115 c115 mask_115 w f e ∨
      sample_of fd_150 c150 mask_150 w f e ∨
      sample_of fd_200 c200 mask_200 w f e.
Proof.
  intros H.
  apply observed_spectrum_ok in H
    as (c115 & c150 & c200 & H115 & H150 & H200 & [Hf115 He115] &
        [Hf150 He150] & [Hf200 He200] & Hw & Hf & He).
  cbv zeta in Hw, Hf, He.
  set (m115 := in_bound mask_115 <$> fd_wavelength fd_115) in *.
  set (m150 := in_bound mask_150 <$> fd_wavelength fd_150) in *.
  set (m200 := in_bound mask_200 <$> fd_wavelength fd_200) in *.
  assert (Hl115 : ∀ {B} (b : list B), length b = length (fd_wavelength fd_115) →
            length (select m115 b) = length (select m115 (fd_wavelength fd_115))).
  { intros B b Hb. apply select_length; unfold m115; rewrite length_fmap; lia. }
  assert (Hl150 : ∀ {B} (b : list B), length b = length (fd_wavelength fd_150) →
            length (select m150 b) = length (select m150 (fd_wavelength fd_150))).
  { intros B b Hb. apply select_length; unfold m150; rewrite length_fmap; lia. }
  assert (Hl200 : ∀ {B} (b : list B), length b = length (fd_wavelength fd_200) →
            length (select m200 b) = length (select m200 (fd_wavelength fd_200))).
  { intros B b Hb. apply select_length; unfold m200; rewrite length_fmap; lia. }
  assert (Hs : ∀ c fd, length (fd_flux fd) = length (fd_wavelength fd) →
            length (zip_with Qminus (normalized (fd_flux fd))
                      (peval c <$> fd_wavelength fd))
            = length (fd_wavelength fd)).
  { intros c fd Hlen. unfold normalized.
    rewrite length_zip_with, !length_fmap. lia. }
  assert (Hn : ∀ fd, length (fd_uncertainty fd) = length (fd_wavelength fd) →
            length (normalized (fd_uncertainty fd))
            = length (fd_wavelength fd)).
  { intros fd Hlen. unfold normalized. by rewrite length_fmap. }
  split_and!.
  - rewrite Hw, Hf, !length_app.
    rewrite Hl115, Hl150, Hl200 by by apply Hs. done.
  - rewrite Hw, He, !length_app.
    rewrite Hl115, Hl150, Hl200 by by apply Hn. done.
  - exists c115, c150, c200. split_and!; [done..|].
    intros i w f e Hwi Hfi Hei. rewrite Hw in Hwi. rewrite Hf in Hfi.
    rewrite He in Hei.
    apply lookup_app_Some in Hwi as [Hwi|[Hi Hwi]].
    + pose proof (lookup_lt_Some _ _ _ Hwi) as Hlt.
      rewrite lookup_app_l in Hfi by (rewrite Hl115 by (by apply Hs); done).
      rewrite lookup_app_l in Hei by (rewrite Hl115 by (by apply Hn); done).
      left. exact (band_lookup fd_115 c115 mask_115 i w f e Hf115 He115 Hwi Hfi Hei).
    + rewrite lookup_app_r in Hfi by (rewrite Hl115 by (by apply Hs); done).
      rewrite lookup_app_r in Hei by (rewrite Hl115 by (by apply Hn); done).
      rewrite Hl115 in Hfi by by apply Hs.
      rewrite Hl115 in Hei by by apply Hn.
      set (i' := (i - length (select m115 (fd_wavelength fd_115)))%nat) in *.
      apply lookup_app_Some in Hwi as [Hwi|[Hi' Hwi]].
      * pose proof (lookup_lt_Some _ _ _ Hwi) as Hlt.
        rewrite lookup_app_l in Hfi by (rewrite Hl150 by (by apply Hs); done).
        rewrite lookup_app_l in Hei by (rewrite Hl150 by (by apply Hn); done).
        right. left.
        exact (band_lookup fd_150 c150 mask_150 i' w f e Hf150 He150 Hwi Hfi Hei).
      * rewrite lookup_app_r in Hfi by (rewrite Hl150 by (by apply Hs); done).
        rewrite lookup_app_r in Hei by (rewrite Hl150 by (by apply Hn); done).
        rewrite Hl150 in Hfi by by apply Hs.
        rewrite Hl150 in Hei by by apply Hn.
        right. right.
        exact (band_lookup fd_200 c200 mask_200 _ w f e Hf200 He200 Hwi Hfi Hei).
Qed.

(** The spectral axis of the observed spectrum.  When the wavelengths of
    each file increase strictly, so do the concatenated wavelengths: the
    windows of the three filters do not overlap and are taken in
    increasing order. *)
Theorem observed_wavelengths_increasing (fd_115 fd_150 fd_200 : spectrum_file)
    (wave_obs flux_obs flux_err_obs : list Q) :
  observed_spectrum fit_generic_continuum fd_115 fd_150 fd_200
    = Ok (wave_obs, flux_obs, flux_err_obs) →
  StronglySorted Qlt (fd_wavelength fd_115) →
  StronglySorted Qlt (fd_wavelength fd_150) →
  StronglySorted Qlt (fd_wavelength fd_200) →
  StronglySorted Qlt wave_obs.
Proof.
  intros H S115 S150 S200.
  apply observed_spectrum_ok in H
    as (c115 & c150 & c200 & _ & _ & _ & _ & _ & _ & -> & _).
  apply strongly_sorted_app; [by apply select_strongly_sorted| |].
  - apply strongly_sorted_app; [by apply select_strongly_sorted..|].
    intros x y Hx%select_in_bound Hy%select_in_bound.
    cbn [mask_150 mask_200 fst snd] in *. lra.
  - intros x y Hx%select_in_bound Hy. apply elem_of_app in Hy as [Hy|Hy];
      apply select_in_bound in Hy; cbn [mask_115 mask_150 mask_200 fst snd] in *;
      lra.
Qed.

(** No sample of a continuum fit is lost: a wavelength of a file that lies
    in one of the two windows its continuum was fitted in is a wavelength
    of the observed spectrum. *)
Theorem continuum_samples_observed (fd_115 fd_150 fd_200 : spectrum_file)
    (wave_obs flux_obs flux_err_obs : list Q) :
  observed_spectrum fit_generic_continuum fd_115 fd_150 fd_200
    = Ok (wave_obs, flux_obs, flux_err_obs) →
  ∀ w,
    (w ∈ fd_wavelength fd_115 ∧ in_any_bound bounds_115 w = true) ∨
    (w ∈ fd_wavelength fd_150 ∧ in_any_bound bounds_150 w = true) ∨
    (w ∈ fd_wavelength fd_200 ∧ in_any_bound bounds_200 w = true) →
    w ∈ wave_obs.
Proof.
  intros H w Hw.
  apply observed_spectrum_ok in H
    as (c115 & c150 & c200 & _ & _ & _ & _ & _ & _ & -> & _).
  assert (Hsel : ∀ (mask : Q * Q) (a : list Q),
            w ∈ a → mask.1 < w → w < mask.2 →
            w ∈ select (in_bound mask <$> a) a).
  { intros mask a Hin H1 H2. apply select_elem_of; [by rewrite length_fmap|].
    apply list_elem_of_lookup in Hin as [j Hj]. exists j. split; [done|].
    rewrite list_lookup_fmap, Hj. cbn. f_equal. unfold in_bound.
    apply andb_true_iff. by rewrite !Qltb_lt. }
  rewrite !elem_of_app.
  destruct Hw as [[Hin Hb]|[[Hin Hb]|[Hin Hb]]];
    apply in_any_bound_spec in Hb as (b & Hb & H1 & H2);
    [left|right; left|right; right]; apply Hsel; try done;
    repeat (apply elem_of_cons in Hb as [->|Hb];
            [cbn [fst snd mask_115 mask_150 mask_200] in *; lra|]);
    by apply elem_of_nil in Hb.
Qed.

End ObservedSpectrumClaims.

(** Three small files: a linear continuum in each filter, an emission line
    in F200W, uncertainties of five units. *)
Definition fd_115_example : spectrum_file :=
  let wave := (λ k, (104 + 2 * k) # 100) <$>
                [0; 1; 2; 3; 4; 5; 6; 7; 8; 9; 10; 11]%Z in
  SpectrumFile wave ((λ w, 500 * (1 + w))%Q <$> wave) ((λ _, 5%Q) <$> wave).

Definition fd_150_example : spectrum_file :=
  let wave := (λ k, (134 + 2 * k) # 100) <$>
                [0; 1; 2; 3; 4; 5; 6; 7; 8; 9; 10; 11; 12; 13; 14; 15; 16]%Z in
  SpectrumFile wave ((λ w, 500 * (2 - w))%Q <$> wave) ((λ _, 5%Q) <$> wave).

Definition fd_200_example : spectrum_file :=
  SpectrumFile wave16 ((λ f, 500 * f)%Q <$> flux16) ((λ _, 5%Q) <$> wave16).

Ltac check_increasing :=
  vm_compute; repeat constructor.

Lemma observed_spectrum_example :
  ∃ wave_obs flux_obs flux_err_obs,
    observed_spectrum lstsq_fit fd_115_example fd_150_example fd_200_example
      = Ok (wave_obs, flux_obs, flux_err_obs).
Proof. vm_compute. eexists _, _, _. reflexivity. Qed.

Lemma observed_spectrum_aligned_witness :
  ∃ wave_obs flux_obs flux_err_obs,
    observed_spectrum lstsq_fit fd_115_example fd_150_example fd_200_example
      = Ok (wave_obs, flux_obs, flux_err_obs) ∧
    length flux_obs = length wave_obs ∧
    length flux_err_obs = length wave_obs.
Proof.
  destruct observed_spectrum_example as (w & f & e & H).
  exists w, f, e. split; [exact H|].
  destruct (observed_spectrum_aligned lstsq_fit _ _ _ w f e H)
    as (Hf & He & _).
  exact (conj Hf He).
Defined.

Lemma observed_wavelengths_increasing_witness :
  StronglySorted Qlt (fd_wavelength fd_115_example) ∧
  StronglySorted Qlt (fd_wavelength fd_150_example) ∧
  StronglySorted Qlt (fd_wavelength fd_200_example) ∧
  ∃ wave_obs flux_obs flux_err_obs,
    observed_spectrum lstsq_fit fd_115_example fd_150_example fd_200_example
      = Ok (wave_obs, flux_obs, flux_err_obs) ∧
    StronglySorted Qlt wave_obs.
Proof.
  assert (S115 : StronglySorted Qlt (fd_wavelength fd_115_example))
    by check_increasing.
  assert (S150 : StronglySorted Qlt (fd_wavelength fd_150_example))
    by check_increasing.
  assert (S200 : StronglySorted Qlt (fd_wavelength fd_200_example))
    by check_increasing.
  split; [exact S115|]. split; [exact S150|]. split; [exact S200|].
  destruct observed_spectrum_example as (w & f & e & H).
  exists w, f, e. split; [exact H|].
  exact (observed_wavelengths_increasing lstsq_fit _ _ _ w f e H
           S115 S150 S200).
Defined.

Lemma continuum_samples_observed_witness :
  ∃ wave_obs flux_obs flux_err_obs,
    observed_spectrum lstsq_fit fd_115_example fd_150_example fd_200_example
      = Ok (wave_obs, flux_obs, flux_err_obs) ∧
    (210 # 100)%Q ∈ wave_obs.
Proof.
  destruct observed_spectrum_example as (w & f & e & H).
  exists w, f, e. split; [exact H|].
  apply (continuum_samples_observed lstsq_fit _ _ _ w f e H).
  right. right. split; [|reflexivity].
  vm_compute. do 10 apply list_elem_of_further. apply list_elem_of_here.
Defined.

(** ** Notebook 02: the maximum of the normalized template *)

Section TemplatePeak.

Local Open Scope Q_scope.

Variable fit_generic_continuum :
  nat → list (Q * Q) → list Q → list Q → result (list Q).

(** The samples that a fit with excluded regions is made on. *)
Definition not_excluded (regions : list (Q * Q)) (x y : list Q)
  : list (Q * Q) :=
  List.filter (λ pt, negb (in_any_bound regions pt.1)) (zip x y).

Lemma sse_constant_shift (pts : list (Q * Q)) (a t : Q) (p : list Q) :
  sse pts ((a + t) :: p) ==
  sse pts (a :: p)
  - 2 * t * qsum (λ pt, pt.2 - peval (a :: p) pt.1) pts
  + t * t * qsum (λ _, 1) pts.
Proof.
  unfold sse. induction pts as [|pt pts IH]; cbn [qsum]; [ring|].
  rewrite IH. unfold sq. cbn [peval]. ring.
Qed.

Lemma qsum_ones_pos {A} (l : list A) : l ≠ [] → 0 < qsum (λ _, 1) l.
Proof.
  destruct l as [|a l]; [done|]. intros _. cbn [qsum].
  assert (H : 0 <= qsum (λ _ : A, 1) l) by (apply qsum_nonneg; intros; lra).
  revert H. generalize (qsum (λ _ : A, 1) l). intros s H. lra.
Qed.

(** The residuals of a least-squares polynomial sum to zero. *)
Lemma ols_residual_sum (deg : nat) (pts : list (Q * Q)) (p : list Q) :
  is_ols deg pts p → qsum (λ pt, pt.2 - peval p pt.1) pts == 0.
Proof.
  intros [Hlen Hmin]. destruct pts as [|pt0 pts0]; [reflexivity|].
  destruct p as [|a p]; [done|].
  assert (HN : 0 < qsum (λ _ : Q * Q, 1) (pt0 :: pts0))
    by by apply qsum_ones_pos.
  assert (Hshift := λ t, sse_constant_shift (pt0 :: pts0) a t p).
  revert Hmin HN Hshift.
  generalize (qsum (λ pt : Q * Q, pt.2 - peval (a :: p) pt.1) (pt0 :: pts0)).
  generalize (qsum (λ _ : Q * Q, 1) (pt0 :: pts0)).
  intros N R Hmin HN Hshift.
  assert (Hx : (R / N) * N == R) by (field; lra).
  specialize (Hmin ((a + R / N) :: p) Hlen).
  rewrite Hshift in Hmin.
  revert Hx Hmin. generalize (R / N). intros x Hx Hmin.
  assert (HxR : x * R == x * x * N) by (rewrite <- Hx; ring).
  assert (Hsq : x * x * N <= 0).
  { revert Hmin HxR. generalize (sse (pt0 :: pts0) (a :: p)).
    intros s Hmin HxR. clear -Hmin HxR. lra. }
  assert (Hx0 : x == 0).
  { destruct (Qeq_dec x 0) as [|Hne]; [done|].
    assert (0 < x * x) by (clear -Hne; destruct (Qlt_le_dec x 0); nra).
    assert (0 < x * x * N) by (apply Qmult_lt_0_compat; done).
    clear -H0 Hsq. lra. }
  rewrite <- Hx, Hx0. ring.
Qed.

Lemma qsum_nonneg_term {A} (f : A → Q) (l : list A) :
  l ≠ [] → 0 <= qsum f l → ∃ a, a ∈ l ∧ 0 <= f a.
Proof.
  induction l as [|a l IH]; [done|]. intros _ Hsum. cbn [qsum] in Hsum.
  destruct (Qlt_le_dec (f a) 0) as [Hneg|Hpos].
  - destruct l as [|b l]; [cbn [qsum] in Hsum; lra|].
    destruct IH as (c & Hc & Hfc); [done|lra|].
    exists c. split; [by right|done].
  - exists a. split; [by left|done].
Qed.

Lemma result_bind_ok {A B} (r : result A) (k : A → result B) (b : B) :
  r ≫= k = Ok b → ∃ a, r = Ok a ∧ k a = Ok b.
Proof. destruct r as [a| |]; [|done..]. intros H. by exists a. Qed.

Lemma select_all_false {A} (mask : list bool) (a : list A) :
  (∀ b, b ∈ mask → b = false) → select mask a = [].
Proof.
  revert a. induction mask as [|b mask IH]; intros [|x a] H; cbn [select];
    try done.
  rewrite (H b) by by left. apply IH. intros b' Hb'. apply H. by right.
Qed.

(** When no sample of the blueshifted template lies in the window the cell
    "Cut templates for better fit" raises [ValueError] at [flux.max()], the
    maximum of an empty array, before any continuum is fitted. *)
Theorem template_empty_window (z_input lo hi : Q) (regions : list (Q * Q))
    (deg : nat) (wavelengths fluxes : list Q) :
  length wavelengths = length fluxes →
  ¬ 1 + z_input == 0 →
  (∀ w, w ∈ wavelengths →
        ¬ (lo < w / (1 + z_input) * 10000 ∧ w / (1 + z_input) * 10000 < hi)) →
  template_residual fit_generic_continuum z_input lo hi regions deg
    wavelengths fluxes = Raise ValueError ∧
  template_normalizer fit_generic_continuum z_input lo hi regions deg
    wavelengths fluxes = Raise ValueError.
Proof.
  intros Hlen Hz Hout.
  assert (Hres : template_residual fit_generic_continuum z_input lo hi
                   regions deg wavelengths fluxes = Raise ValueError).
  { unfold template_residual. apply Qeq_bool_false in Hz. rewrite Hz.
    unfold bool_index. rewrite !decide_True by (rewrite !length_fmap; lia).
    cbn [mbind result_mbind result_bind].
    rewrite (select_all_false _ fluxes); [reflexivity|].
    intros b Hb. apply list_elem_of_fmap in Hb as (w' & -> & Hw').
    apply list_elem_of_fmap in Hw' as (w & -> & Hw).
    specialize (Hout w Hw). unfold in_bound. cbn [fst snd].
    destruct (Qltb lo _) eqn:E1; [|done].
    destruct (Qltb _ hi) eqn:E2; [|done].
    apply Qltb_lt in E1, E2. by destruct Hout. }
  split; [done|]. unfold template_normalizer. by rewrite Hres.
Qed.

(** The two cells return when no maximum is taken of an empty array and no
    division is by zero. *)
Lemma template_cells_return (z_input lo hi : Q) (regions : list (Q * Q))
    (deg : nat) (wavelengths fluxes : list Q) (m m' : Q) (cm : list Q) :
  length wavelengths = length fluxes →
  ¬ 1 + z_input == 0 →
  let kept := template_window z_input lo hi wavelengths fluxes in
  let wave := (λ w, w * (1 # 10000)) <$> kept.*1 in
  let flux := (λ f, f / m) <$> kept.*2 in
  let sflux := zip_with Qminus flux (peval cm <$> wave) in
  let out := (λ s, s / m') <$> sflux in
  np_max kept.*2 = Ok m → ¬ m == 0 →
  fit_generic_continuum deg regions wave flux = Ok cm →
  np_max sflux = Ok m' → ¬ m' == 0 →
  template_residual fit_generic_continuum z_input lo hi regions deg
    wavelengths fluxes = Ok (wave, sflux) ∧
  template_normalizer fit_generic_continuum z_input lo hi regions deg
    wavelengths fluxes = Ok (wave, out).
Proof.
  intros Hlen Hz kept wave flux sflux out Hm Hm0 Hfit Hm' Hm'0.
  assert (Hres : template_residual fit_generic_continuum z_input lo hi
                   regions deg wavelengths fluxes = Ok (wave, sflux)).
  { unfold template_residual. apply Qeq_bool_false in Hz. rewrite Hz.
    unfold bool_index. rewrite !decide_True by (rewrite !length_fmap; lia).
    cbn [mbind result_mbind result_bind].
    rewrite (select_zip_snd (in_bound (lo, hi)) _ fluxes)
      by (rewrite length_fmap; lia).
    rewrite (select_zip_fst (in_bound (lo, hi)) _ fluxes)
      by (rewrite length_fmap; lia).
    fold (template_window z_input lo hi wavelengths fluxes). fold kept.
    rewrite Hm. cbn [mbind result_mbind result_bind].
    unfold np_divide. apply Qeq_bool_false in Hm0. rewrite Hm0.
    cbn [mbind result_mbind result_bind]. fold wave flux. rewrite Hfit.
    cbn [mbind result_mbind result_bind].
    rewrite broadcast2_same_length; [done|].
    unfold flux, wave. by rewrite !length_fmap. }
  split; [done|].
  unfold template_normalizer. rewrite Hres.
  cbn [mbind result_mbind result_bind]. rewrite Hm'.
  cbn [mbind result_mbind result_bind]. unfold np_divide.
  apply Qeq_bool_false in Hm'0. by rewrite Hm'0.
Qed.

(** The largest residual of a least-squares polynomial is not negative, on
    arrays of which the fit has seen at least one sample. *)
Lemma ols_max_residual_nonneg (deg : nat) (regions : list (Q * Q))
    (xs ys cm : list Q) (m' : Q) :
  length ys = length xs →
  is_ols deg (not_excluded regions xs ys) cm →
  (∃ w, w ∈ xs ∧ in_any_bound regions w = false) →
  np_max (zip_with Qminus ys (peval cm <$> xs)) = Ok m' →
  0 <= m'.
Proof.
  intros Hxy Hols (w0 & Hw0 & Hfree) Em'.
  apply np_max_spec in Em' as [_ Hub].
  apply ols_residual_sum in Hols.
  apply list_elem_of_lookup in Hw0 as [j Hj].
  destruct (lookup_lt_is_Some_2 ys j) as [y0 Hy0].
  { rewrite Hxy. by eapply lookup_lt_Some. }
  destruct (qsum_nonneg_term (λ pt : Q * Q, pt.2 - peval cm pt.1)
              (not_excluded regions xs ys)) as (pt & Hpt & Hres).
  - intros Hnil.
    assert (Hmem : (w0, y0) ∈ not_excluded regions xs ys).
    { unfold not_excluded. rewrite list_elem_of_In, filter_In,
        <- list_elem_of_In. cbn [fst]. rewrite Hfree. split; [|done].
      apply list_elem_of_lookup. exists j.
      by rewrite lookup_zip_with, Hj, Hy0. }
    rewrite Hnil in Hmem. by apply elem_of_nil in Hmem.
  - rewrite Hols. apply Qle_refl.
  - unfold not_excluded in Hpt.
    rewrite list_elem_of_In, filter_In, <- list_elem_of_In in Hpt.
    destruct Hpt as [Hpt _]. apply list_elem_of_lookup in Hpt as [k Hk].
    rewrite lookup_zip_with in Hk.
    destruct (xs !! k) as [xk|] eqn:Exk; [|done].
    destruct (ys !! k) as [yk|] eqn:Eyk; [|done].
    cbn in Hk. injection Hk as <-. cbn [fst snd] in Hres.
    assert (Hs : yk - peval cm xk ∈ zip_with Qminus ys (peval cm <$> xs)).
    { apply list_elem_of_lookup. exists k.
      by rewrite lookup_zip_with, Eyk, list_lookup_fmap, Exk. }
    specialize (Hub _ Hs). clear -Hub Hres. lra.
Qed.

Lemma Qdiv_pos_sign (s m : Q) :
  0 < m → (0 < s / m ↔ 0 < s) ∧ (s / m < 0 ↔ s < 0).
Proof.
  intros Hm.
  assert (Hs : s == s / m * m) by (field; lra).
  assert (Hi : 0 < / m) by by apply Qinv_lt_0_compat.
  unfold Qdiv. revert Hs. unfold Qdiv. generalize (/ m) Hi. intros i Hi' Hs.
  split; split; intros H.
  - rewrite Hs. by apply Qmult_lt_0_compat.
  - by apply Qmult_lt_0_compat.
  - rewrite Hs. clear Hs. nra.
  - clear Hs. nra.
Qed.

(** The point of the normalization.  Let the continuum be the
    least-squares polynomial of the samples outside the excluded regions,
    at least one sample lying outside them, and let neither [flux.max()]
    nor [sflux.max()] be zero, so that no division is by zero.  The
    residuals of the fitted samples sum to zero, so the largest residual is
    not negative: [sflux.max()] is positive.  Hence the division by it
    keeps the sign of every residual, no value of the normalized template
    exceeds 1, and the value 1 is attained. *)
Theorem template_maximum_is_one (z_input lo hi : Q) (regions : list (Q * Q))
    (deg : nat) (wavelengths fluxes : list Q) (m m' : Q) (cm : list Q) :
  length wavelengths = length fluxes →
  ¬ 1 + z_input == 0 →
  let kept := template_window z_input lo hi wavelengths fluxes in
  let wave := (λ w, w * (1 # 10000)) <$> kept.*1 in
  let flux := (λ f, f / m) <$> kept.*2 in
  let sflux := zip_with Qminus flux (peval cm <$> wave) in
  let out := (λ s, s / m') <$> sflux in
  np_max kept.*2 = Ok m → ¬ m == 0 →
  fit_generic_continuum deg regions wave flux = Ok cm →
  is_ols deg (not_excluded regions wave flux) cm →
  (∃ w, w ∈ wave ∧ in_any_bound regions w = false) →
  np_max sflux = Ok m' → ¬ m' == 0 →
  0 < m' ∧
  template_normalizer fit_generic_continuum z_input lo hi regions deg
    wavelengths fluxes = Ok (wave, out) ∧
  (∀ i s, sflux !! i = Some s →
     ∃ o, out !! i = Some o ∧ o == s / m' ∧ o <= 1 ∧
          (0 < o ↔ 0 < s) ∧ (o < 0 ↔ s < 0)) ∧
  (∃ o, o ∈ out ∧ o == 1).
Proof.
  intros Hlen Hz kept wave flux sflux out Hm Hm0 Hfit Hols Hfree Hm' Hm'0.
  assert (Hpos : 0 < m').
  { assert (0 <= m'); [|lra].
    apply (ols_max_residual_nonneg deg regions wave flux cm m');
      [|done..].
    unfold flux, wave. by rewrite !length_fmap. }
  split; [done|]. split.
  { by apply (template_cells_return z_input lo hi regions deg wavelengths
                fluxes m m' cm). }
  pose proof Hm' as Hmax. apply np_max_spec in Hmax as [Hin Hub]. split.
  - intros i s Hs. exists (s / m'). split_and!.
    + unfold out. by rewrite list_lookup_fmap, Hs.
    + reflexivity.
    + apply Qle_shift_div_r; [done|].
      assert (s <= m') by (apply Hub; by eapply list_elem_of_lookup_2).
      lra.
    + by apply Qdiv_pos_sign.
    + by apply Qdiv_pos_sign.
  - exists (m' / m'). split; [|field; lra].
    unfold out. apply list_elem_of_fmap. by exists m'.
Qed.

End TemplatePeak.

Lemma lstsq_fit_ols_excluded (deg : nat) (regions : list (Q * Q))
    (x y p : list Q) :
  lstsq_fit deg regions x y = Ok p → is_ols deg (not_excluded regions x y) p.
Proof.
  unfold lstsq_fit, not_excluded.
  destruct (decide (length x = length y)); [|done].
  destruct (lstsq_poly deg _) as [q|] eqn:E; [|done].
  intros [= <-]. by apply lstsq_poly_ols.
Qed.

Lemma template_empty_window_witness :
  p_template lstsq_fit [5 # 10; 6 # 10]%Q [1; 2]%Q = Raise ValueError ∧
  p_smooth_template lstsq_fit [5 # 10; 6 # 10]%Q [1; 2]%Q = Raise ValueError.
Proof.
  apply (template_empty_window lstsq_fit (21 # 10) 3600 13000
           template_regions 3 [5 # 10; 6 # 10]%Q [1; 2]%Q).
  - reflexivity.
  - intros H. vm_compute in H. discriminate H.
  - intros w Hw [H1 H2].
    repeat (apply elem_of_cons in Hw as [->|Hw];
            [vm_compute in H1; discriminate H1|]).
    by apply elem_of_nil in Hw.
Defined.

Lemma template_maximum_is_one_witness :
  length template_wavelengths = length template_fluxes ∧
  ∃ wave out m',
    (0 < m')%Q ∧
    p_smooth_template lstsq_fit template_wavelengths template_fluxes
      = Ok (wave, out) ∧
    ∃ o, o ∈ out ∧ (o == 1)%Q.
Proof.
  split; [reflexivity|].
  set (kept := template_window (21 # 10) 3600 13000
                 template_wavelengths template_fluxes).
  set (wave := (λ w, w * (1 # 10000))%Q <$> kept.*1).
  set (flux := (λ f, f / 5)%Q <$> kept.*2).
  set (cm := [2 # 5; 0; 0; 0]%Q).
  set (sflux := zip_with Qminus flux (peval cm <$> wave)).
  assert (Hm : np_max kept.*2 = Ok 5%Q) by (vm_compute; reflexivity).
  assert (Hfit : lstsq_fit 3 template_regions wave flux = Ok cm)
    by (vm_compute; reflexivity).
  assert (Hfree : ∃ w, w ∈ wave ∧ in_any_bound template_regions w = false).
  { vm_compute. eexists. split; [apply list_elem_of_further, list_elem_of_here|].
    reflexivity. }
  destruct (np_max sflux) as [m'| |] eqn:Hm';
    try (vm_compute in Hm'; discriminate Hm').
  assert (Hne : ¬ (m' == 0)%Q).
  { vm_compute in Hm'. injection Hm' as <-. intros H. vm_compute in H.
    discriminate H. }
  destruct (template_maximum_is_one lstsq_fit (21 # 10) 3600 13000
              template_regions 3 template_wavelengths template_fluxes
              5%Q m' cm eq_refl) as (Hpos & Hrun & _ & Hone);
    [ intros H; vm_compute in H; discriminate H
    | exact Hm
    | intros H; vm_compute in H; discriminate H
    | exact Hfit
    | exact (lstsq_fit_ols_excluded 3 template_regions wave flux cm Hfit)
    | exact Hfree
    | exact Hm'
    | exact Hne
    | ].
  eexists _, _, m'. split; [exact Hpos|]. split; [exact Hrun|]. exact Hone.
Defined.

(** ** NIRCam photometry: the dictionaries of image files

[[
    filters = 'F090W F115W F150W F200W F277W F335M F356W F410M F444W'.split()
    imagefiles = {}
    for filt in filters:
        filename = f'jades_jwst_nircam_goods_s_crop_{filt}.fits'
        imagefiles[filt] = os.path.join(baseurl, filename)
    weightfiles = {}   # the same with f'..._{filt}_wht.fits'
]] *)

Section ImageFiles.

Local Open Scope string_scope.

Definition startswith_slash (s : string) : bool :=
  match s with
  | String "/" _ => true
  | _ => false
  end.

Definition endswith_slash (s : string) : bool :=
  bool_decide (last (list_ascii_of_string s) = Some "/"%char).

(** [os.path.join(a, b)] of [posixpath]. *)
Definition os_path_join (a b : string) : string :=
  if startswith_slash b then b
  else if bool_decide (a = "") || endswith_slash a then a +:+ b
  else a +:+ "/" +:+ b.

Definition baseurl : string :=
  "https://data.science.stsci.edu/redirect/JWST/jwst-data_analysis_tools/nircam_photometry/".

Definition filters : list string :=
  ["F090W"; "F115W"; "F150W"; "F200W"; "F277W"; "F335M"; "F356W"; "F410M";
   "F444W"].

Definition image_filename (filt : string) : string :=
  "jades_jwst_nircam_goods_s_crop_" +:+ filt +:+ ".fits".

Definition weight_filename (filt : string) : string :=
  "jades_jwst_nircam_goods_s_crop_" +:+ filt +:+ "_wht.fits".

(** One of the two loops, for the list of filters it runs over. *)
Definition file_dict (filename : string → string) (filters : list string)
  : gmap string string :=
  foldl (λ files filt, <[filt := os_path_join baseurl (filename filt)]> files)
        ∅ filters.

Definition imagefiles : gmap string string := file_dict image_filename filters.
Definition weightfiles : gmap string string := file_dict weight_filename filters.

Lemma foldl_insert_lookup (f : string → string) (fs : list string)
    (d : gmap string string) (k : string) :
  foldl (λ files filt, <[filt := f filt]> files) d fs !! k =
  if decide (k ∈ fs) then Some (f k) else d !! k.
Proof.
  revert d. induction fs as [|x fs IH]; intros d; cbn [foldl].
  - rewrite decide_False; [done|]. by intros ?%elem_of_nil.
  - rewrite IH. destruct (decide (k ∈ fs)) as [Hin|Hnin].
    + rewrite decide_True; [done|]. by right.
    + destruct (decide (k = x)) as [->|Hne].
      * rewrite decide_True by by left. by rewrite lookup_insert_eq.
      * rewrite decide_False.
        -- by rewrite lookup_insert_ne.
        -- intros [?|?]%elem_of_cons; done.
Qed.

Lemma append_inj_l (a x y : string) : a +:+ x = a +:+ y → x = y.
Proof.
  induction a as [|c a IH]; [done|].
  change (String c a +:+ x) with (String c (a +:+ x)).
  change (String c a +:+ y) with (String c (a +:+ y)).
  intros [= H]. by apply IH.
Qed.

(** The two dictionaries, for any list of filters.  [imagefiles[filt]] and
    [weightfiles[filt]] exist exactly for the filters of the list (any
    other key raises [KeyError] later on); the value is [baseurl] followed
    directly by the file name, [os.path.join] adding no separator because
    [baseurl] ends with one; and the weight file of a filter is never its
    image file. *)
Theorem file_dict_lookup (fs : list string) (filt : string) :
  file_dict image_filename fs !! filt =
    (if decide (filt ∈ fs)
     then Some (baseurl +:+ "jades_jwst_nircam_goods_s_crop_" +:+ filt
                +:+ ".fits")
     else None) ∧
  file_dict weight_filename fs !! filt =
    (if decide (filt ∈ fs)
     then Some (baseurl +:+ "jades_jwst_nircam_goods_s_crop_" +:+ filt
                +:+ "_wht.fits")
     else None) ∧
  (filt ∈ fs →
   file_dict image_filename fs !! filt ≠ file_dict weight_filename fs !! filt).
Proof.
  unfold file_dict. rewrite !foldl_insert_lookup, lookup_empty.
  split_and!; [done..|].
  intros Hin. rewrite !decide_True by done. intros [= H].
  repeat apply append_inj_l in H. discriminate H.
Qed.

End ImageFiles.

Example imagefiles_example :
  imagefiles !! "F200W"%string =
    Some "https://data.science.stsci.edu/redirect/JWST/jwst-data_analysis_tools/nircam_photometry/jades_jwst_nircam_goods_s_crop_F200W.fits"%string ∧
  weightfiles !! "F200W"%string =
    Some "https://data.science.stsci.edu/redirect/JWST/jwst-data_analysis_tools/nircam_photometry/jades_jwst_nircam_goods_s_crop_F200W_wht.fits"%string ∧
  imagefiles !! "F070W"%string = None.
Proof. split_and!; reflexivity. Qed.

(** ** NIRCam photometry: detections and the magnitude axis *)

Section Detections.

Variable to_ABmag : float → float.
Variable log10 : float → float.

(** [det2 = (0 < mag2) & (mag2 < 90)], the mask of the plots of magnitudes. *)
Definition detected (mag : float) : bool :=
  PrimFloat.ltb 0%float mag && PrimFloat.ltb mag 90%float.

(** The magnitudes that [fluxes2mags] stores for sources that are not
    observed (-99) or not detected (99) never pass the cut
    [(0 < mag) & (mag < 90)] of the plots; a magnitude that passes it is the
    converted flux of a source that is observed and whose flux is not
    negative. *)
Theorem sentinel_magnitudes_are_cut (flux fluxerr mag magerr : list float) :
  length flux = length fluxerr →
  fluxes2mags to_ABmag log10 flux fluxerr = Ok (mag, magerr) →
  ∀ i f e, flux !! i = Some f → fluxerr !! i = Some e →
    (unobs e = true ∨ nondet f = true →
     (detected <$> mag) !! i = Some false) ∧
    ((detected <$> mag) !! i = Some true →
     unobs e = false ∧ nondet f = false ∧ mag !! i = Some (to_ABmag f)).
Proof.
  intros Hlen Hrun i f e Hf He.
  rewrite fluxes2mags_zip in Hrun by done. injection Hrun as <- _.
  rewrite list_lookup_fmap, lookup_zip_with, Hf, He.
  cbn [mbind option_bind fmap option_fmap option_map]. unfold mag_of.
  destruct (unobs e), (nondet f); split;
    try (intros [?|?]; try discriminate; reflexivity);
    try (intros [= H]; vm_compute in H; discriminate H);
    try (intros H; done).
Qed.

End Detections.

Lemma sentinel_magnitudes_are_cut_witness :
  ∃ mag magerr,
    fluxes2mags to_ABmag_stand_in log10_stand_in
      [3%float; (-1)%float; 2%float] [0.5%float; 0.25%float; infinity]
    = Ok (mag, magerr) ∧
    (detected <$> mag) !! 1 = Some false ∧
    (detected <$> mag) !! 2 = Some false.
Proof.
  eexists _, _. split; [vm_compute; reflexivity|]. split.
  - eapply (sentinel_magnitudes_are_cut to_ABmag_stand_in log10_stand_in
              [3%float; (-1)%float; 2%float] [0.5%float; 0.25%float; infinity]
              _ _ eq_refl ltac:(vm_compute; reflexivity) 1
              (-1)%float 0.25%float eq_refl eq_refl).
    right. reflexivity.
  - eapply (sentinel_magnitudes_are_cut to_ABmag_stand_in log10_stand_in
              [3%float; (-1)%float; 2%float] [0.5%float; 0.25%float; infinity]
              _ _ eq_refl ltac:(vm_compute; reflexivity) 2
              2%float infinity eq_refl eq_refl).
    left. reflexivity.
Defined.

Section MagnitudeAxis.

(** [Quantity.to(u.nJy)] and [Quantity.to(u.ABmag)] on the values. *)
Variable to_nJy : float → float.
Variable to_ABmag : float → float.

(** [mlim = 31.4], written as the binary64 number that the literal denotes,
    and [flim = (mlim * u.ABmag).to(u.nJy).value]. *)
Definition mlim : float := 0x1.f666666666666p+4%float.
Definition flim : float := to_nJy mlim.

(** The two functions of the secondary axis of the SED plot:
[[
    def AB2nJy(mAB):
        f = (mAB * u.ABmag).to(u.nJy).value
        f = np.where(f > flim, f, flim)
        return f
    def nJy2AB(F_nJy):
        m = (F_nJy * u.nJy).to(u.ABmag).value
        m = np.where(m < mlim, m, mlim)
        return m
]] *)
Definition AB2nJy (mAB : list float) : list float :=
  (λ m, let f := to_nJy m in if PrimFloat.ltb flim f then f else flim) <$> mAB.

Definition nJy2AB (F_nJy : list float) : list float :=
  (λ x, let m := to_ABmag x in if PrimFloat.ltb m mlim then m else mlim)
    <$> F_nJy.

Lemma float_ltb_leb (x y : float) :
  PrimFloat.ltb x y = true → PrimFloat.leb x y = true.
Proof.
  intros H. revert H.
  rewrite FloatAxioms.ltb_spec, FloatAxioms.leb_spec. unfold SFltb, SFleb.
  by destruct (SFcompare (Prim2SF x) (Prim2SF y)) as [[]|].
Qed.

Lemma float_eqb_leb (x y : float) :
  PrimFloat.eqb x y = true → PrimFloat.leb x y = true.
Proof.
  intros H. revert H.
  rewrite FloatAxioms.eqb_spec, FloatAxioms.leb_spec. unfold SFeqb, SFleb.
  by destruct (SFcompare (Prim2SF x) (Prim2SF y)) as [[]|].
Qed.

(** [nJy2AB] never answers a magnitude fainter than [mlim], and never a
    NaN: whatever the conversion makes of a flux (NaN for a negative flux,
    infinity for zero), the result compares [<= 31.4]. *)
Theorem nJy2AB_clamped (F_nJy : list float) (m : float) :
  m ∈ nJy2AB F_nJy → PrimFloat.leb m mlim = true.
Proof.
  intros Hm. apply list_elem_of_fmap in Hm as (x & -> & _). cbv zeta.
  destruct (PrimFloat.ltb (to_ABmag x) mlim) eqn:E.
  - by apply float_ltb_leb.
  - reflexivity.
Qed.

(** [AB2nJy] never answers a flux below [flim], nor a NaN, provided that
    [flim] itself, the converted limit, is a number. *)
Theorem AB2nJy_clamped (mAB : list float) (f : float) :
  PrimFloat.eqb flim flim = true →
  f ∈ AB2nJy mAB → PrimFloat.leb flim f = true.
Proof.
  intros Hflim Hf. apply list_elem_of_fmap in Hf as (m & -> & _). cbv zeta.
  destruct (PrimFloat.ltb flim (to_nJy m)) eqn:E.
  - by apply float_ltb_leb.
  - by apply float_eqb_leb.
Qed.

End MagnitudeAxis.

(** A stand-in for the conversion to nJy, of the right type only. *)
Definition to_nJy_stand_in (m : float) : float :=
  PrimFloat.sub 100%float (PrimFloat.mul 2%float m).

Lemma nJy2AB_clamped_witness :
  mlim ∈ nJy2AB to_ABmag_stand_in [(-20)%float; 2%float] ∧
  PrimFloat.leb mlim mlim = true.
Proof.
  assert (Hin : mlim ∈ nJy2AB to_ABmag_stand_in [(-20)%float; 2%float])
    by apply list_elem_of_here.
  split; [exact Hin|].
  exact (nJy2AB_clamped to_ABmag_stand_in [(-20)%float; 2%float] mlim Hin).
Defined.

Lemma AB2nJy_clamped_witness :
  PrimFloat.eqb (flim to_nJy_stand_in) (flim to_nJy_stand_in) = true ∧
  60%float ∈ AB2nJy to_nJy_stand_in [20%float; 40%float; nan] ∧
  PrimFloat.leb (flim to_nJy_stand_in) 60%float = true.
Proof.
  assert (Hin : 60%float ∈ AB2nJy to_nJy_stand_in [20%float; 40%float; nan])
    by apply list_elem_of_here.
  split; [reflexivity|]. split; [exact Hin|].
  exact (AB2nJy_clamped to_nJy_stand_in [20%float; 40%float; nan] 60%float
           eq_refl Hin).
Defined.

(** ** NIRCam photometry: the filter list read back from the catalog

    The photometry loop stores four columns per filter,
[[
    tbl[filt+'_flux'] = ...; tbl[filt+'_fluxerr'] = ...
    tbl[filt+'_mag'] = ...;  tbl[filt+'_magerr'] = ...
]]
    and the second session rebuilds the list of filters from the column
    names of the catalog:
[[
    filters = []
    for param in tbl.columns:
        if param[-4:] == '_mag':
            filters.append(param[:-4])
]]
    The table is followed as far as the names of its columns go. *)

Section CatalogColumns.

Local Open Scope string_scope.
Local Open Scope list_scope.

(** [param[-4:]] and [param[:-4]] *)
Definition last4 (param : string) : string :=
  string_of_list_ascii
    (py_slice (-4) (Z.of_nat (List.length (list_ascii_of_string param)))
       (list_ascii_of_string param)).

Definition drop_last4 (param : string) : string :=
  string_of_list_ascii (py_slice 0 (-4) (list_ascii_of_string param)).

(** [tbl[name] = column] on the names: an existing column is replaced in
    place, a new one is appended. *)
Definition set_column (name : string) (columns : list string) : list string :=
  if decide (name ∈ columns) then columns else columns ++ [name].

Definition photometry_columns (filters columns : list string) : list string :=
  foldl (λ columns filt,
           set_column (filt +:+ "_magerr")
             (set_column (filt +:+ "_mag")
                (set_column (filt +:+ "_fluxerr")
                   (set_column (filt +:+ "_flux") columns))))
        columns filters.

Definition reconstitute_filters (columns : list string) : list string :=
  foldl (λ filters param,
           if decide (last4 param = "_mag") then filters ++ [drop_last4 param]
           else filters)
        [] columns.

End CatalogColumns.

Section CatalogColumnsFacts.

Local Open Scope string_scope.
Local Open Scope list_scope.

Lemma list_ascii_app (s t : string) :
  list_ascii_of_string (s +:+ t) =
  list_ascii_of_string s ++ list_ascii_of_string t.
Proof.
  induction s as [|a s IH]; [done|].
  change (String a s +:+ t) with (String a (s +:+ t)).
  cbn [list_ascii_of_string]. by rewrite IH.
Qed.

Lemma string_of_list_ascii_app (l1 l2 : list ascii) :
  string_of_list_ascii (l1 ++ l2) =
  string_of_list_ascii l1 +:+ string_of_list_ascii l2.
Proof. induction l1 as [|a l1 IH]; [done|]. cbn. by rewrite IH. Qed.

Lemma py_slice_last4 {A} (l : list A) :
  py_slice (-4) (Z.of_nat (List.length l)) l = drop (List.length l - 4) l.
Proof.
  unfold py_slice.
  rewrite (slice_index_neg _ (-4)), (slice_index_nonneg _ (Z.of_nat _)) by lia.
  rewrite take_ge; [f_equal; lia|]. rewrite length_drop. lia.
Qed.

Lemma py_slice_drop_last4 {A} (l : list A) :
  py_slice 0 (-4) l = take (List.length l - 4) l.
Proof.
  unfold py_slice.
  rewrite (slice_index_nonneg _ 0), (slice_index_neg _ (-4)) by lia.
  replace (Z.to_nat 0 `min` List.length l)%nat with 0%nat by lia.
  rewrite drop_0. f_equal. lia.
Qed.

(** A name is what is left of it without its last four characters,
    followed by these. *)
Lemma drop_last4_last4 (param : string) :
  param = drop_last4 param +:+ last4 param.
Proof.
  unfold drop_last4, last4.
  rewrite py_slice_drop_last4, py_slice_last4, <- string_of_list_ascii_app,
    take_drop. by rewrite string_of_list_ascii_of_string.
Qed.

Lemma last4_suffix (s t : string) :
  (4 ≤ List.length (list_ascii_of_string t))%nat →
  last4 (s +:+ t) = last4 t ∧ drop_last4 (s +:+ t) = s +:+ drop_last4 t.
Proof.
  intros Ht. unfold last4, drop_last4.
  rewrite !py_slice_last4, !py_slice_drop_last4, list_ascii_app, length_app.
  split.
  - f_equal. rewrite drop_app.
    replace (List.length (list_ascii_of_string s)
             + List.length (list_ascii_of_string t)
             - 4 - List.length (list_ascii_of_string s))%nat
      with (List.length (list_ascii_of_string t) - 4)%nat by lia.
    rewrite drop_ge by lia. done.
  - rewrite take_app.
    replace (List.length (list_ascii_of_string s)
             + List.length (list_ascii_of_string t)
             - 4 - List.length (list_ascii_of_string s))%nat
      with (List.length (list_ascii_of_string t) - 4)%nat by lia.
    rewrite take_ge by lia.
    by rewrite string_of_list_ascii_app, string_of_list_ascii_of_string.
Qed.

(** What the loop of the second session appends for a column. *)
Definition filter_of (param : string) : option string :=
  if decide (last4 param = "_mag") then Some (drop_last4 param) else None.

Lemma filter_of_mag (filt : string) : filter_of (filt +:+ "_mag") = Some filt.
Proof.
  unfold filter_of.
  destruct (last4_suffix filt "_mag") as [-> ->]; [cbn; lia|].
  rewrite decide_True by done. f_equal.
  change (drop_last4 "_mag") with "".
  induction filt as [|a s IH]; [done|].
  change (String a s +:+ "") with (String a (s +:+ "")). by rewrite IH.
Qed.

Lemma filter_of_other (filt : string) :
  filter_of (filt +:+ "_flux") = None ∧
  filter_of (filt +:+ "_fluxerr") = None ∧
  filter_of (filt +:+ "_magerr") = None.
Proof.
  unfold filter_of.
  destruct (last4_suffix filt "_flux") as [-> _]; [cbn; lia|].
  destruct (last4_suffix filt "_fluxerr") as [-> _]; [cbn; lia|].
  destruct (last4_suffix filt "_magerr") as [-> _]; [cbn; lia|].
  done.
Qed.

Lemma filter_of_inv (param filt : string) :
  filter_of param = Some filt → param = filt +:+ "_mag".
Proof.
  unfold filter_of. destruct (decide _) as [H|]; [|done]. intros [= <-].
  by rewrite (drop_last4_last4 param) at 1; rewrite H.
Qed.

Lemma reconstitute_filters_omap (columns : list string) :
  reconstitute_filters columns = omap filter_of columns.
Proof.
  unfold reconstitute_filters.
  assert (H : ∀ acc,
            foldl (λ filters param,
                     if decide (last4 param = "_mag")
                     then filters ++ [drop_last4 param] else filters)
                  acc columns = acc ++ omap filter_of columns).
  { induction columns as [|c columns IH]; intros acc; cbn [foldl omap list_omap].
    - by rewrite app_nil_r.
    - rewrite IH. unfold filter_of at 2.
      destruct (decide (last4 c = "_mag")); [|done].
      by rewrite <- app_assoc. }
  apply (H []).
Qed.

Lemma omap_set_column (name : string) (columns : list string) :
  omap filter_of (set_column name columns) =
  omap filter_of columns ++
  (if decide (name ∈ columns) then []
   else match filter_of name with Some filt => [filt] | None => [] end).
Proof.
  unfold set_column. destruct (decide (name ∈ columns)).
  - by rewrite app_nil_r.
  - rewrite omap_app. cbn [omap list_omap]. by destruct (filter_of name).
Qed.

Lemma mag_column_elem_of (filt : string) (columns : list string) :
  filt +:+ "_mag" ∈ columns ↔ filt ∈ omap filter_of columns.
Proof.
  rewrite list_elem_of_omap. split.
  - intros H. exists (filt +:+ "_mag"). split; [done|apply filter_of_mag].
  - intros (c & Hc & Hf). by apply filter_of_inv in Hf as <-.
Qed.

Lemma photometry_step (filt : string) (columns : list string) :
  omap filter_of
    (set_column (filt +:+ "_magerr")
       (set_column (filt +:+ "_mag")
          (set_column (filt +:+ "_fluxerr")
             (set_column (filt +:+ "_flux") columns)))) =
  omap filter_of columns ++
  (if decide (filt ∈ omap filter_of columns) then [] else [filt]).
Proof.
  destruct (filter_of_other filt) as (Hflux & Hfluxerr & Hmagerr).
  rewrite (omap_set_column (filt +:+ "_magerr")), Hmagerr.
  rewrite (omap_set_column (filt +:+ "_mag")), filter_of_mag.
  rewrite (omap_set_column (filt +:+ "_fluxerr")), Hfluxerr.
  rewrite (omap_set_column (filt +:+ "_flux")), Hflux.
  repeat match goal with
  | |- context [if decide (?x ∈ ?l) then [] else []] =>
      replace (if decide (x ∈ l) then [] else []) with (@nil string)
        by by destruct (decide (x ∈ l))
  end.
  rewrite !app_nil_r.
  destruct (decide (filt ∈ omap filter_of columns)) as [Hin|Hnin].
  - rewrite decide_True; [done|].
    apply mag_column_elem_of.
    by rewrite !omap_set_column, Hflux, Hfluxerr;
      repeat match goal with
      | |- context [if decide (?x ∈ ?l) then [] else []] =>
          replace (if decide (x ∈ l) then [] else []) with (@nil string)
            by by destruct (decide (x ∈ l))
      end; rewrite !app_nil_r.
  - rewrite decide_False; [done|]. intros Hin. apply Hnin.
    apply mag_column_elem_of in Hin.
    revert Hin. rewrite !omap_set_column, Hflux, Hfluxerr.
    repeat match goal with
    | |- context [if decide (?x ∈ ?l) then [] else []] =>
        replace (if decide (x ∈ l) then [] else []) with (@nil string)
          by by destruct (decide (x ∈ l))
    end.
    by rewrite !app_nil_r.
Qed.

End CatalogColumnsFacts.

Section CatalogColumnsClaims.

Local Open Scope string_scope.
Local Open Scope list_scope.

(** The list of filters survives the catalog.  When the table that the
    photometry loop starts from has no column whose name ends in ['_mag'],
    and the loop runs over filters that are pairwise different, the filters
    rebuilt from the column names are the filters of the loop, in their
    order (the reading of the file is taken to return the columns as they
    were written). *)
Theorem filters_round_trip (filters columns : list string) :
  NoDup filters →
  (∀ c, c ∈ columns → last4 c ≠ "_mag") →
  reconstitute_filters (photometry_columns filters columns) = filters.
Proof.
  intros Hnd Hcols. rewrite reconstitute_filters_omap.
  assert (H0 : omap filter_of columns = []).
  { clear -Hcols. induction columns as [|c columns IH]; [done|].
    cbn [omap list_omap]. unfold filter_of at 1.
    rewrite decide_False by (apply Hcols; by left).
    apply IH. intros c' Hc'. apply Hcols. by right. }
  assert (H : ∀ fs cols done,
            omap filter_of cols = done → NoDup (done ++ fs) →
            omap filter_of (photometry_columns fs cols) = done ++ fs).
  { clear. induction fs as [|filt fs IH]; intros cols done Hdone Hnd.
    - by rewrite app_nil_r.
    - unfold photometry_columns. cbn [foldl].
      fold (photometry_columns fs
              (set_column (filt +:+ "_magerr")
                 (set_column (filt +:+ "_mag")
                    (set_column (filt +:+ "_fluxerr")
                       (set_column (filt +:+ "_flux") cols))))).
      rewrite (IH _ (done ++ [filt])).
      + by rewrite <- app_assoc.
      + rewrite photometry_step, Hdone. rewrite decide_False; [done|].
        apply NoDup_app in Hnd as (_ & Hdisj & _). intros Hin.
        apply (Hdisj filt Hin). by left.
      + by rewrite <- app_assoc. }
  by apply (H filters columns []).
Qed.

End CatalogColumnsClaims.

Lemma filters_round_trip_witness :
  NoDup filters ∧
  reconstitute_filters
    (photometry_columns filters
       ["label"; "xcentroid"; "ycentroid"; "sky_centroid"; "area"; "a"; "b";
        "ellipticity"; "orientation"; "gini"]%string) = filters.
Proof.
  assert (Hnd : NoDup filters) by (by apply (bool_decide_unpack (NoDup filters))).
  split; [exact Hnd|].
  apply (filters_round_trip filters _ Hnd).
  intros c Hc.
  repeat (apply elem_of_cons in Hc as [->|Hc]; [by vm_compute|]).
  by apply elem_of_nil in Hc.
Defined.

(** ** The table of headers of [check_files_headers]

[[
    df = pd.DataFrame(columns=["FILENAME", "FILTER", "PUPIL", "PATT_NUM",
                               "NUMDTHPT", "XOFFSET", "YOFFSET"])
    for file in glob.glob(".../*/*rate.fits"):
        try:
            image = fits.open(file)
            df2 = pd.DataFrame({"FILENAME": [image[0].header["FILENAME"]], ...})
            df = pd.concat([df, df2], ignore_index = True, axis = 0)
        except:
            print("corrupted: ",file)
]]
    The handler is bare: whatever the body raises, the file is reported and
    the loop goes on. *)

Section HeaderTable.

(** The values of a header. *)
Variable V : Type.

(** [fits.open(file)]: the headers of the units of the file, or an
    exception. *)
Variable fits_open : string → option (list (gmap string V)).

Definition header_keys : list string :=
  ["FILENAME"; "FILTER"; "PUPIL"; "PATT_NUM"; "NUMDTHPT"; "XOFFSET";
   "YOFFSET"]%string.

(** The body of the [try]: the row of the file, or an exception. *)
Definition header_row (file : string) : option (list V) :=
  image ← fits_open file;
  header ← image !! 0;
  mapM (λ k, header !! k) header_keys.

Definition header_table (files : list string) : list (list V) :=
  foldl (λ df file,
           match header_row file with
           | Some row => df ++ [row]
           | None => df
           end)
        [] files.

Lemma header_table_omap (files : list string) :
  header_table files = omap header_row files.
Proof.
  unfold header_table.
  assert (H : ∀ df,
            foldl (λ df file,
                     match header_row file with
                     | Some row => df ++ [row]
                     | None => df
                     end) df files = df ++ omap header_row files).
  { induction files as [|f files IH]; intros df; cbn [foldl omap list_omap].
    - by rewrite app_nil_r.
    - rewrite IH. destruct (header_row f); [|done]. by rewrite <- app_assoc. }
  apply (H []).
Qed.

(** The loop over the files never stops at a bad file.  A file that cannot
    be opened, or that lacks one of the seven keywords in its primary
    header, leaves the table as it would be without that file; every other
    file adds exactly one row, in the order of the files, and every row has
    the seven values. *)
Theorem header_table_skips_bad_files (pre post : list string) (file : string) :
  header_table (pre ++ file :: post) =
    header_table pre ++
    match header_row file with Some row => [row] | None => [] end ++
    header_table post ∧
  (header_row file = None →
   header_table (pre ++ file :: post) = header_table (pre ++ post)) ∧
  (∀ row, row ∈ header_table (pre ++ file :: post) → length row = 7).
Proof.
  rewrite !header_table_omap, omap_app. cbn [omap list_omap].
  split_and!.
  - by destruct (header_row file).
  - intros ->. by rewrite omap_app.
  - intros row Hrow.
    assert (Hin : row ∈ omap header_row (pre ++ file :: post)).
    { rewrite omap_app. cbn [omap list_omap]. exact Hrow. }
    apply list_elem_of_omap in Hin as (f & _ & Hf).
    unfold header_row in Hf.
    destruct (fits_open f) as [image|]; [|done].
    cbn [mbind option_bind] in Hf.
    destruct (image !! 0) as [header|]; [|done].
    cbn [mbind option_bind] in Hf.
    apply length_mapM in Hf. by rewrite <- Hf.
Qed.

End HeaderTable.

(** ** Notebook 02: [flux_normalize]

    "Normalization of observed spectra; Just for visual purpose":
    [flux_200 = fd['flux'] / flux_normalize] before the continuum is fitted
    and subtracted. *)

Section FluxNormalize.

Local Open Scope Q_scope.

Variable fit_generic_continuum :
  nat → list (Q * Q) → list Q → list Q → result (list Q).

Lemma peval_scale (k : Q) (p : list Q) (x : Q) :
  peval ((λ a, a * k) <$> p) x == peval p x * k.
Proof.
  induction p as [|a p IH]; cbn [fmap list_fmap peval]; [ring|].
  rewrite IH. ring.
Qed.

Lemma peval_unscale (k : Q) (p : list Q) (x : Q) :
  ¬ k == 0 → peval ((λ a, a / k) <$> p) x == peval p x / k.
Proof.
  intros Hk. induction p as [|a p IH]; cbn [fmap list_fmap peval];
    [field; exact Hk|].
  rewrite IH. field. exact Hk.
Qed.

Lemma sse_scaled (k : Q) (pts : list (Q * Q)) (p : list Q) :
  ¬ k == 0 →
  sse ((λ pt, (pt.1, pt.2 / k)) <$> pts) p * (k * k)
  == sse pts ((λ a, a * k) <$> p).
Proof.
  intros Hk. unfold sse. rewrite qsum_fmap.
  rewrite Qmult_comm, <- qsum_scale. apply qsum_ext.
  intros [x y] _. cbn [fst snd]. unfold sq. rewrite peval_scale.
  field. exact Hk.
Qed.

Lemma selected_scaled (bounds : list (Q * Q)) (k : Q) (wave flux : list Q) :
  length wave = length flux →
  selected bounds wave ((λ f, f / k) <$> flux) =
    (λ pt, (pt.1, pt.2 / k)) <$> selected bounds wave flux.
Proof.
  unfold selected. revert flux.
  induction wave as [|w wave IH]; intros [|f flux] Hlen; simplify_eq/=;
    [done|].
  destruct (in_any_bound bounds w); cbn; by rewrite IH.
Qed.

(** The normalization is indeed only cosmetic.  With a least-squares fit
    and at least [deg + 1] different wavelengths inside the bounds, the
    continuum of the spectrum divided by [k] is the continuum of the
    spectrum, divided by [k], at every wavelength; so the
    continuum-subtracted spectrum is the same whether the division comes
    before or after. *)
Theorem normalization_commutes (bounds : list (Q * Q)) (deg : nat) (k : Q)
    (wave flux c c' : list Q) :
  (∀ x y p, fit_generic_continuum deg [] x y = Ok p → is_ols deg (zip x y) p) →
  ¬ k == 0 →
  length wave = length flux →
  Qdistinct (selected bounds wave flux).*1 →
  (S deg <= length (selected bounds wave flux))%nat →
  continuum_estimator fit_generic_continuum bounds deg wave flux = Ok c →
  continuum_estimator fit_generic_continuum bounds deg wave
    ((λ f, f / k) <$> flux) = Ok c' →
  (∀ w, peval c' w == peval c w / k) ∧
  ∃ r r',
    line_residual c wave flux = Ok r ∧
    line_residual c' wave ((λ f, f / k) <$> flux) = Ok r' ∧
    Forall2 (λ a' a, a' == a / k) r' r.
Proof.
  intros Hols Hk Hlen Hdist Hcount H1 H2.
  set (sel := selected bounds wave flux) in *.
  rewrite continuum_estimator_selected in H1 by done.
  rewrite continuum_estimator_selected in H2 by (rewrite length_fmap; done).
  apply Hols in H1, H2. rewrite zip_fst_snd_Q in H1, H2.
  rewrite selected_scaled in H2 by done. fold sel in H1, H2.
  destruct H1 as [Hl1 Hmin1]. destruct H2 as [Hl2 Hmin2].
  set (s := (λ a, a * k) <$> c').
  assert (Hkk : 0 < k * k).
  { clear -Hk. destruct (Qlt_le_dec k 0); [nra|].
    destruct (Qlt_le_dec 0 k); [nra|]. exfalso. apply Hk. lra. }
  assert (Hs : is_ols deg sel s).
  { split; [unfold s; by rewrite length_fmap|]. intros q Hq.
    unfold s. rewrite <- sse_scaled by done.
    rewrite (sse_peval_ext sel q ((λ a, a * k) <$> ((λ a, a / k) <$> q))).
    2:{ intros x. rewrite peval_scale, peval_unscale by done.
        field. exact Hk. }
    rewrite <- sse_scaled by done.
    apply Qmult_le_compat_r; [|lra].
    apply Hmin2. by rewrite length_fmap. }
  assert (Hagree : ∀ x, x ∈ sel.*1 →
            peval (zip_with Qminus s c) x == 0).
  { intros x Hx. apply list_elem_of_fmap in Hx as ([x' y] & -> & Hpt).
    pose proof (ols_agree deg sel c s (conj Hl1 Hmin1) Hs _ Hpt) as Hag.
    cbn [fst] in *. rewrite peval_zip_minus
      by (unfold s; rewrite length_fmap; lia).
    rewrite Hag. ring. }
  assert (Hall : ∀ w, peval c' w == peval c w / k).
  { intros w.
    pose proof (poly_vanishing sel.*1 (zip_with Qminus s c) Hdist) as Hv.
    rewrite length_zip_with, length_fmap in Hv.
    unfold s in Hv at 1. rewrite length_fmap in Hv.
    specialize (Hv ltac:(lia) Hagree w).
    rewrite peval_zip_minus in Hv by (unfold s; rewrite length_fmap; lia).
    unfold s in Hv. rewrite peval_scale in Hv.
    apply (Qmult_inj_r _ _ k); [done|].
    transitivity (peval c w); [|field; exact Hk].
    revert Hv. generalize (peval c' w * k), (peval c w). intros a b Hv.
    clear -Hv. lra. }
  split; [done|].
  eexists _, _. split_and!.
  - unfold line_residual. apply broadcast2_same_length.
    rewrite length_fmap. lia.
  - unfold line_residual. apply broadcast2_same_length.
    rewrite !length_fmap. lia.
  - apply Forall2_same_length_lookup. split.
    { rewrite !length_zip_with, !length_fmap. lia. }
    intros i a' a Ha' Ha. rewrite lookup_zip_with in Ha', Ha.
    rewrite !list_lookup_fmap in Ha'. rewrite list_lookup_fmap in Ha.
    destruct (flux !! i) as [f|]; [|done].
    destruct (wave !! i) as [w|]; [|done].
    cbn in Ha', Ha. injection Ha' as <-. injection Ha as <-.
    rewrite Hall. field. exact Hk.
Qed.

End FluxNormalize.

Definition wave4 : list Q := [180 # 100; 190 # 100; 210 # 100; 220 # 100]%Q.
Definition flux4 : list Q := [500; 520; 560; 590]%Q.

Lemma normalization_commutes_witness :
  ∃ c c',
    continuum_estimator lstsq_fit bounds_200 1 wave4 flux4 = Ok c ∧
    continuum_estimator lstsq_fit bounds_200 1 wave4
      ((λ f, f / flux_normalize)%Q <$> flux4) = Ok c' ∧
    ∀ w, (peval c' w == peval c w / flux_normalize)%Q.
Proof.
  assert (∃ c c',
            continuum_estimator lstsq_fit bounds_200 1 wave4 flux4 = Ok c ∧
            continuum_estimator lstsq_fit bounds_200 1 wave4
              ((λ f, f / flux_normalize)%Q <$> flux4) = Ok c')
    as (c & c' & H1 & H2)
    by (vm_compute; eexists _, _; split; reflexivity).
  exists c, c'. split; [exact H1|]. split; [exact H2|].
  refine (proj1 (normalization_commutes lstsq_fit bounds_200 1 flux_normalize
                   wave4 flux4 c c' _ _ eq_refl _ _ H1 H2)).
  - intros x y p. apply lstsq_fit_ols.
  - intros H. vm_compute in H. discriminate H.
  - check_distinct.
  - vm_compute. lia.
Defined.

